(** * onchip_prolog: the unification and resolution engine

    A shallow embedding of the engine part of [src/language/onchip_prolog.c]
    (terms, trail, [deref], [unify], [copy_term], the printer, the built-ins
    and [solve]) together with the properties its specification states.

    Memory is an arena: a [Term*] is an index into the list of allocated
    nodes, [xmalloc] appends a node.  Pointer equality is index equality.
    The C functions recurse and loop without bound on cyclic term graphs, so
    every recursive function takes a fuel argument and returns a [Res]:
    a value, a memory fault (a dereference the C program has no defined
    behaviour for) or fuel exhaustion. *)

From Stdlib Require Import ZArith Lia String Ascii Bool.
From Stdlib Require Import Floats.PrimFloat.
From stdpp Require Import base tactics option list.

Local Open Scope Z_scope.
Set Warnings "-register-all".

(** ** Results of possibly diverging, possibly faulting computations *)

Inductive Res (A : Type) : Type :=
| Ret (a : A)
| Fault
| OutOfFuel.
Arguments Ret {A} a.
Arguments Fault {A}.
Arguments OutOfFuel {A}.

#[global] Instance Res_ret : MRet Res := fun A a => Ret a.
#[global] Instance Res_bind : MBind Res := fun A B f r =>
  match r with
  | Ret a => f a
  | Fault => Fault
  | OutOfFuel => OutOfFuel
  end.

(** ** Terms, clauses, knowledge base *)

(** A [Term*]: the index of a node in the heap. *)
Abbreviation addr := nat (only parsing).

Inductive TermKind := TM_VAR | TM_NUM | TM_STRUC.

(** [struct Term].  The [arity] field of the C struct is always the length
    of [args] ([mk_struct] pushes exactly [arity] slots and nothing else
    writes either field), so it is computed from the argument vector. *)
Inductive Term :=
| Var (id : Z) (ref : option addr) (name : option string) (anonymous : bool)
| Num (num : float)
| Struc (name : string) (args : list addr).

Definition k (t : Term) : TermKind :=
  match t with
  | Var _ _ _ _ => TM_VAR
  | Num _ => TM_NUM
  | Struc _ _ => TM_STRUC
  end.

Definition arity (args : list addr) : Z := Z.of_nat (length args).

Definition TermKind_eqb (x y : TermKind) : bool :=
  match x, y with
  | TM_VAR, TM_VAR | TM_NUM, TM_NUM | TM_STRUC, TM_STRUC => true
  | _, _ => false
  end.

Record Clause := mkClause { head : addr; body : list addr }.

(** [KB]: the clauses in insertion order. *)
Definition KB := list Clause.

(** The mutable globals of the engine: the heap of term nodes, [g_trail]
    (a stack: the head of the list is [g_trail.v[g_trail.n - 1]]), what has
    been written to stdout, and [g_solution_count]. *)
Record State := mkState {
  heap : list Term;
  g_trail : list addr;
  out : string;
  g_solution_count : Z
}.

Definition set_heap (h : list Term) (s : State) : State :=
  mkState h (g_trail s) (out s) (g_solution_count s).

Definition printf (str : string) (s : State) : State :=
  mkState (heap s) (g_trail s) (String.append (out s) str) (g_solution_count s).

Definition alloc (t : Term) (s : State) : addr * State :=
  (length (heap s), set_heap (heap s ++ [t]) s).

Definition starts_with_underscore (name : string) : bool :=
  match name with
  | String c _ => Ascii.eqb c "_"%char
  | EmptyString => false
  end.

Definition mk_var (name : option string) (s : State) : addr * State :=
  alloc (Var 0 None name
           (match name with
            | Some nm => starts_with_underscore nm
            | None => false
            end)) s.

Definition mk_num (v : float) (s : State) : addr * State := alloc (Num v) s.

Definition mk_atom (name : string) (s : State) : addr * State :=
  alloc (Struc name []) s.

(** [mk_struct] followed by the stores into [args.a[i]] that every caller
    performs right after it. *)
Definition mk_struct (name : string) (args : list addr) (s : State)
  : addr * State :=
  alloc (Struc name args) s.

(** ** Trail *)

Definition trail_push (var : addr) (s : State) : State :=
  mkState (heap s) (var :: g_trail s) (out s) (g_solution_count s).

Definition trail_mark (s : State) : Z := Z.of_nat (length (g_trail s)).

(** [v->u.v.ref = NULL]; storing through a pointer that is not a variable
    node is a fault. *)
Definition unbind (v : addr) (h : list Term) : Res (list Term) :=
  match h !! v with
  | Some (Var id _ nm an) => Ret (<[v := Var id None nm an]> h)
  | _ => Fault
  end.

(** The loop of [trail_unwind].  With an empty trail and a negative mark the
    C loop reads [g_trail.v[-1]]. *)
Fixpoint unwind_loop (mark : Z) (tr : list addr) (h : list Term)
  : Res (list addr * list Term) :=
  if Z.of_nat (length tr) >? mark then
    match tr with
    | [] => Fault
    | v :: tr' => h' ← unbind v h; unwind_loop mark tr' h'
    end
  else Ret (tr, h).

Definition trail_unwind (mark : Z) (s : State) : Res State :=
  '(tr, h) ← unwind_loop mark (g_trail s) (heap s);
  Ret (mkState h tr (out s) (g_solution_count s)).

(** ** Dereferencing and unification *)

Fixpoint deref (fuel : nat) (h : list Term) (t : addr) : Res addr :=
  match h !! t with
  | None => Fault
  | Some (Var _ (Some r) _ _) =>
      match fuel with
      | O => OutOfFuel
      | S f => deref f h r
      end
  | Some _ => Ret t
  end.

(** [a->u.v.ref = b] for a variable node [a]. *)
Definition bind_var (a b : addr) (s : State) : State :=
  match heap s !! a with
  | Some (Var id _ nm an) => set_heap (<[a := Var id (Some b) nm an]> (heap s)) s
  | _ => s
  end.

(** The argument loop of [unify]: [for (i = 0; i < a->u.s.arity; i++)]. *)
Fixpoint unify_args (u : addr → addr → State → Res (bool * State))
    (l1 l2 : list addr) (s : State) : Res (bool * State) :=
  match l1, l2 with
  | [], _ => Ret (true, s)
  | x :: l1', y :: l2' =>
      '(ok, s') ← u x y s;
      if ok : bool then unify_args u l1' l2' s' else Ret (false, s')
  | _ :: _, [] => Fault
  end.

Fixpoint unify (fuel : nat) (a b : addr) (s : State) : Res (bool * State) :=
  match fuel with
  | O => OutOfFuel
  | S f =>
      a ← deref f (heap s) a;
      b ← deref f (heap s) b;
      if Nat.eqb a b then Ret (true, s)
      else
        match heap s !! a, heap s !! b with
        | Some (Var _ _ _ _), Some _ => Ret (true, trail_push a (bind_var a b s))
        | Some _, Some (Var _ _ _ _) => Ret (true, trail_push b (bind_var b a s))
        | Some (Num x), Some (Num y) => Ret (PrimFloat.eqb x y, s)
        | Some (Struc n1 l1), Some (Struc n2 l2) =>
            if negb (String.eqb n1 n2) then Ret (false, s)
            else if negb (arity l1 =? arity l2) then Ret (false, s)
            else unify_args (unify f) l1 l2 s
        | Some _, Some _ => Ret (false, s)
        | _, _ => Fault
        end
  end.

(** ** Clause renaming: [VMap], [map_get], [copy_term] *)

(** The parallel arrays [from]/[to] of a [VMap], kept as pairs in insertion
    order. *)
Definition VMap := list (addr * addr).

Fixpoint vmap_find (M : VMap) (orig : addr) : option addr :=
  match M with
  | [] => None
  | (f, t) :: M' => if Nat.eqb f orig then Some t else vmap_find M' orig
  end.

Definition map_get (M : VMap) (orig : addr) (s : State)
  : Res (addr * VMap * State) :=
  match vmap_find M orig with
  | Some t => Ret (t, M, s)
  | None =>
      match heap s !! orig with
      | Some o =>
          let nm := match o with
                    | Var _ _ (Some nm) _ => nm
                    | _ => "_"%string
                    end in
          let '(nv, s') := mk_var (Some nm) s in
          Ret (nv, M ++ [(orig, nv)], s')
      | None => Fault
      end
  end.

(** Copying a vector of terms left to right with one shared map: the
    argument loop of [copy_term] and the body loop of [solve]. *)
Fixpoint copy_terms (cp : addr → VMap → State → Res (addr * VMap * State))
    (l : list addr) (M : VMap) (s : State) : Res (list addr * VMap * State) :=
  match l with
  | [] => Ret ([], M, s)
  | t :: l' =>
      '(c, M1, s1) ← cp t M s;
      '(cs, M2, s2) ← copy_terms cp l' M1 s1;
      Ret (c :: cs, M2, s2)
  end.

(** [copy_term].  The C code allocates the new struct node before it copies
    the arguments; here the node is allocated once its arguments are known,
    which changes only the addresses of the fresh nodes. *)
Fixpoint copy_term (fuel : nat) (t : addr) (M : VMap) (s : State)
  : Res (addr * VMap * State) :=
  match fuel with
  | O => OutOfFuel
  | S f =>
      match heap s !! t with
      | None => Fault
      | Some (Var _ _ _ _) => map_get M t s
      | Some (Num x) => let '(c, s') := mk_num x s in Ret (c, M, s')
      | Some (Struc nm args) =>
          '(cs, M', s') ← copy_terms (copy_term f) args M s;
          let '(c, s'') := mk_struct nm cs s' in
          Ret (c, M', s'')
      end
  end.

(** ** Engine: printer, built-ins, solver *)

Definition LF : string := String "010"%char EmptyString.

Definition is_atom (fuel : nat) (h : list Term) (t : addr) (name : string)
    (ar : Z) : Res bool :=
  t ← deref fuel h t;
  match h !! t with
  | Some (Struc nm args) => Ret ((arity args =? ar) && String.eqb nm name)
  | Some _ => Ret false
  | None => Fault
  end.

(** [t->u.s.args.a[i]] *)
Definition arg (h : list Term) (t : addr) (i : nat) : Res addr :=
  match h !! t with
  | Some (Struc _ args) =>
      match args !! i with
      | Some x => Ret x
      | None => Fault
      end
  | _ => Fault
  end.

(** [query_vars]: the [VSet] filled by [collect_vars]. *)
Definition VSet := list addr.

Definition vset_add (S : VSet) (v : addr) : VSet :=
  if existsb (Nat.eqb v) S then S else S ++ [v].

Fixpoint collect_args (cv : addr → VSet → Res VSet) (l : list addr) (S : VSet)
  : Res VSet :=
  match l with
  | [] => Ret S
  | x :: l' => S1 ← cv x S; collect_args cv l' S1
  end.

Fixpoint collect_vars (fuel : nat) (h : list Term) (t : addr) (S : VSet)
  : Res VSet :=
  match fuel with
  | O => OutOfFuel
  | S f =>
      t ← deref f h t;
      match h !! t with
      | Some (Var _ _ _ an) => Ret (if an then S else vset_add S t)
      | Some (Struc _ args) => collect_args (collect_vars f h) args S
      | Some (Num _) => Ret S
      | None => Fault
      end
  end.

Section Engine.

(** What [printf("%.15g", x)] writes: the C library's formatting of a
    double, not part of the repository. *)
Variable fmt_g : float → string.

(** The knowledge base [g_kb], filled before [solve] runs and only read by
    it. *)
Variable g_kb : KB.

Fixpoint print_args (pt : addr → State → Res State) (first : bool)
    (l : list addr) (s : State) : Res State :=
  match l with
  | [] => Ret s
  | x :: l' =>
      s1 ← pt x (if first then s else printf ", " s);
      print_args pt false l' s1
  end.

(** The [while (1)] loop of [print_list]. *)
Fixpoint print_list_loop (pt : addr → State → Res State) (fuel : nat)
    (first : bool) (t : addr) (s : State) : Res State :=
  match fuel with
  | O => OutOfFuel
  | S f =>
      t ← deref f (heap s) t;
      let improper :=
        pt t (printf "| " (if first then s else printf ", " s)) in
      match heap s !! t with
      | Some (Struc nm args) =>
          if (arity args =? 0) && String.eqb nm "[]" then Ret s
          else if String.eqb nm "." && (arity args =? 2) then
            x ← arg (heap s) t 0;
            s1 ← pt x (if first then s else printf ", " s);
            y ← arg (heap s1) t 1;
            print_list_loop pt f false y s1
          else improper
      | Some _ => improper
      | None => Fault
      end
  end.

Definition print_list (pt : addr → State → Res State) (fuel : nat) (t : addr)
    (s : State) : Res State :=
  s1 ← print_list_loop pt fuel true t (printf "[" s);
  Ret (printf "]" s1).

Definition is_list_like (fuel : nat) (h : list Term) (t : addr) : Res bool :=
  t ← deref fuel h t;
  match h !! t with
  | Some (Struc nm args) =>
      Ret ((arity args =? 0) && String.eqb nm "[]"
           || String.eqb nm "." && (arity args =? 2))
  | Some _ => Ret false
  | None => Fault
  end.

Fixpoint print_term (fuel : nat) (t : addr) (s : State) : Res State :=
  match fuel with
  | O => OutOfFuel
  | S f =>
      t ← deref f (heap s) t;
      match heap s !! t with
      | Some (Var _ _ nm _) =>
          Ret (printf (match nm with Some n => n | None => "_"%string end) s)
      | Some (Num x) => Ret (printf (fmt_g x) s)
      | Some (Struc nm args) =>
          ll ← is_list_like f (heap s) t;
          if ll : bool then print_list (print_term f) f t s
          else
            let s1 := printf nm s in
            if arity args >? 0 then
              s2 ← print_args (print_term f) true args (printf "(" s1);
              Ret (printf ")" s2)
            else Ret s1
      | None => Fault
      end
  end.

Definition builtin_call (fuel : nat) (goal : addr) (s : State)
  : Res (Z * State) :=
  goal ← deref fuel (heap s) goal;
  b ← is_atom fuel (heap s) goal "true" 0;
  if b : bool then Ret (1, s) else
  b ← is_atom fuel (heap s) goal "fail" 0;
  if b : bool then Ret (0, s) else
  b ← is_atom fuel (heap s) goal "nl" 0;
  if b : bool then Ret (1, printf LF s) else
  b ← is_atom fuel (heap s) goal "write" 1;
  if b : bool then
    a0 ← arg (heap s) goal 0;
    s1 ← print_term fuel a0 s;
    Ret (1, s1)
  else
  b ← is_atom fuel (heap s) goal "=" 2;
  if b : bool then
    let m := trail_mark s in
    a0 ← arg (heap s) goal 0;
    a1 ← arg (heap s) goal 1;
    '(ok, s1) ← unify fuel a0 a1 s;
    if ok : bool then Ret (1, s1)
    else s2 ← trail_unwind m s1; Ret (0, s2)
  else
  b ← is_atom fuel (heap s) goal "dif" 2;
  if b : bool then
    let m := trail_mark s in
    a0 ← arg (heap s) goal 0;
    a1 ← arg (heap s) goal 1;
    '(ok, s1) ← unify fuel a0 a1 s;
    s2 ← trail_unwind m s1;
    Ret (if ok : bool then 0 else 1, s2)
  else Ret (-1, s).

(** [printf("%s = ", S->v[i]->u.v.name ? ... : "_")], reading the name of a
    variable node. *)
Definition var_name (h : list Term) (v : addr) : Res string :=
  match h !! v with
  | Some (Var _ _ nm _) =>
      Ret (match nm with Some n => n | None => "_"%string end)
  | _ => Fault
  end.

Fixpoint print_bindings (fuel : nat) (first : bool) (S : VSet) (s : State)
  : Res State :=
  match S with
  | [] => Ret s
  | v :: S' =>
      let s0 := if first then s else printf ", " s in
      nm ← var_name (heap s0) v;
      s1 ← print_term fuel v (printf (String.append nm " = ") s0);
      print_bindings fuel false S' s1
  end.

Definition print_solution (fuel : nat) (S : VSet) (s : State) : Res State :=
  match S with
  | [] => Ret (printf (String.append "true" LF) s)
  | _ => s1 ← print_bindings fuel true S s; Ret (printf LF s1)
  end.

(** The quick functor filter of [solve]: [true] when the clause is
    attempted, [false] when the loop [continue]s. *)
Definition functor_filter (Gh H : Term) : bool :=
  match Gh, H with
  | Struc n1 a1, Struc n2 a2 =>
      if negb (String.eqb n1 n2) then false
      else if negb (arity a1 =? arity a2) then false
      else true
  | _, _ => if negb (TermKind_eqb (k Gh) (k H)) then false else true
  end.

Definition count_solution (s : State) : State :=
  mkState (heap s) (g_trail s) (out s) (g_solution_count s + 1).

(** The [for] loop of [solve] over the clauses still to be tried; [slv] is
    the recursive call of [solve]. *)
Fixpoint try_clauses (slv : list addr → State → Res State) (fuel : nat)
    (G : addr) (rest : list addr) (cls : list Clause) (s : State)
  : Res State :=
  match cls with
  | [] => Ret s
  | cl :: cls' =>
      Gh ← deref fuel (heap s) G;
      match heap s !! Gh, heap s !! head cl with
      | Some tG, Some tH =>
          if functor_filter tG tH then
            let mark := trail_mark s in
            '(Hcopy, M, s1) ← copy_term fuel (head cl) [] s;
            '(ok, s2) ← unify fuel Gh Hcopy s1;
            s3 ← (if ok : bool then
                    '(B, _, s2') ← copy_terms (copy_term fuel) (body cl) M s2;
                    slv (B ++ rest) s2'
                  else Ret s2);
            s4 ← trail_unwind mark s3;
            try_clauses slv fuel G rest cls' s4
          else try_clauses slv fuel G rest cls' s
      | _, _ => Fault
      end
  end.

Fixpoint solve (fuel : nat) (goals : list addr) (query_vars : VSet)
    (s : State) : Res State :=
  match fuel with
  | O => OutOfFuel
  | S f =>
      match goals with
      | [] => print_solution f query_vars (count_solution s)
      | G :: rest =>
          '(bi, s1) ← builtin_call f G s;
          if bi =? 1 then solve f rest query_vars s1
          else if bi =? 0 then Ret s1
          else try_clauses (fun ng => solve f ng query_vars) f G rest g_kb s1
      end
  end.

(** The part of [main] that runs the last query once the program text has
    been parsed. *)
Definition run_query (fuel : nat) (last_query : list addr) (s : State)
  : Res State :=
  qvars ← collect_args (collect_vars fuel (heap s)) last_query [];
  s1 ← solve fuel last_query qvars
         (mkState (heap s) (g_trail s) (out s) 0);
  Ret (if g_solution_count s1 =? 0
       then printf (String.append "false." LF) s1 else s1).

End Engine.

(** ** Building terms the way the parser does

    [parse_term], [parse_one] and the parse loop of [main], applied to
    program text that has already been read into syntax trees: variables of
    one clause or query share a node per name ([ve_get]), arguments are
    built before the node that holds them, clauses are appended to the
    knowledge base in textual order. *)

Inductive Syn :=
| SVar (name : string)
| SNum (v : float)
| SFun (name : string) (args : list Syn).

Definition SAtom (name : string) : Syn := SFun name [].

Definition VarEnv := list (string * addr).

Fixpoint ve_find (E : VarEnv) (name : string) : option addr :=
  match E with
  | [] => None
  | (n, v) :: E' => if String.eqb n name then Some v else ve_find E' name
  end.

Definition ve_get (E : VarEnv) (name : string) (s : State)
  : addr * VarEnv * State :=
  match ve_find E name with
  | Some v => (v, E, s)
  | None => let '(v, s') := mk_var (Some name) s in (v, E ++ [(name, v)], s')
  end.

Fixpoint parse_term (t : Syn) (V : VarEnv) (s : State) : addr * VarEnv * State :=
  match t with
  | SVar name => ve_get V name s
  | SNum v => let '(a, s') := mk_num v s in (a, V, s')
  | SFun name args =>
      let '(cs, V', s') :=
        (fix parse_args (l : list Syn) (V : VarEnv) (s : State)
           : list addr * VarEnv * State :=
           match l with
           | [] => ([], V, s)
           | x :: l' =>
               let '(a, V1, s1) := parse_term x V s in
               let '(cs, V2, s2) := parse_args l' V1 s1 in
               (a :: cs, V2, s2)
           end) args V s in
      let '(a, s'') := mk_struct name cs s' in
      (a, V', s'')
  end.

Fixpoint parse_goal_list (l : list Syn) (V : VarEnv) (s : State)
  : list addr * VarEnv * State :=
  match l with
  | [] => ([], V, s)
  | x :: l' =>
      let '(a, V1, s1) := parse_term x V s in
      let '(cs, V2, s2) := parse_goal_list l' V1 s1 in
      (a :: cs, V2, s2)
  end.

(** A clause [hd :- bd]. *)
Definition parse_clause (hd : Syn) (bd : list Syn) (s : State)
  : Clause * State :=
  let '(h, V, s1) := parse_term hd [] s in
  let '(b, _, s2) := parse_goal_list bd V s1 in
  (mkClause h b, s2).

Fixpoint parse_program (p : list (Syn * list Syn)) (kb : KB) (s : State)
  : KB * State :=
  match p with
  | [] => (kb, s)
  | (hd, bd) :: p' =>
      let '(cl, s1) := parse_clause hd bd s in
      parse_program p' (kb ++ [cl]) s1
  end.

Definition parse_query (q : list Syn) (s : State) : list addr * State :=
  let '(g, _, s1) := parse_goal_list q [] s in (g, s1).

Definition empty_state : State := mkState [] [] EmptyString 0.

(** Load a program and a query, then run the query as [main] does; without
    a query [main] runs the goal [true]. *)
Definition run (fmt_g : float → string) (fuel : nat)
    (p : list (Syn * list Syn)) (q : list Syn) : Res State :=
  let '(kb, s1) := parse_program p [] empty_state in
  let '(goals, s2) :=
    match q with
    | [] => let '(t, s) := mk_atom "true" s1 in ([t], s)
    | _ => parse_query q s1
    end in
  run_query fmt_g kb fuel goals s2.

(** * Vocabulary of the properties *)

(** [le_res r1 r2]: whatever [r1] returns, [r2] returns too.  This is how a
    run with more fuel relates to a run with less. *)
Definition le_res {A} (r1 r2 : Res A) : Prop :=
  ∀ x, r1 = Ret x → r2 = Ret x.

(** Unbinding the variables of [l], first to last: what [trail_unwind] does
    to the entries it pops. *)
Fixpoint undo (l : list addr) (h : list Term) : Res (list Term) :=
  match l with
  | [] => Ret h
  | v :: l' => h' ← unbind v h; undo l' h'
  end.

(** [extends s s1]: [s1] is [s] with more variables bound, each of them
    pushed on the trail, so that popping the new entries gives back the
    heap of [s]; nothing was printed or counted. *)
Definition extends (s s1 : State) : Prop :=
  ∃ l, g_trail s1 = l ++ g_trail s ∧ undo l (heap s1) = Ret (heap s) ∧
       out s1 = out s ∧ g_solution_count s1 = g_solution_count s.

(** [deref] stops on a node that is not a bound variable. *)
Definition unbound_node (t : Term) : Prop :=
  match t with
  | Var _ (Some _) _ _ => False
  | _ => True
  end.

(** A term is finite and fully ground when walking it, through bindings
    and into arguments, ends after finitely many nodes and meets no unbound
    variable: [groundb d h t] looks at most [d] nodes deep.  A variable
    bound to a compound that contains that variable is not ground in this
    sense, although it has no unbound variable inside (see
    [no_unbound_inside]). *)
Fixpoint groundb (d : nat) (h : list Term) (t : addr) : bool :=
  match d with
  | O => false
  | S d' =>
      match h !! t with
      | Some (Var _ (Some r) _ _) => groundb d' h r
      | Some (Var _ None _ _) => false
      | Some (Num _) => true
      | Some (Struc _ args) => forallb (groundb d' h) args
      | None => false
      end
  end.

Definition ground (h : list Term) (t : addr) : Prop :=
  ∃ d, groundb d h t = true.

(** The built-in table: the names and arities [builtin_call] tests for. *)
Definition in_builtin_table (nm : string) (ar : Z) : bool :=
  (ar =? 0) && String.eqb nm "true" ||
  (ar =? 0) && String.eqb nm "fail" ||
  (ar =? 0) && String.eqb nm "nl" ||
  (ar =? 1) && String.eqb nm "write" ||
  (ar =? 2) && String.eqb nm "=" ||
  (ar =? 2) && String.eqb nm "dif".

(** [only_allocates s s']: [s'] is [s] with fresh nodes appended to the
    heap and nothing else changed.  This is all [copy_term] does. *)
Definition only_allocates (s s' : State) : Prop :=
  heap s `prefix_of` heap s' ∧ g_trail s' = g_trail s ∧ out s' = out s ∧
  g_solution_count s' = g_solution_count s.

(** [out_grows s s']: the output of [s'] is the output of [s] followed by
    what was printed in between. *)
Definition out_grows (s s' : State) : Prop :=
  ∃ o, out s' = String.append (out s) o.

(** An unbound variable node. *)
Definition is_unbound_var (t : Term) : bool :=
  match t with
  | Var _ None _ _ => true
  | _ => false
  end.

(** [inside h t u]: the node [u] is met when the term [t] is walked
    through the bindings of variables and into the arguments of
    compounds. *)
Inductive inside (h : list Term) : addr → addr → Prop :=
| inside_here t : inside h t t
| inside_ref t id r nm an u :
    h !! t = Some (Var id (Some r) nm an) → inside h r u → inside h t u
| inside_arg t nm args a u :
    h !! t = Some (Struc nm args) → a ∈ args → inside h a u → inside h t u.

(** The condition in the words of the specification: no unbound variable
    anywhere inside the term.  It holds of every [ground] term, and also of
    a variable bound to a compound that contains that variable. *)
Definition no_unbound_inside (h : list Term) (t : addr) : Prop :=
  ∀ u node, inside h t u → h !! u = Some node → is_unbound_var node = false.

(** [evolves s s']: from [s] to [s'] nodes were allocated, unbound
    variables were bound and recorded on the trail, and solutions were
    counted: popping the new trail entries gives back the heap of [s] with
    the fresh nodes after it. *)
Definition evolves (s s' : State) : Prop :=
  ∃ l new, g_trail s' = l ++ g_trail s ∧
           undo l (heap s') = Ret (heap s ++ new) ∧
           g_solution_count s ≤ g_solution_count s'.

(** [restored s s']: [s'] has the trail of [s] and the heap of [s] with
    fresh nodes after it: no binding made in between is left. *)
Definition restored (s s' : State) : Prop :=
  g_trail s' = g_trail s ∧ (∃ new, heap s' = heap s ++ new) ∧
  g_solution_count s ≤ g_solution_count s'.

(** [prints_only s s']: nothing but the output differs. *)
Definition prints_only (s s' : State) : Prop :=
  heap s' = heap s ∧ g_trail s' = g_trail s ∧
  g_solution_count s' = g_solution_count s.

(** A node that is a variable, bound or not. *)
Definition is_var_at (h : list Term) (v : addr) : Prop :=
  ∃ id r nm an, h !! v = Some (Var id r nm an).

(** The name [map_get] gives the fresh variable it makes for [o]. *)
Definition fresh_name (o : Term) : string :=
  match o with
  | Var _ _ (Some nm) _ => nm
  | _ => "_"
  end.

(** [renames M M' s s']: [M'] is [M] with more variables mapped, each new
    image being a node allocated since [s] that is an unbound variable in
    [s']. *)
Definition renames (M M' : VMap) (s s' : State) : Prop :=
  (∀ o w, vmap_find M o = Some w → vmap_find M' o = Some w) ∧
  (∀ o w, vmap_find M' o = Some w →
          vmap_find M o = Some w ∨
          (vmap_find M o = None ∧ (length (heap s) ≤ w)%nat ∧
           ∃ nm an, heap s' !! w = Some (Var 0 None nm an))).

(** [is_copy d M h b e t c]: in the heap [h] the term [c] is the copy of
    the term [t] under the map [M], with the nodes allocated from [b] up to
    [e]: where [t] is a variable, [c] is its image in [M]; where [t] is a
    number, [c] is a node of that range holding the same number; where [t]
    is a compound, [c] is a node of that range holding a compound of the
    same name whose arguments are, one by one, the copies of the arguments
    of [t].  [d] bounds the depth of [t]. *)
Fixpoint is_copy (d : nat) (M : VMap) (h : list Term) (b e : nat)
    (t c : addr) : Prop :=
  match d with
  | O => False
  | S d' =>
      match h !! t with
      | Some (Var _ _ _ _) => vmap_find M t = Some c
      | Some (Num x) => (b ≤ c < e)%nat ∧ h !! c = Some (Num x)
      | Some (Struc nm args) =>
          (b ≤ c < e)%nat ∧
          ∃ cs, h !! c = Some (Struc nm cs) ∧
                Forall2 (is_copy d' M h b e) args cs
      | None => False
      end
  end.



(** [chains_end h]: from every node of [h], following variable bindings
    comes to an end, so [deref] returns on it with enough fuel. *)
Definition chains_end (h : list Term) : Prop :=
  ∀ t node, h !! t = Some node → ∃ d t', deref d h t = Ret t'.

(** [term_eqb d h a b]: under the bindings of [h] the terms [a] and [b]
    are the same term, compared [d] nodes deep: they dereference to one
    node, or to numbers that are [==], or to compounds of one name and
    arity whose arguments are pairwise the same. *)
Fixpoint term_eqb (d : nat) (h : list Term) (a b : addr) : bool :=
  match d with
  | O => false
  | S d' =>
      match deref d' h a, deref d' h b with
      | Ret a', Ret b' =>
          Nat.eqb a' b' ||
          match h !! a', h !! b' with
          | Some (Num x), Some (Num y) => PrimFloat.eqb x y
          | Some (Struc n1 l1), Some (Struc n2 l2) =>
              String.eqb n1 n2 && Nat.eqb (length l1) (length l2) &&
              forallb (λ p, term_eqb d' h p.1 p.2) (combine l1 l2)
          | _, _ => false
          end
      | _, _ => false
      end
  end.

(** [keeps h h1]: every node of [h] that is not an unbound variable is
    the same in [h1]. *)
Definition keeps (h h1 : list Term) : Prop :=
  ∀ t node, h !! t = Some node → is_unbound_var node = false →
            h1 !! t = Some node.

(** [shows fmt_g h t str]: with enough fuel [print_term] on [t] appends
    exactly [str] to the output, in every state whose heap is [h]. *)
Definition shows (fmt_g : float → string) (h : list Term) (t : addr)
    (str : string) : Prop :=
  ∃ N, ∀ n s, (N ≤ n)%nat → heap s = h →
              print_term fmt_g n t s = Ret (printf str s).

(** [list_cells h t xs u]: following bindings, [t] is a chain of list
    cells ['.'(x, rest)] with the elements [xs], ending in the node [u],
    which is no list cell. *)
Inductive list_cells (h : list Term) : addr → list addr → addr → Prop :=
| cells_end t u d :
    deref d h t = Ret u →
    (∀ x y, h !! u ≠ Some (Struc "." [x; y])) →
    list_cells h t [] u
| cells_cons t c d x y xs u :
    deref d h t = Ret c →
    h !! c = Some (Struc "." [x; y]) →
    list_cells h y xs u →
    list_cells h t (x :: xs) u.

(** What [print_list] writes between the brackets: the elements, a comma
    and a blank before each but the first, then what [tl] gives for the
    end of the chain. *)
Fixpoint list_text (first : bool) (strs : list string) (tl : bool → string)
  : string :=
  match strs with
  | [] => tl first
  | x :: r =>
      String.append (if first then EmptyString else ", ")
        (String.append x (list_text false r tl))
  end.

(** The end of a proper list writes nothing; any other end is written
    after a bar, and after a comma when elements came before it. *)
Definition proper_end (first : bool) : string := EmptyString.
Definition improper_end (ustr : string) (first : bool) : string :=
  String.append (if first then EmptyString else ", ")
    (String.append "| " ustr).

(** * Scenarios

    Heaps, knowledge bases and queries the properties are evaluated on,
    built the way the parser builds them. *)

(** The heap after parsing [f(A,B)] and [f(1,2)] in one query: nodes 0 and 1
    are [A] and [B], node 2 is [f(A,B)], nodes 3 and 4 are the numbers and
    node 5 is [f(1,2)]. *)
Definition roundtrip_state : State :=
  snd (parse_query [SFun "f" [SVar "A"; SVar "B"];
                    SFun "f" [SNum 1%float; SNum 2%float]] empty_state).

(** The heap after parsing the query [X = f(X)]: node 0 is [X], node 1 is
    [f(X)], node 2 is the goal. *)
Definition occurs_state : State :=
  snd (parse_query [SFun "=" [SVar "X"; SFun "f" [SVar "X"]]] empty_state).

(** The heap after parsing [f(1)], [g(1)], [f(X)] and [f(1,2)]: the four
    compounds are nodes 1, 3, 5 and 8; the trail already holds one entry,
    the variable node 9 ([Y], bound to node 0). *)
Definition mismatch_state : State :=
  let s := snd (parse_query [SFun "f" [SNum 1%float]; SFun "g" [SNum 1%float];
                             SFun "f" [SVar "X"];
                             SFun "f" [SNum 1%float; SNum 2%float];
                             SVar "Y"] empty_state) in
  trail_push 9 (bind_var 9 0 s).

(** One variable, bound and recorded on the trail. *)
Definition one_binding_state : State :=
  let s := snd (parse_query [SVar "X"; SAtom "a"] empty_state) in
  trail_push 0 (bind_var 0 1 s).

(** Two variables, both bound to the atom and recorded on the trail, [X]
    first. *)
Definition two_binding_state : State :=
  let s := snd (parse_query [SVar "X"; SVar "Y"; SAtom "a"] empty_state) in
  trail_push 1 (bind_var 1 2 (trail_push 0 (bind_var 0 2 s))).

(** Goals over shared arguments.  Nodes 1 and 3 are two copies of [f(1)],
    node 5 is [f(2)], node 6 is the unbound variable [X] and node 0 the
    number 1; nodes 7 and 8 are [f(1) = f(1)] and [dif(f(1), f(1))], nodes
    9 and 10 are [f(1) = f(2)] and [dif(f(1), f(2))], node 11 is
    [dif(X, 1)]. *)
Definition eq_dif_state : State :=
  let s := snd (parse_query [SFun "f" [SNum 1%float]; SFun "f" [SNum 1%float];
                             SFun "f" [SNum 2%float]; SVar "X"] empty_state) in
  let s := snd (mk_struct "=" [1; 3]%nat s) in
  let s := snd (mk_struct "dif" [1; 3]%nat s) in
  let s := snd (mk_struct "=" [1; 5]%nat s) in
  let s := snd (mk_struct "dif" [1; 5]%nat s) in
  snd (mk_struct "dif" [6; 0]%nat s).

(** Some formatting of numbers, for the scenarios that print none. *)
Definition fmt_none (x : float) : string := EmptyString.

(** The family program of the demo. *)
Definition family : list (Syn * list Syn) :=
  [ (SFun "parent" [SAtom "alice"; SAtom "bob"], []);
    (SFun "parent" [SAtom "bob"; SAtom "carol"], []);
    (SFun "parent" [SAtom "alice"; SAtom "dana"], []);
    (SFun "ancestor" [SVar "X"; SVar "Y"],
       [SFun "parent" [SVar "X"; SVar "Y"]]);
    (SFun "ancestor" [SVar "X"; SVar "Y"],
       [SFun "parent" [SVar "X"; SVar "Z"];
        SFun "ancestor" [SVar "Z"; SVar "Y"]]) ].

Definition family_kb : KB := fst (parse_program family [] empty_state).
Definition family_state : State := snd (parse_program family [] empty_state).

(** The query [ancestor(A, who)], parsed after the program. *)
Definition ancestor_query (who : string) : list addr * State :=
  parse_query [SFun "ancestor" [SVar "A"; SAtom who]] family_state.

(** The program [fail.] (a fact whose head is the atom [fail], node 0) and
    the query [fail] (node 1). *)
Definition shadowed_kb : KB :=
  fst (parse_program [(SAtom "fail", [])] [] empty_state).
Definition shadowed_state : State :=
  snd (parse_query [SAtom "fail"]
         (snd (parse_program [(SAtom "fail", [])] [] empty_state))).

(** The program [X.] (a clause whose head is the variable node 0) and the
    query [foo] (node 1). *)
Definition var_head_kb : KB :=
  fst (parse_program [(SVar "X", [])] [] empty_state).
Definition var_head_state : State :=
  snd (parse_query [SAtom "foo"]
         (snd (parse_program [(SVar "X", [])] [] empty_state))).

(** The program [p :- 3 .  p.] (the blank keeps the lexer from reading the
    full stop into the number) and the query [p]: the clause heads are
    nodes 0 and 2, the number is node 1, the query is node 3. *)
Definition number_goal_kb : KB :=
  fst (parse_program [(SAtom "p", [SNum 3%float]); (SAtom "p", [])] []
         empty_state).
Definition number_goal_state : State :=
  snd (parse_query [SAtom "p"]
         (snd (parse_program [(SAtom "p", [SNum 3%float]); (SAtom "p", [])] []
                 empty_state))).

(** The query [write(hello), fail] on its own: [hello] is node 0, the two
    goals are nodes 1 and 2. *)
Definition write_fail_query : list addr * State :=
  parse_query [SFun "write" [SAtom "hello"]; SAtom "fail"] empty_state.

(** A variable bound to an atom, through a second variable: node 0 is [X],
    bound to node 1 ([Y]), which is bound to node 2 (the atom [a]). *)
Definition chain_state : State :=
  let s := snd (parse_query [SVar "X"; SVar "Y"; SAtom "a"] empty_state) in
  bind_var 1 2 (bind_var 0 1 s).

(** [roundtrip_state] after [unify(f(A,B), f(1,2))]. *)
Definition roundtrip_bound_state : State :=
  trail_push 1 (bind_var 1 4 (trail_push 0 (bind_var 0 3 roundtrip_state))).

(** The query [X = a] on its own: [X] is node 0, [a] node 1, the goal
    node 2. *)
Definition bind_query : list addr * State :=
  parse_query [SFun "=" [SVar "X"; SAtom "a"]] empty_state.

(** The heap after parsing the query [p(X, _G, f(Y, X))]: [X] is node 0,
    the anonymous [_G] node 1, [Y] node 2, the goal node 4. *)
Definition vars_query : list addr * State :=
  parse_query [SFun "p" [SVar "X"; SVar "_G";
                         SFun "f" [SVar "Y"; SVar "X"]]] empty_state.

(** The query [grandparent(A, carol)] after the family program, which
    defines no [grandparent]: the goal is node 21. *)
Definition undefined_query : list addr * State :=
  parse_query [SFun "grandparent" [SVar "A"; SAtom "carol"]] family_state.

(** The goal [parent(A, carol)] and the head of the fact
    [parent(bob, carol)]: nodes 21 and 5 of the heap. *)
Definition match_query : list addr * State :=
  parse_query [SFun "parent" [SVar "A"; SAtom "carol"]] family_state.

(** The heap after parsing nothing but built by hand into the lists
    [[a, b]] (node 4) and [[a | T]] (node 7): nodes 0 and 1 are the atoms
    [a] and [b], node 2 the empty list, node 6 the variable [T]. *)
Definition lists_state : State :=
  let s := snd (parse_query [SAtom "a"; SAtom "b"; SAtom "[]"] empty_state) in
  let s := snd (mk_struct "." [1; 2]%nat s) in
  let s := snd (mk_struct "." [0; 3]%nat s) in
  let s := snd (parse_query [SAtom "a"; SVar "T"] s) in
  snd (mk_struct "." [5; 6]%nat s).

(** The heap after parsing the query
    [X = f(X), Y = f(Y), X = Y, dif(X, Y)]: nodes 0 and 3 are [X] and [Y],
    nodes 1 and 4 are [f(X)] and [f(Y)], the four goals are nodes 2, 5, 6
    and 7. *)
Definition cyclic_query : list addr * State :=
  parse_query [SFun "=" [SVar "X"; SFun "f" [SVar "X"]];
               SFun "=" [SVar "Y"; SFun "f" [SVar "Y"]];
               SFun "=" [SVar "X"; SVar "Y"];
               SFun "dif" [SVar "X"; SVar "Y"]] empty_state.

(** The state once the first two goals have run: [X] is bound to [f(X)]
    and [Y] to [f(Y)]. *)
Definition cyclic_state : State :=
  trail_push 3 (bind_var 3 4 (trail_push 0 (bind_var 0 1 cyclic_query.2))).

(** * Properties *)

(** ** Reasoning about [Res] *)

Lemma bind_Ret {A B} (r : Res A) (f : A → Res B) (y : B) :
  r ≫= f = Ret y → ∃ x, r = Ret x ∧ f x = Ret y.
Proof. destruct r; simpl; intros H; try discriminate. eauto. Qed.

Lemma le_res_refl {A} (r : Res A) : le_res r r.
Proof. intros x H; exact H. Qed.

Lemma le_res_bind {A B} (r1 r2 : Res A) (f1 f2 : A → Res B) :
  le_res r1 r2 → (∀ x, le_res (f1 x) (f2 x)) →
  le_res (r1 ≫= f1) (r2 ≫= f2).
Proof.
  intros Hr Hf y H. apply bind_Ret in H as (x & Hx & Hy).
  rewrite (Hr _ Hx). simpl. apply Hf, Hy.
Qed.

Lemma le_res_OutOfFuel {A} (r : Res A) : le_res OutOfFuel r.
Proof. intros x H; discriminate. Qed.

Create HintDb res.
#[local] Hint Resolve le_res_refl le_res_OutOfFuel : res.

(** Break a successful run into the successful runs of its steps. *)
Ltac inv_ret :=
  repeat match goal with
  | H : Ret _ = Ret _ |- _ => injection H as H; subst
  | H : (_, _) = (_, _) |- _ => injection H as H; subst
  | H : Fault = Ret _ |- _ => discriminate H
  | H : OutOfFuel = Ret _ |- _ => discriminate H
  | H : _ ≫= _ = Ret _ |- _ =>
      let x := fresh "x" in
      let Hx := fresh "Hx" in
      apply bind_Ret in H as (x & Hx & H)
  | H : context [let '(_, _) := ?p in _] |- _ => destruct p eqn:?
  end.

(** ** Fuel monotonicity *)

Lemma deref_mono n m h t : (n ≤ m)%nat → le_res (deref n h t) (deref m h t).
Proof.
  revert m t. induction n as [|n IH]; intros m t Hnm x; simpl.
  - destruct m; simpl; [tauto|].
    destruct (h !! t) as [[? [r|] ? ?| |]|]; simpl; try tauto; discriminate.
  - destruct m; [lia|]. simpl.
    destruct (h !! t) as [[? [r|] ? ?| |]|]; simpl; try tauto.
    apply IH; lia.
Qed.

Lemma unify_args_mono (u1 u2 : addr → addr → State → Res (bool * State)) :
  (∀ x y s, le_res (u1 x y s) (u2 x y s)) →
  ∀ l1 l2 s, le_res (unify_args u1 l1 l2 s) (unify_args u2 l1 l2 s).
Proof.
  intros Hu l1. induction l1 as [|x l1 IH]; intros [|y l2] s; simpl;
    auto with res.
  apply le_res_bind; [apply Hu|]. intros [[] s']; auto with res.
Qed.

Lemma unify_mono n m a b s :
  (n ≤ m)%nat → le_res (unify n a b s) (unify m a b s).
Proof.
  revert m a b s. induction n as [|n IH]; intros m a b s Hnm; simpl;
    auto with res.
  destruct m; [lia|]. simpl.
  apply le_res_bind; [apply deref_mono; lia|]. intros a'.
  apply le_res_bind; [apply deref_mono; lia|]. intros b'.
  destruct (Nat.eqb a' b'); auto with res.
  destruct (heap s !! a') as [[]|], (heap s !! b') as [[]|]; auto with res.
  destruct (negb _); auto with res. destruct (negb _); auto with res.
  apply unify_args_mono. intros; apply IH; lia.
Qed.

(** ** The trail undoes what unification binds *)

Lemma undo_app l1 l2 h : undo (l1 ++ l2) h = undo l1 h ≫= undo l2.
Proof.
  revert h. induction l1 as [|v l1 IH]; intros h; simpl; [reflexivity|].
  destruct (unbind v h); simpl; auto.
Qed.

Lemma unwind_loop_done mark tr h :
  Z.of_nat (length tr) ≤ mark → unwind_loop mark tr h = Ret (tr, h).
Proof.
  intros H.
  assert (E : (Z.of_nat (length tr) >? mark) = false)
    by (rewrite Z.gtb_ltb; apply Z.ltb_ge; lia).
  destruct tr; cbn [unwind_loop]; rewrite E; reflexivity.
Qed.

Lemma unwind_loop_app mark l tr h :
  mark ≤ Z.of_nat (length tr) →
  unwind_loop mark (l ++ tr) h = undo l h ≫= unwind_loop mark tr.
Proof.
  intros Hm. revert h. induction l as [|v l IH]; intros h; [reflexivity|].
  cbn [app unwind_loop undo].
  destruct (Z.gtb_spec (Z.of_nat (length (v :: l ++ tr))) mark) as [_|Hle].
  - destruct (unbind v h); simpl; auto.
  - simpl in Hle. rewrite length_app in Hle. lia.
Qed.

Lemma extends_refl s : extends s s.
Proof. exists []. auto. Qed.

Lemma extends_trans s1 s2 s3 : extends s1 s2 → extends s2 s3 → extends s1 s3.
Proof.
  intros (l1 & Ht1 & Hu1 & Ho1 & Hc1) (l2 & Ht2 & Hu2 & Ho2 & Hc2).
  exists (l2 ++ l1). rewrite Ht2, Ht1, undo_app, Hu2. simpl.
  rewrite app_assoc. repeat split; congruence.
Qed.

Lemma extends_unwind s s1 :
  extends s s1 → trail_unwind (trail_mark s) s1 = Ret s.
Proof.
  intros (l & Ht & Hu & Ho & Hc). unfold trail_unwind, trail_mark.
  rewrite Ht, unwind_loop_app, Hu by lia. simpl.
  rewrite unwind_loop_done by lia. simpl. destruct s; simpl in *. congruence.
Qed.

Lemma deref_Ret n h t t' :
  deref n h t = Ret t' → ∃ node, h !! t' = Some node ∧ unbound_node node.
Proof.
  revert t. induction n as [|n IH]; intros t; simpl;
    destruct (h !! t) as [[? [r|] ? ?| |]|] eqn:E; intros H;
    try discriminate; try (injection H as <-; eexists; split; [eassumption|exact I]).
  eapply IH; eassumption.
Qed.

Lemma bind_var_extends a b s id nm an :
  heap s !! a = Some (Var id None nm an) →
  extends s (trail_push a (bind_var a b s)).
Proof.
  intros Ha. exists [a]. unfold bind_var. rewrite Ha. simpl.
  assert (a < length (heap s))%nat by (eapply lookup_lt_Some; eassumption).
  unfold unbind. rewrite list_lookup_insert_eq by assumption. simpl.
  rewrite list_insert_insert_eq, list_insert_id by assumption. auto.
Qed.

Lemma unify_args_extends (u : addr → addr → State → Res (bool * State)) :
  (∀ x y s ok s1, u x y s = Ret (ok, s1) → extends s s1) →
  ∀ l1 l2 s ok s1, unify_args u l1 l2 s = Ret (ok, s1) → extends s s1.
Proof.
  intros Hu l1. induction l1 as [|x l1 IH]; intros [|y l2] s ok s1 H;
    simpl in H; inv_ret; auto using extends_refl.
  destruct x0 as [[] s']; inv_ret.
  - eapply extends_trans; [eapply Hu|eapply IH]; eassumption.
  - eapply Hu; eassumption.
Qed.

Lemma unify_extends n a b s ok s1 :
  unify n a b s = Ret (ok, s1) → extends s s1.
Proof.
  revert a b s ok s1. induction n as [|n IH]; intros a b s ok s1 H;
    simpl in H; [discriminate|].
  inv_ret. rename x into a', x0 into b'.
  destruct (Nat.eqb a' b'); inv_ret; [apply extends_refl|].
  apply deref_Ret in Hx as (ta & Ea & Ua).
  apply deref_Ret in Hx0 as (tb & Eb & Ub).
  rewrite Ea, Eb in H.
  destruct ta as [? [r|] ? ?| |]; [destruct Ua| | |].
  - inv_ret. eapply bind_var_extends; eassumption.
  - destruct tb as [? [r|] ? ?| |]; [destruct Ub| | |]; inv_ret;
      eauto using bind_var_extends, extends_refl.
  - destruct tb as [? [r|] ? ?| |]; [destruct Ub| | |]; inv_ret;
      eauto using bind_var_extends, extends_refl.
    destruct (negb _); inv_ret; [apply extends_refl|].
    destruct (negb _); inv_ret; [apply extends_refl|].
    eapply unify_args_extends; [|eassumption]. intros; eapply IH; eassumption.
Qed.

Lemma deref_stop n h t node :
  h !! t = Some node → unbound_node node → deref n h t = Ret t.
Proof.
  intros E U. destruct n; simpl; rewrite E;
    destruct node as [? [r|] ? ?| |]; simpl in U; tauto.
Qed.

Lemma deref_bound d h t id r nm an :
  h !! t = Some (Var id (Some r) nm an) → deref (S d) h t = deref d h r.
Proof. intros E. simpl. rewrite E. reflexivity. Qed.

Lemma unify_unwind n a b s ok s1 :
  unify n a b s = Ret (ok, s1) → trail_unwind (trail_mark s) s1 = Ret s.
Proof. intros H. eapply extends_unwind, unify_extends, H. Qed.

Lemma unify_S f a b s :
  unify (S f) a b s =
    a ← deref f (heap s) a;
    b ← deref f (heap s) b;
    if Nat.eqb a b then Ret (true, s)
    else
      match heap s !! a, heap s !! b with
      | Some (Var _ _ _ _), Some _ => Ret (true, trail_push a (bind_var a b s))
      | Some _, Some (Var _ _ _ _) => Ret (true, trail_push b (bind_var b a s))
      | Some (Num x), Some (Num y) => Ret (PrimFloat.eqb x y, s)
      | Some (Struc n1 l1), Some (Struc n2 l2) =>
          if negb (String.eqb n1 n2) then Ret (false, s)
          else if negb (arity l1 =? arity l2) then Ret (false, s)
          else unify_args (unify f) l1 l2 s
      | Some _, Some _ => Ret (false, s)
      | _, _ => Fault
      end.
Proof. reflexivity. Qed.

(** Two nodes with different contents are different nodes. *)
Lemma lookup_neq (h : list Term) a b ta tb :
  h !! a = Some ta → h !! b = Some tb → ta ≠ tb → Nat.eqb a b = false.
Proof.
  intros Ea Eb Hne. apply Nat.eqb_neq. intros ->. congruence.
Qed.

(** [unify] on an unbound variable and any other node binds the variable
    and pushes it, whatever the other node is. *)
Lemma unify_bind_left n s a b id nm an tb :
  heap s !! a = Some (Var id None nm an) →
  heap s !! b = Some tb → unbound_node tb → a ≠ b →
  unify (S n) a b s =
    Ret (true, mkState (<[a := Var id (Some b) nm an]> (heap s))
                 (a :: g_trail s) (out s) (g_solution_count s)).
Proof.
  intros Ea Eb Ub Hne. rewrite unify_S.
  rewrite (deref_stop _ _ _ _ Ea I), (deref_stop _ _ _ _ Eb Ub). simpl.
  apply Nat.eqb_neq in Hne. rewrite Hne, Ea, Eb.
  unfold trail_push, bind_var. rewrite Ea. reflexivity.
Qed.

(** ** Unify / undo round trip *)

(** C2: for [f(A,B)] with [A], [B] distinct unbound variables and
    [f(x,y)] with [x], [y] numbers (the claim's [f(1,2)]), [unify] returns
    true, binds [A] to the first number and [B] to the second and pushes
    both on the trail; unwinding to the mark taken before the call gives
    back the state before the call, where [A] and [B] are unbound and
    [deref A] is [A] itself. *)
Theorem unify_undo_round_trip (n m : nat) (s : State) (f : string)
    (fa fb A B n1 n2 : addr) (x y : float)
    (idA idB : Z) (nmA nmB : option string) (anA anB : bool) :
  heap s !! fa = Some (Struc f [A; B]) →
  heap s !! fb = Some (Struc f [n1; n2]) →
  heap s !! A = Some (Var idA None nmA anA) →
  heap s !! B = Some (Var idB None nmB anB) →
  A ≠ B →
  heap s !! n1 = Some (Num x) →
  heap s !! n2 = Some (Num y) →
  let mark := trail_mark s in
  ∃ s1,
    unify (S (S n)) fa fb s = Ret (true, s1) ∧
    heap s1 !! A = Some (Var idA (Some n1) nmA anA) ∧
    heap s1 !! B = Some (Var idB (Some n2) nmB anB) ∧
    g_trail s1 = B :: A :: g_trail s ∧
    ∃ s2,
      trail_unwind mark s1 = Ret s2 ∧
      heap s2 !! A = Some (Var idA None nmA anA) ∧
      heap s2 !! B = Some (Var idB None nmB anB) ∧
      g_trail s2 = g_trail s ∧
      deref m (heap s2) A = Ret A.
Proof.
  intros Efa Efb EA EB HAB En1 En2 mark.
  assert (HA1 : A ≠ n1) by (intros ->; congruence).
  assert (HB2 : B ≠ n2) by (intros ->; congruence).
  assert (HA2 : A ≠ n2) by (intros ->; congruence).
  assert (LA : (A < length (heap s))%nat) by (eapply lookup_lt_Some; eauto).
  assert (LB : (B < length (heap s))%nat) by (eapply lookup_lt_Some; eauto).
  set (s' := mkState (<[A := Var idA (Some n1) nmA anA]> (heap s))
                     (A :: g_trail s) (out s) (g_solution_count s)).
  set (s1 := mkState (<[B := Var idB (Some n2) nmB anB]> (heap s'))
                     (B :: g_trail s') (out s') (g_solution_count s')).
  assert (Hu : unify (S (S n)) fa fb s = Ret (true, s1)).
  { rewrite unify_S.
    rewrite (deref_stop _ _ _ _ Efa I), (deref_stop _ _ _ _ Efb I).
    cbn [mbind Res_bind].
    rewrite (lookup_neq _ _ _ _ _ Efa Efb) by congruence.
    rewrite Efa, Efb, String.eqb_refl. cbn [negb arity length].
    rewrite Z.eqb_refl. cbn [negb unify_args].
    rewrite (unify_bind_left n s A n1 idA nmA anA (Num x))
      by (try exact I; assumption).
    cbn [mbind Res_bind]. fold s'.
    rewrite (unify_bind_left n s' B n2 idB nmB anB (Num y));
      [reflexivity| | |exact I|assumption].
    - subst s'; simpl. rewrite list_lookup_insert_ne by auto. assumption.
    - subst s'; simpl. rewrite list_lookup_insert_ne by auto. assumption. }
  exists s1. split; [exact Hu|]. repeat split.
  - subst s1 s'; simpl.
    rewrite list_lookup_insert_ne, list_lookup_insert_eq by auto. reflexivity.
  - subst s1 s'; simpl.
    rewrite list_lookup_insert_eq by (rewrite length_insert; auto). reflexivity.
  - exists s. split; [eapply unify_unwind; exact Hu|].
    repeat split; auto. eapply deref_stop; [exact EA|exact I].
Qed.

Lemma unify_undo_round_trip_witness :
  ∃ s1,
    unify 2 2 5 roundtrip_state = Ret (true, s1) ∧
    heap s1 !! 0%nat = Some (Var 0 (Some 3%nat) (Some "A"%string) false) ∧
    heap s1 !! 1%nat = Some (Var 0 (Some 4%nat) (Some "B"%string) false) ∧
    g_trail s1 = [1%nat; 0%nat] ∧
    ∃ s2,
      trail_unwind 0 s1 = Ret s2 ∧
      heap s2 !! 0%nat = Some (Var 0 None (Some "A"%string) false) ∧
      heap s2 !! 1%nat = Some (Var 0 None (Some "B"%string) false) ∧
      g_trail s2 = [] ∧
      deref 0 (heap s2) 0 = Ret 0%nat.
Proof.
  apply (unify_undo_round_trip 0 0 roundtrip_state "f" 2 5 0 1 3 4
           1%float 2%float 0 0 (Some "A"%string) (Some "B"%string) false false);
    try reflexivity.
  discriminate.
Defined.

(** ** No occurs-check *)

(** C8: for an unbound variable [X] and a compound [f(X)] that contains
    it, [unify X f(X)] returns true, binds [X] to the compound and pushes
    [X] on the trail; the compound still has [X] as its argument, so the
    term graph is now cyclic. *)
Theorem unify_no_occurs_check (n : nat) (s : State) (f : string)
    (X F : addr) (id : Z) (nm : option string) (an : bool) :
  heap s !! X = Some (Var id None nm an) →
  heap s !! F = Some (Struc f [X]) →
  ∃ s1,
    unify (S n) X F s = Ret (true, s1) ∧
    heap s1 !! X = Some (Var id (Some F) nm an) ∧
    heap s1 !! F = Some (Struc f [X]) ∧
    g_trail s1 = X :: g_trail s.
Proof.
  intros EX EF.
  assert (HXF : X ≠ F) by (intros ->; congruence).
  assert (LX : (X < length (heap s))%nat) by (eapply lookup_lt_Some; eauto).
  eexists. split; [eapply unify_bind_left; eauto; exact I|]. simpl.
  rewrite list_lookup_insert_eq, list_lookup_insert_ne by auto. auto.
Qed.

Lemma unify_no_occurs_check_witness :
  ∃ s1,
    unify 1 0 1 occurs_state = Ret (true, s1) ∧
    heap s1 !! 0%nat = Some (Var 0 (Some 1%nat) (Some "X"%string) false) ∧
    heap s1 !! 1%nat = Some (Struc "f" [0%nat]) ∧
    g_trail s1 = [0%nat].
Proof.
  apply (unify_no_occurs_check 0 occurs_state "f" 0 1 0 (Some "X"%string) false);
    reflexivity.
Defined.

(** ** [unify] never pops the trail *)

(** C7: when [unify] returns, with either answer, the trail is the trail
    before the call with zero or more entries pushed on top: its length has
    not decreased and every entry that was there is still there, in place.
    [unify(f(_), g(_))] and the arity-mismatched [unify(f(_), f(_,_))]
    return false and leave the whole state, trail included, as it was. *)
Theorem unify_never_pops :
  (∀ n a b s ok s1,
     unify n a b s = Ret (ok, s1) →
     ∃ l, g_trail s1 = l ++ g_trail s ∧
          (length (g_trail s) ≤ length (g_trail s1))%nat) ∧
  (∀ n s a b x y,
     heap s !! a = Some (Struc "f" [x]) →
     heap s !! b = Some (Struc "g" [y]) →
     unify (S n) a b s = Ret (false, s)) ∧
  (∀ n s a b x y z,
     heap s !! a = Some (Struc "f" [x]) →
     heap s !! b = Some (Struc "f" [y; z]) →
     unify (S n) a b s = Ret (false, s)).
Proof.
  split; [|split].
  - intros n a b s ok s1 H. apply unify_extends in H as (l & Ht & _).
    exists l. split; [exact Ht|]. rewrite Ht, length_app. lia.
  - intros n s a b x y Ea Eb. rewrite unify_S.
    rewrite (deref_stop _ _ _ _ Ea I), (deref_stop _ _ _ _ Eb I).
    cbn [mbind Res_bind].
    rewrite (lookup_neq _ _ _ _ _ Ea Eb) by congruence.
    rewrite Ea, Eb. reflexivity.
  - intros n s a b x y z Ea Eb. rewrite unify_S.
    rewrite (deref_stop _ _ _ _ Ea I), (deref_stop _ _ _ _ Eb I).
    cbn [mbind Res_bind].
    rewrite (lookup_neq _ _ _ _ _ Ea Eb) by congruence.
    rewrite Ea, Eb. reflexivity.
Qed.

Lemma unify_never_pops_witness :
  (∃ l, g_trail mismatch_state = l ++ g_trail mismatch_state ∧
        (length (g_trail mismatch_state) ≤ length (g_trail mismatch_state))%nat) ∧
  unify 1 1 3 mismatch_state = Ret (false, mismatch_state) ∧
  unify 1 5 8 mismatch_state = Ret (false, mismatch_state) ∧
  g_trail mismatch_state = [9%nat].
Proof.
  destruct unify_never_pops as (H1 & H2 & H3).
  split; [|split; [|split]].
  - apply (H1 1%nat 1%nat 3%nat mismatch_state false mismatch_state).
    apply (H2 0%nat mismatch_state 1%nat 3%nat 0%nat 2%nat); reflexivity.
  - apply (H2 0%nat mismatch_state 1%nat 3%nat 0%nat 2%nat); reflexivity.
  - apply (H3 0%nat mismatch_state 5%nat 8%nat 4%nat 6%nat 7%nat); reflexivity.
  - reflexivity.
Defined.

(** A failing [unify] leaves the bindings of the arguments it had already
    unified: [unify(h(X,1), h(2,3))] returns false with [X] bound to [2] and
    pushed on the trail. *)
Example unify_partial_bindings_stay :
  let s := snd (parse_query [SFun "h" [SVar "X"; SNum 1%float];
                             SFun "h" [SNum 2%float; SNum 3%float]]
                  empty_state) in
  ∃ s1, unify 2 2 5 s = Ret (false, s1) ∧ g_trail s1 = [0%nat] ∧
        heap s1 !! 0%nat = Some (Var 0 (Some 3%nat) (Some "X"%string) false).
Proof. eexists. repeat split. Qed.

(** ** The contract of [trail_unwind] *)

Lemma unwind_loop_again m m' tr h tr1 h1 :
  unwind_loop m tr h = Ret (tr1, h1) → m' ≤ m →
  unwind_loop m' tr1 h1 = unwind_loop m' tr h.
Proof.
  intros H Hm. revert h H. induction tr as [|v tr IH]; intros h H.
  - cbn [unwind_loop] in H. destruct (Z.of_nat (length []) >? m); inv_ret.
    reflexivity.
  - cbn [unwind_loop] in H |- *.
    destruct (Z.gtb_spec (Z.of_nat (length (v :: tr))) m) as [Hgt|Hle].
    + destruct (Z.gtb_spec (Z.of_nat (length (v :: tr))) m') as [_|?]; [|lia].
      inv_ret. rewrite Hx. cbn [mbind Res_bind]. apply IH, H.
    + inv_ret. reflexivity.
Qed.

(** C4, as the code has it: [trail_unwind] has no check of its argument.
    With a checkpoint equal to or greater than the trail length it returns
    normally and changes nothing.  Unwinding again after an unwind is
    allowed: to a checkpoint that is the same or smaller it gives what
    unwinding to that checkpoint directly gives, and to the same checkpoint
    it changes nothing. *)
Theorem trail_unwind_contract :
  (∀ mark s, trail_mark s ≤ mark → trail_unwind mark s = Ret s) ∧
  (∀ m m' s s1,
     trail_unwind m s = Ret s1 → m' ≤ m →
     trail_unwind m' s1 = trail_unwind m' s) ∧
  (∀ m s s1, trail_unwind m s = Ret s1 → trail_unwind m s1 = Ret s1).
Proof.
  assert (Hagain : ∀ m m' s s1,
            trail_unwind m s = Ret s1 → m' ≤ m →
            trail_unwind m' s1 = trail_unwind m' s).
  { intros m m' s s1 H Hm. unfold trail_unwind in *. inv_ret. simpl.
    erewrite unwind_loop_again by eassumption. reflexivity. }
  split; [|split].
  - intros mark s H. unfold trail_unwind, trail_mark in *.
    rewrite unwind_loop_done by assumption. destruct s; reflexivity.
  - exact Hagain.
  - intros m s s1 H. rewrite (Hagain m m s s1 H) by lia. exact H.
Qed.

Lemma trail_unwind_contract_witness :
  trail_unwind 5 two_binding_state = Ret two_binding_state ∧
  (∃ s1, trail_unwind 1 two_binding_state = Ret s1 ∧
         g_trail s1 = [0%nat] ∧
         trail_unwind 0 s1 = trail_unwind 0 two_binding_state ∧
         trail_unwind 1 s1 = Ret s1).
Proof.
  destruct trail_unwind_contract as (H1 & H2 & H3).
  split.
  - apply (H1 5 two_binding_state). vm_compute. discriminate.
  - eexists. split; [reflexivity|]. split; [reflexivity|]. split.
    + apply (H2 1 0 two_binding_state); [reflexivity|lia].
    + apply (H3 1 two_binding_state). reflexivity.
Defined.

(** C4 as stated fails: the trail of [one_binding_state] has length 1, and
    unwinding it to checkpoint 2 returns normally, with the state as it
    was. *)
Lemma trail_unwind_past_length_returns :
  trail_mark one_binding_state < 2 ∧
  trail_unwind 2 one_binding_state = Ret one_binding_state.
Proof. split; reflexivity. Qed.

(** ** [=] and [dif] *)

Lemma forallb_impl {A} (p q : A → bool) l :
  (∀ x, p x = true → q x = true) → forallb p l = true → forallb q l = true.
Proof.
  intros Hpq. induction l as [|x l IH]; simpl; [auto|].
  rewrite !andb_true_iff. intros [? ?]; auto.
Qed.

Lemma groundb_mono d d' h t :
  (d ≤ d')%nat → groundb d h t = true → groundb d' h t = true.
Proof.
  revert d' t. induction d as [|d IH]; intros d' t Hd; simpl; [discriminate|].
  destruct d'; [lia|]. simpl.
  destruct (h !! t) as [[? [r|] ? ?| |]|]; auto.
  - apply IH; lia.
  - apply forallb_impl. intros x. apply IH; lia.
Qed.

(** Dereferencing a ground term reaches a number or a compound. *)
Lemma deref_ground d h t :
  groundb d h t = true →
  ∃ t', deref d h t = Ret t' ∧ groundb d h t' = true ∧
        ((∃ x, h !! t' = Some (Num x)) ∨
         (∃ nm args, h !! t' = Some (Struc nm args))).
Proof.
  revert t. induction d as [|d IH]; intros t; simpl; [discriminate|].
  destruct (h !! t) as [[? [r|] ? ?| |]|] eqn:E; try discriminate; intros G.
  - destruct (IH _ G) as (t' & Hd & Hg & Hk). exists t'. split; [exact Hd|].
    split; [|exact Hk]. apply (groundb_mono d (S d)); [lia|exact Hg].
  - exists t. rewrite E. eauto.
  - exists t. rewrite E. eauto 6.
Qed.

Lemma unify_args_ground (u : addr → addr → State → Res (bool * State))
    (p : addr → bool) s :
  (∀ x y, p x = true → p y = true → ∃ ok, u x y s = Ret (ok, s)) →
  ∀ l1 l2, length l1 = length l2 →
    forallb p l1 = true → forallb p l2 = true →
    ∃ ok, unify_args u l1 l2 s = Ret (ok, s).
Proof.
  intros Hu l1. induction l1 as [|x l1 IH]; intros [|y l2] Hl; simpl in *;
    try discriminate; eauto.
  rewrite !andb_true_iff. intros [Hx H1] [Hy H2].
  destruct (Hu x y Hx Hy) as ([] & ->); simpl; eauto.
Qed.

(** Unifying two ground terms returns and changes nothing. *)
Lemma unify_ground d a b s :
  groundb d (heap s) a = true → groundb d (heap s) b = true →
  ∃ ok, unify (S d) a b s = Ret (ok, s).
Proof.
  revert a b. induction d as [|d IH]; intros a b Ga Gb; [discriminate|].
  rewrite unify_S.
  destruct (deref_ground _ _ _ Ga) as (a' & -> & Ga' & Ka).
  destruct (deref_ground _ _ _ Gb) as (b' & -> & Gb' & Kb).
  cbn [mbind Res_bind]. destruct (Nat.eqb a' b'); [eauto|].
  simpl in Ga', Gb'.
  destruct Ka as [(x & Ea)|(n1 & l1 & Ea)], Kb as [(y & Eb)|(n2 & l2 & Eb)];
    rewrite Ea, Eb in *; eauto.
  destruct (negb (String.eqb n1 n2)); [eauto|].
  destruct (Z.eqb_spec (arity l1) (arity l2)) as [Har|]; simpl; [|eauto].
  apply (unify_args_ground _ (groundb d (heap s))); auto.
  unfold arity in Har. lia.
Qed.

Lemma unify_ground_fuel a b s :
  ground (heap s) a → ground (heap s) b →
  ∃ N ok, ∀ n, (N ≤ n)%nat → unify n a b s = Ret (ok, s).
Proof.
  intros (d1 & G1) (d2 & G2).
  destruct (unify_ground (Nat.max d1 d2) a b s) as (ok & H).
  - eapply groundb_mono; [|exact G1]. lia.
  - eapply groundb_mono; [|exact G2]. lia.
  - exists (S (Nat.max d1 d2)), ok. intros n Hn.
    eapply unify_mono; eassumption.
Qed.

Lemma is_atom_struc n h t nm args name ar :
  h !! t = Some (Struc nm args) →
  is_atom n h t name ar = Ret ((arity args =? ar) && String.eqb nm name).
Proof.
  intros E. unfold is_atom. rewrite (deref_stop _ _ _ _ E I). simpl.
  rewrite E. reflexivity.
Qed.

Lemma deref_idem n h t t' : deref n h t = Ret t' → deref n h t' = Ret t'.
Proof.
  intros H. apply deref_Ret in H as (node & E & U). eapply deref_stop; eauto.
Qed.

Lemma arg_struc (h : list Term) t nm args i x :
  h !! t = Some (Struc nm args) → args !! i = Some x → arg h t i = Ret x.
Proof. intros E Ei. unfold arg. rewrite E, Ei. reflexivity. Qed.

Section Builtins.

Variable fmt_g : float → string.

Lemma builtin_call_eq n g g' a b s :
  deref n (heap s) g = Ret g' →
  heap s !! g' = Some (Struc "=" [a; b]) →
  builtin_call fmt_g n g s =
    '(ok, s1) ← unify n a b s;
    if ok : bool then Ret (1, s1)
    else s2 ← trail_unwind (trail_mark s) s1; Ret (0, s2).
Proof.
  intros Hd E. unfold builtin_call. rewrite Hd. cbn [mbind Res_bind].
  rewrite !(is_atom_struc _ _ _ _ _ _ _ E). unfold arity. cbn.
  rewrite (arg_struc _ _ _ _ 0%nat a E), (arg_struc _ _ _ _ 1%nat b E)
    by reflexivity.
  reflexivity.
Qed.

Lemma builtin_call_dif n g g' a b s :
  deref n (heap s) g = Ret g' →
  heap s !! g' = Some (Struc "dif" [a; b]) →
  builtin_call fmt_g n g s =
    '(ok, s1) ← unify n a b s;
    s2 ← trail_unwind (trail_mark s) s1;
    Ret (if ok : bool then 0 else 1, s2).
Proof.
  intros Hd E. unfold builtin_call. rewrite Hd. cbn [mbind Res_bind].
  rewrite !(is_atom_struc _ _ _ _ _ _ _ E). unfold arity. cbn.
  rewrite (arg_struc _ _ _ _ 0%nat a E), (arg_struc _ _ _ _ 1%nat b E)
    by reflexivity.
  reflexivity.
Qed.

End Builtins.

Lemma is_atom_2 n h g name :
  is_atom n h g name 2 = Ret true →
  ∃ g' a b, deref n h g = Ret g' ∧ h !! g' = Some (Struc name [a; b]).
Proof.
  unfold is_atom. intros H. inv_ret. rename x into g'.
  destruct (h !! g') as [[| |nm args]|] eqn:E; inv_ret; try discriminate.
  apply andb_true_iff in H as [Har Hnm].
  apply String.eqb_eq in Hnm as ->. apply Z.eqb_eq in Har. unfold arity in Har.
  destruct args as [|a [|b [|c args]]]; simpl in Har; try lia. eauto.
Qed.

(** C6, for finite terms: for [a] and [b] finite and fully ground
    ([ground]: walking them ends and meets no unbound variable), with
    enough fuel the built-ins [=(a,b)] and [dif(a,b)] both return, exactly
    one of them with 1 (success) and the other with 0, and neither changes
    the state.  For any arguments, ground or not, when [dif] returns the
    state is the state before the call: the trail has its old length and no
    binding is left; and [dif] returns whenever the trial unification does,
    with the opposite answer. *)
Theorem eq_dif_complementary (fmt_g : float → string) :
  (∀ s ge gd a b,
     heap s !! ge = Some (Struc "=" [a; b]) →
     heap s !! gd = Some (Struc "dif" [a; b]) →
     ground (heap s) a → ground (heap s) b →
     ∃ N (ok : bool), ∀ n, (N ≤ n)%nat →
       builtin_call fmt_g n ge s = Ret (if ok then 1 else 0, s) ∧
       builtin_call fmt_g n gd s = Ret (if ok then 0 else 1, s)) ∧
  (∀ n g s r s1,
     is_atom n (heap s) g "dif" 2 = Ret true →
     builtin_call fmt_g n g s = Ret (r, s1) →
     s1 = s ∧ (r = 0 ∨ r = 1)) ∧
  (∀ n gd s a b ok s1,
     heap s !! gd = Some (Struc "dif" [a; b]) →
     unify n a b s = Ret (ok, s1) →
     builtin_call fmt_g n gd s = Ret (if ok : bool then 0 else 1, s)).
Proof.
  split; [|split].
  - intros s ge gd a b Ee Ed Ga Gb.
    destruct (unify_ground_fuel a b s Ga Gb) as (N & ok & HN).
    exists N, ok. intros n Hn.
    rewrite (builtin_call_eq fmt_g n ge ge a b s),
            (builtin_call_dif fmt_g n gd gd a b s)
      by (assumption || (eapply deref_stop; [eassumption|exact I])).
    rewrite (HN n Hn). cbn [mbind Res_bind].
    rewrite (unify_unwind _ _ _ _ _ _ (HN n Hn)). destruct ok; split; reflexivity.
  - intros n g s r s1 Hat H.
    apply is_atom_2 in Hat as (g' & a & b & Hd & E).
    rewrite (builtin_call_dif fmt_g n g g' a b s Hd E) in H. inv_ret.
    rewrite (unify_unwind _ _ _ _ _ _ Hx) in Hx0. inv_ret.
    split; [reflexivity|]. destruct b0; auto.
  - intros n gd s a b ok s1 E Hu.
    rewrite (builtin_call_dif fmt_g n gd gd a b s)
      by (assumption || (eapply deref_stop; [eassumption|exact I])).
    rewrite Hu. cbn [mbind Res_bind].
    rewrite (unify_unwind _ _ _ _ _ _ Hu). reflexivity.
Qed.

Lemma eq_dif_complementary_witness :
  (∃ N (ok : bool), ∀ n, (N ≤ n)%nat →
     builtin_call fmt_none n 7 eq_dif_state
       = Ret (if ok then 1 else 0, eq_dif_state) ∧
     builtin_call fmt_none n 8 eq_dif_state
       = Ret (if ok then 0 else 1, eq_dif_state)) ∧
  (∃ N (ok : bool), ∀ n, (N ≤ n)%nat →
     builtin_call fmt_none n 9 eq_dif_state
       = Ret (if ok then 1 else 0, eq_dif_state) ∧
     builtin_call fmt_none n 10 eq_dif_state
       = Ret (if ok then 0 else 1, eq_dif_state)) ∧
  (eq_dif_state = eq_dif_state ∧ (0 = 0 ∨ 0 = 1)) ∧
  builtin_call fmt_none 2 11 eq_dif_state = Ret (0, eq_dif_state).
Proof.
  destruct (eq_dif_complementary fmt_none) as (H1 & H2 & H3).
  split; [|split; [|split]].
  - apply (H1 eq_dif_state 7%nat 8%nat 1%nat 3%nat);
      try reflexivity; exists 3%nat; reflexivity.
  - apply (H1 eq_dif_state 9%nat 10%nat 1%nat 5%nat);
      try reflexivity; exists 3%nat; reflexivity.
  - apply (H2 3%nat 11%nat eq_dif_state 0 eq_dif_state); reflexivity.
  - eapply (H3 2%nat 11%nat eq_dif_state 6%nat 0%nat true); reflexivity.
Defined.

(** ** More fuel never changes what a run returns *)

Lemma copy_terms_mono (c1 c2 : addr → VMap → State → Res (addr * VMap * State)) :
  (∀ t M s, le_res (c1 t M s) (c2 t M s)) →
  ∀ l M s, le_res (copy_terms c1 l M s) (copy_terms c2 l M s).
Proof.
  intros Hc l. induction l as [|t l IH]; intros M s; simpl; auto with res.
  apply le_res_bind; [apply Hc|]. intros [[c M1] s1].
  apply le_res_bind; [apply IH|]. intros [[cs M2] s2]. auto with res.
Qed.

Lemma copy_term_mono n m t M s :
  (n ≤ m)%nat → le_res (copy_term n t M s) (copy_term m t M s).
Proof.
  revert m t M s. induction n as [|n IH]; intros m t M s Hnm; simpl;
    auto with res.
  destruct m; [lia|]. simpl.
  destruct (heap s !! t) as [[]|]; auto with res.
  apply le_res_bind; [|intros [[cs M'] s']; auto with res].
  apply copy_terms_mono. intros; apply IH; lia.
Qed.

Lemma is_atom_mono n m h t name ar :
  (n ≤ m)%nat → le_res (is_atom n h t name ar) (is_atom m h t name ar).
Proof.
  intros Hnm. unfold is_atom.
  apply le_res_bind; [apply deref_mono; lia|]. auto with res.
Qed.

Lemma collect_args_mono (c1 c2 : addr → VSet → Res VSet) :
  (∀ t S, le_res (c1 t S) (c2 t S)) →
  ∀ l S, le_res (collect_args c1 l S) (collect_args c2 l S).
Proof.
  intros Hc l. induction l as [|t l IH]; intros S; simpl; auto with res.
  apply le_res_bind; [apply Hc|]. intros S1. apply IH.
Qed.

Lemma collect_vars_mono n m h t S :
  (n ≤ m)%nat → le_res (collect_vars n h t S) (collect_vars m h t S).
Proof.
  revert m t S. induction n as [|n IH]; intros m t S Hnm; simpl;
    auto with res.
  destruct m; [lia|]. simpl.
  apply le_res_bind; [apply deref_mono; lia|]. intros t'.
  destruct (h !! t') as [[]|]; auto with res.
  apply collect_args_mono. intros; apply IH; lia.
Qed.

Lemma collect_query_mono n m h l S :
  (n ≤ m)%nat →
  le_res (collect_args (collect_vars n h) l S)
         (collect_args (collect_vars m h) l S).
Proof.
  intros Hnm. apply collect_args_mono. intros; apply collect_vars_mono; lia.
Qed.

Section EngineFuel.

Variable fmt_g : float → string.
Variable g_kb : KB.

Lemma print_args_mono (p1 p2 : addr → State → Res State) :
  (∀ t s, le_res (p1 t s) (p2 t s)) →
  ∀ l first s, le_res (print_args p1 first l s) (print_args p2 first l s).
Proof.
  intros Hp l. induction l as [|t l IH]; intros first s; simpl; auto with res.
  apply le_res_bind; [apply Hp|]. intros s1. apply IH.
Qed.

Lemma print_list_loop_mono (p1 p2 : addr → State → Res State) n m :
  (∀ t s, le_res (p1 t s) (p2 t s)) → (n ≤ m)%nat →
  ∀ first t s,
    le_res (print_list_loop p1 n first t s) (print_list_loop p2 m first t s).
Proof.
  intros Hp. revert m. induction n as [|n IH]; intros m Hnm first t s; simpl;
    auto with res.
  destruct m; [lia|]. simpl.
  apply le_res_bind; [apply deref_mono; lia|]. intros t'.
  destruct (heap s !! t') as [[]|]; auto with res.
  destruct (_ && _); auto with res. destruct (_ && _); auto with res.
  apply le_res_bind; [auto with res|]. intros x.
  apply le_res_bind; [apply Hp|]. intros s1.
  apply le_res_bind; [auto with res|]. intros y. apply IH; lia.
Qed.

Lemma is_list_like_mono n m h t :
  (n ≤ m)%nat → le_res (is_list_like n h t) (is_list_like m h t).
Proof.
  intros Hnm. unfold is_list_like.
  apply le_res_bind; [apply deref_mono; lia|]. auto with res.
Qed.

Lemma print_term_mono n m t s :
  (n ≤ m)%nat → le_res (print_term fmt_g n t s) (print_term fmt_g m t s).
Proof.
  revert m t s. induction n as [|n IH]; intros m t s Hnm; simpl;
    auto with res.
  destruct m; [lia|]. simpl.
  apply le_res_bind; [apply deref_mono; lia|]. intros t'.
  destruct (heap s !! t') as [[]|]; auto with res.
  apply le_res_bind; [apply is_list_like_mono; lia|]. intros [].
  - unfold print_list. apply le_res_bind; [|auto with res].
    apply print_list_loop_mono; [|lia]. intros; apply IH; lia.
  - destruct (_ >? _); auto with res.
    apply le_res_bind; [|auto with res].
    apply print_args_mono. intros; apply IH; lia.
Qed.

Lemma builtin_call_mono n m G s :
  (n ≤ m)%nat →
  le_res (builtin_call fmt_g n G s) (builtin_call fmt_g m G s).
Proof.
  intros Hnm. unfold builtin_call.
  apply le_res_bind; [apply deref_mono; lia|]. intros G'.
  repeat (apply le_res_bind; [apply is_atom_mono; lia|]; intros [];
          auto with res).
  - apply le_res_bind; [auto with res|]. intros a0.
    apply le_res_bind; [apply print_term_mono; lia|]. auto with res.
  - apply le_res_bind; [auto with res|]. intros a0.
    apply le_res_bind; [auto with res|]. intros a1.
    apply le_res_bind; [apply unify_mono; lia|]. auto with res.
  - apply le_res_bind; [auto with res|]. intros a0.
    apply le_res_bind; [auto with res|]. intros a1.
    apply le_res_bind; [apply unify_mono; lia|]. auto with res.
Qed.

Lemma print_bindings_mono n m S :
  (n ≤ m)%nat →
  ∀ first s,
    le_res (print_bindings fmt_g n first S s) (print_bindings fmt_g m first S s).
Proof.
  intros Hnm. induction S as [|v S IH]; intros first s; simpl; auto with res.
  apply le_res_bind; [auto with res|]. intros nm.
  apply le_res_bind; [apply print_term_mono; lia|]. intros s1. apply IH.
Qed.

Lemma print_solution_mono n m S s :
  (n ≤ m)%nat →
  le_res (print_solution fmt_g n S s) (print_solution fmt_g m S s).
Proof.
  intros Hnm. destruct S; simpl; auto with res.
  apply le_res_bind; [|auto with res].
  apply le_res_bind; [auto with res|]. intros nm.
  apply le_res_bind; [apply print_term_mono; lia|]. intros s1.
  apply print_bindings_mono; lia.
Qed.

Lemma try_clauses_mono (v1 v2 : list addr → State → Res State) n m :
  (∀ g s, le_res (v1 g s) (v2 g s)) → (n ≤ m)%nat →
  ∀ G rest cls s,
    le_res (try_clauses v1 n G rest cls s) (try_clauses v2 m G rest cls s).
Proof.
  intros Hv Hnm G rest cls. induction cls as [|cl cls IH]; intros s; simpl;
    auto with res.
  apply le_res_bind; [apply deref_mono; lia|]. intros Gh.
  destruct (heap s !! Gh) as [tG|]; auto with res.
  destruct (heap s !! head cl) as [tH|]; auto with res.
  destruct (functor_filter tG tH); [|apply IH].
  apply le_res_bind; [apply copy_term_mono; lia|]. intros [[Hcopy M] s1].
  apply le_res_bind; [apply unify_mono; lia|]. intros [ok s2].
  apply le_res_bind; [|intros s3; apply le_res_bind; [auto with res|]; auto].
  destruct ok; auto with res.
  apply le_res_bind; [|intros [[B M'] s2']; apply Hv].
  apply copy_terms_mono. intros; apply copy_term_mono; lia.
Qed.

Lemma solve_mono n m goals qv s :
  (n ≤ m)%nat →
  le_res (solve fmt_g g_kb n goals qv s) (solve fmt_g g_kb m goals qv s).
Proof.
  revert m goals s. induction n as [|n IH]; intros m goals s Hnm; simpl;
    auto with res.
  destruct m; [lia|]. simpl.
  destruct goals as [|G rest]; [apply print_solution_mono; lia|].
  apply le_res_bind; [apply builtin_call_mono; lia|]. intros [bi s1].
  destruct (bi =? 1); [apply IH; lia|].
  destruct (bi =? 0); auto with res.
  apply try_clauses_mono; [|lia]. intros; apply IH; lia.
Qed.

Lemma run_query_mono n m q s :
  (n ≤ m)%nat →
  le_res (run_query fmt_g g_kb n q s) (run_query fmt_g g_kb m q s).
Proof.
  intros Hnm. unfold run_query.
  apply le_res_bind; [apply collect_query_mono; lia|].
  intros qvars. apply le_res_bind; [apply solve_mono; lia|]. auto with res.
Qed.

End EngineFuel.

(** ** The ancestor scenario *)

(** Conclude about a run with fuel [m] from the run with fuel [n ≤ m],
    which is evaluated. *)
Ltac by_fuel lem k :=
  eapply lem with (n := k); [lia|vm_compute; reflexivity].

(** C1: with the family program loaded in textual order, the variables of
    the query [ancestor(A, carol)] are just [A] (node 19), and [solve] on
    that query returns, with any fuel from 9 on, having counted two
    solutions and printed [A = bob] and then [A = alice]; on
    [ancestor(A, nobody)] it returns having counted no solution and printed
    nothing, and [main] then prints [false.]. *)
Theorem ancestor_scenario (fmt_g : float → string) (n : nat) :
  (9 ≤ n)%nat →
  (let '(goals, s) := ancestor_query "carol" in
   collect_args (collect_vars n (heap s)) goals [] = Ret [19%nat] ∧
   ∃ s', solve fmt_g family_kb n goals [19%nat] s = Ret s' ∧
         g_solution_count s' = 2 ∧
         out s' = String.append "A = bob"
                    (String.append LF (String.append "A = alice" LF))) ∧
  (let '(goals, s) := ancestor_query "nobody" in
   collect_args (collect_vars n (heap s)) goals [] = Ret [19%nat] ∧
   ∃ s', solve fmt_g family_kb n goals [19%nat] s = Ret s' ∧
         g_solution_count s' = 0 ∧ out s' = EmptyString ∧
         ∃ s'', run_query fmt_g family_kb n goals s = Ret s'' ∧
                out s'' = String.append "false." LF).
Proof.
  intros Hn.
  destruct (ancestor_query "carol") as [goals s] eqn:Ec.
  destruct (ancestor_query "nobody") as [goals' s0] eqn:En.
  vm_compute in Ec, En. injection Ec as <- <-. injection En as <- <-.
  split; (split; [|eexists; split; [|split]]).
  - by_fuel collect_query_mono 9%nat.
  - by_fuel solve_mono 9%nat.
  - reflexivity.
  - reflexivity.
  - by_fuel collect_query_mono 9%nat.
  - by_fuel solve_mono 9%nat.
  - reflexivity.
  - split; [reflexivity|]. eexists. split; [by_fuel run_query_mono 9%nat|].
    reflexivity.
Qed.

Lemma ancestor_scenario_witness :
  (let '(goals, s) := ancestor_query "carol" in
   collect_args (collect_vars 9 (heap s)) goals [] = Ret [19%nat] ∧
   ∃ s', solve fmt_none family_kb 9 goals [19%nat] s = Ret s' ∧
         g_solution_count s' = 2 ∧
         out s' = String.append "A = bob"
                    (String.append LF (String.append "A = alice" LF))) ∧
  (let '(goals, s) := ancestor_query "nobody" in
   collect_args (collect_vars 9 (heap s)) goals [] = Ret [19%nat] ∧
   ∃ s', solve fmt_none family_kb 9 goals [19%nat] s = Ret s' ∧
         g_solution_count s' = 0 ∧ out s' = EmptyString ∧
         ∃ s'', run_query fmt_none family_kb 9 goals s = Ret s'' ∧
                out s'' = String.append "false." LF).
Proof. apply (ancestor_scenario fmt_none 9). lia. Defined.

(** ** Built-ins come before clauses *)

Section BuiltinsFirst.

Variable fmt_g : float → string.

Lemma builtin_call_in_table n G G' nm args s bi s1 :
  deref n (heap s) G = Ret G' →
  heap s !! G' = Some (Struc nm args) →
  in_builtin_table nm (arity args) = true →
  builtin_call fmt_g n G s = Ret (bi, s1) → bi = 1 ∨ bi = 0.
Proof.
  intros Hd E Ht H. unfold builtin_call in H. rewrite Hd in H.
  cbn [mbind Res_bind] in H. rewrite !(is_atom_struc _ _ _ _ _ _ _ E) in H.
  cbn [mbind Res_bind] in H. unfold in_builtin_table in Ht.
  repeat match type of H with
         | (if ?c then _ else _) = _ => destruct c; simpl in Ht
         end;
    try discriminate; inv_ret; auto.
  - destruct b; inv_ret; auto.
  - destruct b; auto.
Qed.

Lemma solve_builtin kb n G G' nm args rest qv s :
  deref n (heap s) G = Ret G' →
  heap s !! G' = Some (Struc nm args) →
  in_builtin_table nm (arity args) = true →
  solve fmt_g kb (S n) (G :: rest) qv s =
    '(bi, s1) ← builtin_call fmt_g n G s;
    if bi =? 1 then solve fmt_g kb n rest qv s1 else Ret s1.
Proof.
  intros Hd E Ht. cbn [solve].
  destruct (builtin_call fmt_g n G s) as [[bi s1]| |] eqn:Hb; try reflexivity.
  cbn [mbind Res_bind].
  destruct (builtin_call_in_table _ _ _ _ _ _ _ _ Hd E Ht Hb) as [-> | ->];
    reflexivity.
Qed.

End BuiltinsFirst.

(** C10: for a goal whose dereferenced form is in the built-in table,
    [builtin_call] answers 1 or 0, never -1, and [solve] does what the
    answer says: on 1 it goes on with the remaining goals, on 0 it returns.
    The clause loop is not entered, so the result for such a goal is the
    same for every knowledge base, clauses with that name and arity
    included. *)
Theorem builtin_goals_bypass_clauses (fmt_g : float → string) (kb : KB)
    (n : nat) (G G' : addr) (nm : string) (args rest : list addr)
    (qv : VSet) (s : State) :
  deref n (heap s) G = Ret G' →
  heap s !! G' = Some (Struc nm args) →
  in_builtin_table nm (arity args) = true →
  (∀ bi s1, builtin_call fmt_g n G s = Ret (bi, s1) → bi = 1 ∨ bi = 0) ∧
  solve fmt_g kb (S n) (G :: rest) qv s =
    ('(bi, s1) ← builtin_call fmt_g n G s;
     if bi =? 1 then solve fmt_g kb n rest qv s1 else Ret s1) ∧
  (∀ kb', solve fmt_g kb' (S n) [G] qv s = solve fmt_g kb (S n) [G] qv s).
Proof.
  intros Hd E Ht. split; [|split].
  - intros bi s1. eapply builtin_call_in_table; eassumption.
  - eapply solve_builtin; eassumption.
  - intros kb'.
    rewrite !(solve_builtin fmt_g _ n G G' nm args [] qv s Hd E Ht).
    destruct (builtin_call fmt_g n G s) as [[bi s1]| |]; try reflexivity.
    cbn [mbind Res_bind]. destruct (bi =? 1); [|reflexivity].
    destruct n; reflexivity.
Qed.

Lemma builtin_goals_bypass_clauses_witness :
  (∀ bi s1, builtin_call fmt_none 1 1 shadowed_state = Ret (bi, s1) →
            bi = 1 ∨ bi = 0) ∧
  solve fmt_none shadowed_kb 2 [1%nat] [] shadowed_state =
    ('(bi, s1) ← builtin_call fmt_none 1 1 shadowed_state;
     if bi =? 1 then solve fmt_none shadowed_kb 1 [] [] s1 else Ret s1) ∧
  (∀ kb', solve fmt_none kb' 2 [1%nat] [] shadowed_state
          = solve fmt_none shadowed_kb 2 [1%nat] [] shadowed_state).
Proof.
  apply (builtin_goals_bypass_clauses fmt_none shadowed_kb 1 1 1 "fail" []);
    reflexivity.
Defined.

(** The fact [fail.] is never used: the query [fail] has no solution. *)
Example shadowed_fail_has_no_solution :
  head <$> shadowed_kb = [0%nat] ∧
  heap shadowed_state !! 0%nat = heap shadowed_state !! 1%nat ∧
  solve fmt_none shadowed_kb 2 [1%nat] [] shadowed_state = Ret shadowed_state.
Proof. repeat split. Qed.

(** ** [=] and [dif] on terms that contain themselves *)

(** A ground term has no unbound variable inside. *)
Lemma ground_no_unbound_inside h t : ground h t → no_unbound_inside h t.
Proof.
  intros (d & G) u node Hin. revert d G node.
  induction Hin as [t|t id r nm an u E _ IH|t nm args a u E Ha _ IH];
    intros d G node Eu.
  - destruct d as [|d]; [discriminate|]. simpl in G. rewrite Eu in G.
    destruct node as [? [r|] ? ?| |]; try reflexivity. discriminate.
  - destruct d as [|d]; [discriminate|]. simpl in G. rewrite E in G.
    eapply IH; eassumption.
  - destruct d as [|d]; [discriminate|]. simpl in G. rewrite E in G.
    rewrite forallb_forall in G. eapply IH; [|exact Eu].
    apply G. apply list_elem_of_In, Ha.
Qed.

(** Two variables bound to compounds of one name that contain them:
    [unify] recurses from the variables to the compounds and from the
    compounds to their arguments, the variables again. *)
Lemma unify_cyclic s a b fa fb nm ida idb nma nmb ana anb :
  heap s !! a = Some (Var ida (Some fa) nma ana) →
  heap s !! fa = Some (Struc nm [a]) →
  heap s !! b = Some (Var idb (Some fb) nmb anb) →
  heap s !! fb = Some (Struc nm [b]) →
  fa ≠ fb →
  ∀ n, unify n a b s = OutOfFuel.
Proof.
  intros Ea Efa Eb Efb Hne n. induction n as [|n IH]; [reflexivity|].
  rewrite unify_S. destruct n as [|n]; [simpl; rewrite Ea; reflexivity|].
  rewrite (deref_bound _ _ _ _ _ _ _ Ea), (deref_bound _ _ _ _ _ _ _ Eb).
  rewrite (deref_stop _ _ _ _ Efa I), (deref_stop _ _ _ _ Efb I).
  cbn [mbind Res_bind].
  destruct (Nat.eqb_spec fa fb) as [|_]; [contradiction|].
  rewrite Efa, Efb, String.eqb_refl. cbn [negb]. 
  replace (arity [a] =? arity [b]) with true by reflexivity. cbn [negb].
  cbn [unify_args]. rewrite IH. reflexivity.
Qed.

Lemma inside_cyclic h x fx id nm an fn :
  h !! x = Some (Var id (Some fx) nm an) →
  h !! fx = Some (Struc fn [x]) →
  ∀ t u, inside h t u → t = x ∨ t = fx → u = x ∨ u = fx.
Proof.
  intros Ex Efx t u Hin.
  induction Hin as [t|t id' r nm' an' u E _ IH|t nm' args a u E Ha _ IH];
    intros Ht; [exact Ht|..]; apply IH.
  - destruct Ht as [-> | ->]; [|congruence]. right. congruence.
  - destruct Ht as [-> | ->]; [congruence|]. left.
    rewrite Efx in E. injection E as <- <-.
    apply list_elem_of_singleton in Ha. exact Ha.
Qed.

Lemma no_unbound_inside_cyclic h x fx id nm an fn :
  h !! x = Some (Var id (Some fx) nm an) →
  h !! fx = Some (Struc fn [x]) →
  no_unbound_inside h x ∧ ¬ ground h x.
Proof.
  intros Ex Efx. split.
  - intros u node Hin Eu.
    destruct (inside_cyclic _ _ _ _ _ _ _ Ex Efx _ _ Hin (or_introl eq_refl))
      as [-> | ->]; [rewrite Ex in Eu|rewrite Efx in Eu];
      injection Eu as <-; reflexivity.
  - intros (d & G).
    assert (H : ∀ d, groundb d h x = false ∧ groundb d h fx = false).
    { clear d G. induction d as [|d [IHx IHf]]; [split; reflexivity|].
      simpl. rewrite Ex, Efx. simpl. rewrite IHx, IHf. split; reflexivity. }
    rewrite (proj1 (H d)) in G. discriminate.
Qed.

(** C6 as stated fails on terms that contain themselves.  After the goals
    [X = f(X)] and [Y = f(Y)], which the engine runs without an
    occurs-check, neither [X] nor [Y] has an unbound variable anywhere
    inside, yet neither [X = Y] nor [dif(X, Y)] returns, with any fuel:
    [unify] goes from the variables to the compounds and from the
    compounds to their arguments, the same variables, without end.  So
    neither of the two built-ins succeeds, and the queries
    [X = f(X), Y = f(Y), X = Y] and [X = f(X), Y = f(Y), dif(X, Y)] never
    return either. *)
Lemma eq_and_dif_never_return_on_cyclic_terms :
  let s0 := cyclic_query.2 in
  let s1 := trail_push 0 (bind_var 0 1 s0) in
  cyclic_query.1 = [2; 5; 6; 7]%nat ∧
  (∀ n, (1 ≤ n)%nat → builtin_call fmt_none n 2 s0 = Ret (1, s1)) ∧
  (∀ n, (1 ≤ n)%nat → builtin_call fmt_none n 5 s1 = Ret (1, cyclic_state)) ∧
  heap cyclic_state !! 6%nat = Some (Struc "=" [0; 3]%nat) ∧
  heap cyclic_state !! 7%nat = Some (Struc "dif" [0; 3]%nat) ∧
  no_unbound_inside (heap cyclic_state) 0 ∧
  no_unbound_inside (heap cyclic_state) 3 ∧
  (∀ n, builtin_call fmt_none n 6 cyclic_state = OutOfFuel) ∧
  (∀ n, builtin_call fmt_none n 7 cyclic_state = OutOfFuel) ∧
  (∀ kb n, solve fmt_none kb n [2; 5; 6]%nat [] s0 = OutOfFuel) ∧
  (∀ kb n, solve fmt_none kb n [2; 5; 7]%nat [] s0 = OutOfFuel).
Proof.
  intros s0 s1.
  assert (H2 : ∀ n, (1 ≤ n)%nat → builtin_call fmt_none n 2 s0 = Ret (1, s1))
    by (intros n Hn; eapply builtin_call_mono with (n := 1%nat);
        [exact Hn|vm_compute; reflexivity]).
  assert (H5 : ∀ n, (1 ≤ n)%nat →
                    builtin_call fmt_none n 5 s1 = Ret (1, cyclic_state))
    by (intros n Hn; eapply builtin_call_mono with (n := 1%nat);
        [exact Hn|vm_compute; reflexivity]).
  assert (Hu : ∀ n, unify n 0 3 cyclic_state = OutOfFuel)
    by (eapply (unify_cyclic cyclic_state 0 3 1 4); try reflexivity;
        discriminate).
  assert (H6 : ∀ n, builtin_call fmt_none n 6 cyclic_state = OutOfFuel).
  { intros n. rewrite (builtin_call_eq fmt_none n 6 6 0 3 cyclic_state);
      [|apply (deref_stop _ _ _ (Struc "=" [0; 3]%nat)); [reflexivity|exact I]
       |reflexivity].
    rewrite Hu. reflexivity. }
  assert (H7 : ∀ n, builtin_call fmt_none n 7 cyclic_state = OutOfFuel).
  { intros n. rewrite (builtin_call_dif fmt_none n 7 7 0 3 cyclic_state);
      [|apply (deref_stop _ _ _ (Struc "dif" [0; 3]%nat)); [reflexivity|exact I]
       |reflexivity].
    rewrite Hu. reflexivity. }
  assert (Hs : ∀ g, (∀ n, builtin_call fmt_none n g cyclic_state = OutOfFuel) →
               ∀ kb n, solve fmt_none kb n [2%nat; 5%nat; g] [] s0 = OutOfFuel).
  { intros g Hg kb n. destruct n as [|n]; [reflexivity|].
    rewrite (solve_builtin fmt_none kb n 2 2 "=" [0; 1]%nat);
      [|apply (deref_stop _ _ _ (Struc "=" [0; 1]%nat)); [reflexivity|exact I]
       |reflexivity|reflexivity].
    destruct n as [|n]; [reflexivity|]. rewrite H2 by lia.
    cbn [mbind Res_bind]. change (1 =? 1) with true. cbv iota.
    rewrite (solve_builtin fmt_none kb n 5 5 "=" [3; 4]%nat);
      [|apply (deref_stop _ _ _ (Struc "=" [3; 4]%nat)); [reflexivity|exact I]
       |reflexivity|reflexivity].
    destruct n as [|n]; [reflexivity|]. rewrite H5 by lia.
    cbn [mbind Res_bind]. change (1 =? 1) with true. cbv iota.
    cbn [solve]. rewrite Hg. reflexivity. }
  split; [reflexivity|]. split; [exact H2|]. split; [exact H5|].
  split; [reflexivity|]. split; [reflexivity|].
  split; [eapply (no_unbound_inside_cyclic _ 0%nat 1%nat); reflexivity|].
  split; [eapply (no_unbound_inside_cyclic _ 3%nat 4%nat); reflexivity|].
  split; [exact H6|]. split; [exact H7|]. split; apply Hs; assumption.
Qed.

(** ** The functor filter of the clause loop *)

Lemma try_clauses_skip (slv : list addr → State → Res State) n G Gh tG tH
    rest cl cls s :
  deref n (heap s) G = Ret Gh →
  heap s !! Gh = Some tG → heap s !! head cl = Some tH →
  functor_filter tG tH = false →
  try_clauses slv n G rest (cl :: cls) s = try_clauses slv n G rest cls s.
Proof.
  intros Hd EG EH Hf. cbn [try_clauses]. rewrite Hd. cbn [mbind Res_bind].
  rewrite EG, EH, Hf. reflexivity.
Qed.

Lemma try_clauses_attempt (slv : list addr → State → Res State) n G Gh tG tH
    rest cl cls s :
  deref n (heap s) G = Ret Gh →
  heap s !! Gh = Some tG → heap s !! head cl = Some tH →
  functor_filter tG tH = true →
  try_clauses slv n G rest (cl :: cls) s =
    '(Hcopy, M, s1) ← copy_term n (head cl) [] s;
    '(ok, s2) ← unify n Gh Hcopy s1;
    s3 ← (if ok : bool then
            '(B, _, s2') ← copy_terms (copy_term n) (body cl) M s2;
            slv (B ++ rest) s2'
          else Ret s2);
    s4 ← trail_unwind (trail_mark s) s3;
    try_clauses slv n G rest cls s4.
Proof.
  intros Hd EG EH Hf. cbn [try_clauses]. rewrite Hd. cbn [mbind Res_bind].
  rewrite EG, EH, Hf. reflexivity.
Qed.

Lemma try_clauses_all_skipped (slv : list addr → State → Res State) n G Gh tG
    rest cls s :
  deref n (heap s) G = Ret Gh →
  heap s !! Gh = Some tG →
  Forall (λ cl, ∃ tH, heap s !! head cl = Some tH ∧
                      functor_filter tG tH = false) cls →
  try_clauses slv n G rest cls s = Ret s.
Proof.
  intros Hd EG Hall. induction Hall as [|cl cls (tH & EH & Hf) _ IH];
    [reflexivity|].
  rewrite (try_clauses_skip slv n G Gh tG tH rest cl cls s) by assumption.
  exact IH.
Qed.

Lemma functor_filter_struc N args tH :
  functor_filter (Struc N args) tH = true ↔
  ∃ args', tH = Struc N args' ∧ arity args' = arity args.
Proof.
  destruct tH as [| |nm aH]; simpl.
  - split; [discriminate|]. intros (? & ? & _); discriminate.
  - split; [discriminate|]. intros (? & ? & _); discriminate.
  - destruct (String.eqb_spec N nm) as [->|Hne]; simpl.
    + destruct (Z.eqb_spec (arity args) (arity aH)) as [Ha|Ha]; simpl.
      * split; [eauto|reflexivity].
      * split; [discriminate|]. intros (? & [= <-] & ?). congruence.
    + split; [discriminate|]. intros (? & [= ? ?] & _). congruence.
Qed.

Lemma only_allocates_refl s : only_allocates s s.
Proof. repeat split; reflexivity. Qed.

Lemma only_allocates_trans s1 s2 s3 :
  only_allocates s1 s2 → only_allocates s2 s3 → only_allocates s1 s3.
Proof.
  intros (Hp1 & Ht1 & Ho1 & Hc1) (Hp2 & Ht2 & Ho2 & Hc2).
  repeat split; [etrans; eassumption|congruence..].
Qed.

Lemma alloc_spec t s a s' :
  alloc t s = (a, s') → only_allocates s s' ∧ heap s' !! a = Some t.
Proof.
  unfold alloc, only_allocates. intros [= <- <-]; simpl. repeat split.
  - apply prefix_app_r. reflexivity.
  - apply list_lookup_middle. reflexivity.
Qed.

Lemma map_get_allocates M t s c M' s' :
  map_get M t s = Ret (c, M', s') → only_allocates s s'.
Proof.
  unfold map_get. destruct (vmap_find M t); intros H; inv_ret;
    [apply only_allocates_refl|].
  destruct (heap s !! t); inv_ret. unfold mk_var in *.
  match goal with H : alloc _ _ = _ |- _ => apply alloc_spec in H as [H _] end.
  assumption.
Qed.

Lemma copy_terms_allocates
    (cp : addr → VMap → State → Res (addr * VMap * State)) :
  (∀ t M s c M' s', cp t M s = Ret (c, M', s') → only_allocates s s') →
  ∀ l M s cs M' s',
    copy_terms cp l M s = Ret (cs, M', s') →
    only_allocates s s' ∧ length cs = length l.
Proof.
  intros Hcp l. induction l as [|t l IH]; intros M s cs M' s' H; simpl in H;
    inv_ret; [split; [apply only_allocates_refl|reflexivity]|].
  apply Hcp in Hx. apply IH in Hx0 as [Ha Hl]. split.
  - eapply only_allocates_trans; eassumption.
  - simpl. congruence.
Qed.

Lemma copy_term_allocates n t M s c M' s' :
  copy_term n t M s = Ret (c, M', s') → only_allocates s s'.
Proof.
  revert t M s c M' s'. induction n as [|n IH]; intros t M s c M' s' H;
    cbn [copy_term] in H; [discriminate|].
  destruct (heap s !! t) as [[| |nm args]|]; inv_ret;
    unfold mk_num, mk_struct in *.
  - eapply map_get_allocates; eassumption.
  - match goal with H : alloc _ _ = _ |- _ => apply alloc_spec in H as [H _] end.
    assumption.
  - apply (copy_terms_allocates _ IH) in Hx as [Ha _].
    match goal with H : alloc _ _ = _ |- _ => apply alloc_spec in H as [H _] end.
    eapply only_allocates_trans; eassumption.
Qed.

(** The copy of a number is that number, the copy of a compound is a
    compound of the same name and arity. *)
Lemma copy_term_shape n t M s c M' s' tH :
  copy_term n t M s = Ret (c, M', s') →
  heap s !! t = Some tH →
  match tH with
  | Var _ _ _ _ => True
  | Num x => heap s' !! c = Some (Num x)
  | Struc nm args =>
      ∃ cs, heap s' !! c = Some (Struc nm cs) ∧ arity cs = arity args
  end.
Proof.
  destruct n as [|n]; cbn [copy_term]; [discriminate|]. intros H E.
  rewrite E in H.
  destruct tH as [| |nm args]; [exact I| |]; inv_ret;
    unfold mk_num, mk_struct in *.
  - match goal with H : alloc _ _ = _ |- _ => apply alloc_spec in H as [_ H] end.
    assumption.
  - apply (copy_terms_allocates _ (copy_term_allocates n)) in Hx as [_ Hl].
    match goal with H : alloc _ _ = _ |- _ => apply alloc_spec in H as [_ H] end.
    eexists. split; [eassumption|]. unfold arity. congruence.
Qed.

(** A skipped clause whose head is a compound or a number would have
    failed head unification anyway. *)
Lemma skipped_head_cannot_unify n m s Gh N args hd tH Hcopy M0 M s1 :
  heap s !! Gh = Some (Struc N args) →
  heap s !! hd = Some tH → k tH ≠ TM_VAR →
  functor_filter (Struc N args) tH = false →
  copy_term n hd M0 s = Ret (Hcopy, M, s1) →
  unify (S m) Gh Hcopy s1 = Ret (false, s1).
Proof.
  intros EG EH Hk Hf Hc.
  assert (Hal : only_allocates s s1) by (eapply copy_term_allocates; exact Hc).
  assert (Hsh := copy_term_shape _ _ _ _ _ _ _ _ Hc EH).
  assert (EG1 : heap s1 !! Gh = Some (Struc N args))
    by (eapply prefix_lookup_Some; [exact EG|apply Hal]).
  rewrite unify_S, (deref_stop _ _ _ _ EG1 I).
  destruct tH as [| |nm aH]; [exfalso; apply Hk; reflexivity| |].
  - rewrite (deref_stop _ _ _ _ Hsh I). cbn [mbind Res_bind].
    rewrite (lookup_neq _ _ _ _ _ EG1 Hsh) by congruence.
    rewrite EG1, Hsh. reflexivity.
  - destruct Hsh as (cs & EC & Har).
    rewrite (deref_stop _ _ _ _ EC I). cbn [mbind Res_bind].
    simpl in Hf. rewrite <- Har in Hf.
    assert (Hne : Struc N args ≠ Struc nm cs).
    { intros [= -> ->]. rewrite String.eqb_refl, Z.eqb_refl in Hf.
      discriminate. }
    rewrite (lookup_neq _ _ _ _ _ EG1 EC Hne), EG1, EC.
    destruct (negb (String.eqb N nm)); [reflexivity|].
    destruct (negb (arity args =? arity cs)); [reflexivity|discriminate].
Qed.

(** C3, as the code has it: for a goal whose dereferenced form is a
    compound of name [N] and arity [K], the clause loop attempts (renames,
    head-unifies and, on success, solves the body of) exactly the clauses
    whose head is a compound of name [N] and arity [K], and passes over
    every other clause without touching the state; a clause whose head is a
    variable is passed over.  Passing over a clause whose head is a
    compound or a number loses nothing: the goal does not unify with the
    renamed head. *)
Theorem functor_filter_attempts (slv : list addr → State → Res State)
    (n : nat) (G Gh : addr) (N : string) (args rest : list addr)
    (cl : Clause) (cls : list Clause) (tH : Term) (s : State) :
  deref n (heap s) G = Ret Gh →
  heap s !! Gh = Some (Struc N args) →
  heap s !! head cl = Some tH →
  (functor_filter (Struc N args) tH = true ↔
   ∃ args', tH = Struc N args' ∧ arity args' = arity args) ∧
  (functor_filter (Struc N args) tH = true →
   try_clauses slv n G rest (cl :: cls) s =
     '(Hcopy, M, s1) ← copy_term n (head cl) [] s;
     '(ok, s2) ← unify n Gh Hcopy s1;
     s3 ← (if ok : bool then
             '(B, _, s2') ← copy_terms (copy_term n) (body cl) M s2;
             slv (B ++ rest) s2'
           else Ret s2);
     s4 ← trail_unwind (trail_mark s) s3;
     try_clauses slv n G rest cls s4) ∧
  (functor_filter (Struc N args) tH = false →
   try_clauses slv n G rest (cl :: cls) s = try_clauses slv n G rest cls s) ∧
  (k tH = TM_VAR → functor_filter (Struc N args) tH = false) ∧
  (functor_filter (Struc N args) tH = false → k tH ≠ TM_VAR →
   ∀ m Hcopy M s1,
     copy_term n (head cl) [] s = Ret (Hcopy, M, s1) →
     unify (S m) Gh Hcopy s1 = Ret (false, s1)).
Proof.
  intros Hd EG EH. split; [apply functor_filter_struc|].
  split; [intros Hf; eapply try_clauses_attempt; eassumption|].
  split; [intros Hf; eapply try_clauses_skip; eassumption|].
  split; [destruct tH; simpl; intros; congruence|].
  intros Hf Hk m Hcopy M s1 Hc.
  eapply skipped_head_cannot_unify; eassumption.
Qed.

(** C3 as stated fails on a clause whose head is a variable: for the
    program [X.] and the goal [foo] the filter passes over the clause, the
    clause loop returns with the state untouched and [solve] finds no
    solution, although [foo] unifies with the renamed head. *)
Lemma variable_head_clause_is_skipped :
  heap var_head_state !! 0%nat = Some (Var 0 None (Some "X"%string) false) ∧
  head <$> var_head_kb = [0%nat] ∧
  heap var_head_state !! 1%nat = Some (Struc "foo" []) ∧
  functor_filter (Struc "foo" []) (Var 0 None (Some "X"%string) false) = false ∧
  (∀ slv, try_clauses slv 1 1 [] var_head_kb var_head_state
          = Ret var_head_state) ∧
  (∃ Hcopy M s1 s2,
     copy_term 1 0 [] var_head_state = Ret (Hcopy, M, s1) ∧
     unify 1 1 Hcopy s1 = Ret (true, s2)) ∧
  solve fmt_none var_head_kb 2 [1%nat] [] var_head_state = Ret var_head_state.
Proof.
  repeat split. do 4 eexists. split; reflexivity.
Qed.

Lemma functor_filter_attempts_witness :
  (functor_filter (Struc "ancestor" [19; 20]%nat) (Struc "parent" [0; 1]%nat)
     = true ↔
   ∃ args', Struc "parent" [0; 1]%nat = Struc "ancestor" args' ∧
            arity args' = arity [19; 20]%nat) ∧
  (functor_filter (Struc "ancestor" [19; 20]%nat) (Struc "parent" [0; 1]%nat)
     = true →
   try_clauses (λ _ s, Ret s) 8 21 [] (mkClause 2 [] :: drop 1 family_kb)
     (ancestor_query "carol").2 =
     '(Hcopy, M, s1) ← copy_term 8 (head (mkClause 2 [])) []
                         (ancestor_query "carol").2;
     '(ok, s2) ← unify 8 21 Hcopy s1;
     s3 ← (if ok : bool then
             '(B, _, s2') ← copy_terms (copy_term 8) (body (mkClause 2 [])) M s2;
             Ret s2'
           else Ret s2);
     s4 ← trail_unwind (trail_mark (ancestor_query "carol").2) s3;
     try_clauses (λ _ s, Ret s) 8 21 [] (drop 1 family_kb) s4) ∧
  (functor_filter (Struc "ancestor" [19; 20]%nat) (Struc "parent" [0; 1]%nat)
     = false →
   try_clauses (λ _ s, Ret s) 8 21 [] (mkClause 2 [] :: drop 1 family_kb)
     (ancestor_query "carol").2 =
   try_clauses (λ _ s, Ret s) 8 21 [] (drop 1 family_kb)
     (ancestor_query "carol").2) ∧
  (k (Struc "parent" [0; 1]%nat) = TM_VAR →
   functor_filter (Struc "ancestor" [19; 20]%nat) (Struc "parent" [0; 1]%nat)
     = false) ∧
  (functor_filter (Struc "ancestor" [19; 20]%nat) (Struc "parent" [0; 1]%nat)
     = false →
   k (Struc "parent" [0; 1]%nat) ≠ TM_VAR →
   ∀ m Hcopy M s1,
     copy_term 8 (head (mkClause 2 [])) [] (ancestor_query "carol").2
       = Ret (Hcopy, M, s1) →
     unify (S m) 21 Hcopy s1 = Ret (false, s1)).
Proof.
  apply (functor_filter_attempts (λ _ s, Ret s) 8 21 21 "ancestor"
           [19; 20]%nat [] (mkClause 2 []) (drop 1 family_kb)
           (Struc "parent" [0; 1]%nat) (ancestor_query "carol").2);
    reflexivity.
Defined.

(** ** A number as a goal *)

Lemma is_atom_not_struc n h t node name ar :
  h !! t = Some node → unbound_node node → k node ≠ TM_STRUC →
  is_atom n h t name ar = Ret false.
Proof.
  intros E U Hk. unfold is_atom. rewrite (deref_stop _ _ _ _ E U). simpl.
  rewrite E. destruct node; try reflexivity. exfalso; apply Hk; reflexivity.
Qed.

(** A goal whose dereferenced form is not a compound is no built-in. *)
Lemma builtin_call_not_struc fmt_g n G G' node s :
  deref n (heap s) G = Ret G' →
  heap s !! G' = Some node → k node ≠ TM_STRUC →
  builtin_call fmt_g n G s = Ret (-1, s).
Proof.
  intros Hd E Hk. unfold builtin_call. rewrite Hd. cbn [mbind Res_bind].
  destruct (deref_Ret _ _ _ _ Hd) as (node' & E' & U).
  assert (node' = node) as -> by congruence.
  rewrite !(is_atom_not_struc _ _ _ _ _ _ E U Hk). reflexivity.
Qed.

(** C5, as the code has it: a goal whose dereferenced form is a number is
    not fatal.  It is no built-in ([builtin_call] answers -1), the clause
    loop attempts only clauses whose head is a number, and when the
    knowledge base has none [solve] returns normally with the state
    unchanged: no solution, no output, an ordinary failure the caller
    backtracks from. *)
Theorem number_goal_is_ordinary_failure (fmt_g : float → string) (kb : KB)
    (n : nat) (G G' : addr) (x : float) (rest : list addr) (qv : VSet)
    (s : State) :
  deref n (heap s) G = Ret G' →
  heap s !! G' = Some (Num x) →
  Forall (λ cl, ∃ tH, heap s !! head cl = Some tH ∧ k tH ≠ TM_NUM) kb →
  builtin_call fmt_g n G s = Ret (-1, s) ∧
  solve fmt_g kb (S n) (G :: rest) qv s = Ret s.
Proof.
  intros Hd E Hkb.
  assert (Hb : builtin_call fmt_g n G s = Ret (-1, s))
    by (eapply builtin_call_not_struc; [exact Hd|exact E|discriminate]).
  split; [exact Hb|]. cbn [solve]. rewrite Hb. cbn [mbind Res_bind Z.eqb].
  eapply try_clauses_all_skipped; [exact Hd|exact E|].
  eapply Forall_impl; [exact Hkb|]. intros cl (tH & EH & Hk).
  exists tH. split; [exact EH|].
  destruct tH; try reflexivity. exfalso; apply Hk; reflexivity.
Qed.

Lemma number_goal_is_ordinary_failure_witness :
  builtin_call fmt_none 1 1 number_goal_state = Ret (-1, number_goal_state) ∧
  solve fmt_none number_goal_kb 2 [1%nat] [] number_goal_state
    = Ret number_goal_state.
Proof.
  apply (number_goal_is_ordinary_failure fmt_none number_goal_kb 1 1 1 3%float
           [] [] number_goal_state); [reflexivity|reflexivity|].
  repeat constructor; eexists; (split; [reflexivity|discriminate]).
Defined.

(** C5 as stated fails: in the program [p :- 3 .  p.] the query [p] reaches
    the number as a goal through the first clause; [solve] returns, and it
    has backtracked into the second clause and reported its solution. *)
Lemma number_goal_backtracks :
  body <$> number_goal_kb = [[1%nat]; []] ∧
  heap number_goal_state !! 1%nat = Some (Num 3%float) ∧
  ∃ s', solve fmt_none number_goal_kb 4 [3%nat] [] number_goal_state = Ret s' ∧
        g_solution_count s' = 1 ∧ out s' = String.append "true" LF.
Proof. repeat split. eexists. repeat split. Qed.

(** With a clause whose head is that number, a number goal even succeeds. *)
Example number_goal_can_succeed :
  ∃ s', run fmt_none 3 [(SNum 3%float, [])] [SNum 3%float] = Ret s' ∧
        g_solution_count s' = 1.
Proof. eexists. split; reflexivity. Qed.

(** ** Output is only ever appended to *)

Lemma append_nil_r (a : string) : String.append a EmptyString = a.
Proof. induction a as [|c a IH]; simpl; congruence. Qed.

Lemma append_assoc (a b c : string) :
  String.append (String.append a b) c = String.append a (String.append b c).
Proof. induction a as [|x a IH]; simpl; congruence. Qed.

Lemma out_grows_refl s : out_grows s s.
Proof. exists EmptyString. symmetry. apply append_nil_r. Qed.

Lemma out_grows_trans s1 s2 s3 :
  out_grows s1 s2 → out_grows s2 s3 → out_grows s1 s3.
Proof.
  intros (o1 & H1) (o2 & H2). exists (String.append o1 o2).
  rewrite H2, H1. apply append_assoc.
Qed.

Lemma out_grows_eq s s' : out s' = out s → out_grows s s'.
Proof. intros H. exists EmptyString. rewrite H. symmetry. apply append_nil_r. Qed.

Lemma out_grows_printf str s : out_grows s (printf str s).
Proof. exists str. reflexivity. Qed.

Lemma out_grows_printf_l str s s' :
  out_grows (printf str s) s' → out_grows s s'.
Proof. apply out_grows_trans, out_grows_printf. Qed.

Lemma out_grows_printf_r str s s' :
  out_grows s s' → out_grows s (printf str s').
Proof. intros H. eapply out_grows_trans; [exact H|apply out_grows_printf]. Qed.

#[local] Hint Resolve out_grows_refl out_grows_printf out_grows_printf_l
  out_grows_printf_r : res.

Lemma trail_unwind_out m s s' :
  trail_unwind m s = Ret s' → out s' = out s.
Proof. unfold trail_unwind. intros H. inv_ret. reflexivity. Qed.

Section Output.

Variable fmt_g : float → string.
Variable g_kb : KB.

Lemma print_args_out (pt : addr → State → Res State) :
  (∀ t s s', pt t s = Ret s' → out_grows s s') →
  ∀ l first s s', print_args pt first l s = Ret s' → out_grows s s'.
Proof.
  intros Hp l. induction l as [|t l IH]; intros first s s' H; simpl in H;
    inv_ret; auto with res.
  apply Hp in Hx. apply IH in H.
  eapply out_grows_trans; [|exact H]. destruct first; eauto with res.
Qed.

Lemma print_list_loop_out (pt : addr → State → Res State) :
  (∀ t s s', pt t s = Ret s' → out_grows s s') →
  ∀ n first t s s', print_list_loop pt n first t s = Ret s' → out_grows s s'.
Proof.
  intros Hp n. induction n as [|n IH]; intros first t s s' H; simpl in H;
    [discriminate|].
  inv_ret. rename x into t'.
  assert (Himp : pt t' (printf "| " (if first then s else printf ", " s))
                 = Ret s' → out_grows s s').
  { intros Hi. apply Hp in Hi. destruct first; eauto with res. }
  destruct (heap s !! t') as [[| |nm args]|]; inv_ret; auto.
  destruct (_ && _); inv_ret; auto with res.
  destruct (_ && _); inv_ret; auto.
  apply Hp in Hx1. apply IH in H.
  eapply out_grows_trans; [|exact H]. destruct first; eauto with res.
Qed.

Lemma print_term_out n t s s' :
  print_term fmt_g n t s = Ret s' → out_grows s s'.
Proof.
  revert t s s'. induction n as [|n IH]; intros t s s' H; simpl in H;
    [discriminate|].
  inv_ret. rename x into t'.
  destruct (heap s !! t') as [[| |nm args]|]; inv_ret; auto with res.
  destruct x.
  - unfold print_list in H. inv_ret.
    eapply print_list_loop_out in Hx1; eauto with res.
  - destruct (_ >? _); inv_ret; auto with res.
    eapply print_args_out in Hx1; eauto with res.
Qed.

Lemma builtin_call_out n G s bi s' :
  builtin_call fmt_g n G s = Ret (bi, s') → out_grows s s'.
Proof.
  unfold builtin_call. intros H. inv_ret.
  repeat match type of H with
         | (if ?c then _ else _) = _ => destruct c
         | _ => progress inv_ret
         end;
    repeat match goal with
    | Hu : unify _ _ _ _ = Ret _ |- _ =>
        apply unify_extends in Hu as (? & _ & _ & ? & _)
    | Hw : trail_unwind _ _ = Ret _ |- _ => apply trail_unwind_out in Hw
    | Hp : print_term _ _ _ _ = Ret _ |- _ => apply print_term_out in Hp
    end;
    auto with res; apply out_grows_eq; congruence.
Qed.

Lemma print_bindings_out n S :
  ∀ first s s', print_bindings fmt_g n first S s = Ret s' → out_grows s s'.
Proof.
  induction S as [|v S IH]; intros first s s' H; simpl in H; inv_ret;
    auto with res.
  apply print_term_out in Hx0. apply IH in H.
  eapply out_grows_trans; [|exact H]. destruct first; eauto with res.
Qed.

Lemma print_solution_out n S s s' :
  print_solution fmt_g n S s = Ret s' → out_grows s s'.
Proof.
  unfold print_solution. destruct S; intros H; inv_ret; auto with res.
  apply print_bindings_out in Hx. auto with res.
Qed.

Lemma try_clauses_out (slv : list addr → State → Res State) n G rest :
  (∀ g s s', slv g s = Ret s' → out_grows s s') →
  ∀ cls s s', try_clauses slv n G rest cls s = Ret s' → out_grows s s'.
Proof.
  intros Hs cls. induction cls as [|cl cls IH]; intros s s' H; simpl in H;
    inv_ret; auto with res.
  destruct (heap s !! x) as [tG|]; [|discriminate].
  destruct (heap s !! head cl) as [tH|]; [|discriminate].
  destruct (functor_filter tG tH); [|eauto]. inv_ret.
  match goal with
  | Hc : copy_term _ _ _ _ = _ |- _ =>
      apply copy_term_allocates in Hc as (_ & _ & Hc & _)
  end.
  match goal with
  | Hu : unify _ _ _ _ = Ret _ |- _ =>
      apply unify_extends in Hu as (? & _ & _ & Hu & _)
  end.
  match goal with
  | Hw : trail_unwind _ _ = _ |- _ => apply trail_unwind_out in Hw
  end.
  apply IH in H. eapply out_grows_trans; [|exact H].
  eapply out_grows_trans; [|apply out_grows_eq; eassumption].
  match goal with
  | Hb : (if ?ok then _ else _) = Ret _ |- _ => destruct ok; inv_ret
  end.
  - match goal with
    | Hc : copy_terms _ _ _ _ = _ |- _ =>
        apply (copy_terms_allocates _ (copy_term_allocates n)) in Hc
          as ((_ & _ & Hc & _) & _)
    end.
    match goal with Hv : slv _ _ = _ |- _ => apply Hs in Hv end.
    eapply out_grows_trans; [|eassumption]. apply out_grows_eq. congruence.
  - apply out_grows_eq. congruence.
Qed.

Lemma solve_out n goals qv s s' :
  solve fmt_g g_kb n goals qv s = Ret s' → out_grows s s'.
Proof.
  revert goals s s'. induction n as [|n IH]; intros goals s s' H; simpl in H;
    [discriminate|].
  destruct goals as [|G rest].
  - apply print_solution_out in H. destruct H as (o & H). exists o. exact H.
  - inv_ret. match goal with
    | Hb : builtin_call _ _ _ _ = _ |- _ => apply builtin_call_out in Hb
    end.
    eapply out_grows_trans; [eassumption|].
    destruct (_ =? 1); [eauto|]. destruct (_ =? 0); inv_ret; auto with res.
    eapply try_clauses_out; [|eassumption].
    intros g s1 s1' Hg. eapply IH. exact Hg.
Qed.

End Output.

(** ** Side effects survive backtracking *)

Section Write.

Variable fmt_g : float → string.

Lemma builtin_call_write n W H s :
  heap s !! W = Some (Struc "write" [H]) →
  builtin_call fmt_g n W s = s1 ← print_term fmt_g n H s; Ret (1, s1).
Proof.
  intros E. unfold builtin_call. rewrite (deref_stop _ _ _ _ E I).
  cbn [mbind Res_bind]. rewrite !(is_atom_struc _ _ _ _ _ _ _ E).
  unfold arity. cbn. rewrite (arg_struc _ _ _ _ 0%nat H E) by reflexivity.
  reflexivity.
Qed.

Lemma builtin_call_fail n F s :
  heap s !! F = Some (Struc "fail" []) →
  builtin_call fmt_g n F s = Ret (0, s).
Proof.
  intros E. unfold builtin_call. rewrite (deref_stop _ _ _ _ E I).
  cbn [mbind Res_bind]. rewrite !(is_atom_struc _ _ _ _ _ _ _ E).
  reflexivity.
Qed.

Lemma print_term_hello n H s :
  heap s !! H = Some (Struc "hello" []) →
  print_term fmt_g (S n) H s = Ret (printf "hello" s).
Proof.
  intros E. cbn [print_term]. rewrite (deref_stop _ _ _ _ E I).
  cbn [mbind Res_bind]. rewrite E. unfold is_list_like.
  rewrite (deref_stop _ _ _ _ E I). cbn [mbind Res_bind]. rewrite E.
  reflexivity.
Qed.

End Write.

(** C9: when [solve] reaches [write(hello)] it prints [hello] at once and
    goes on with the remaining goals in the state that has the output;
    whatever [solve] does afterwards, in any run, the output it returns
    with is the output it started with followed by what was printed, so
    nothing printed is taken back; and the query [write(hello), fail]
    returns, for every knowledge base, having printed [hello] exactly once
    and counted no solution. *)
Theorem write_survives_backtracking (fmt_g : float → string) (kb : KB)
    (n : nat) (W H Fl : addr) (rest : list addr) (qv : VSet) (s : State) :
  heap s !! W = Some (Struc "write" [H]) →
  heap s !! H = Some (Struc "hello" []) →
  heap s !! Fl = Some (Struc "fail" []) →
  solve fmt_g kb (S (S n)) (W :: rest) qv s
    = solve fmt_g kb (S n) rest qv (printf "hello" s) ∧
  (∀ m goals s1 s', solve fmt_g kb m goals qv s1 = Ret s' → out_grows s1 s') ∧
  ∃ s', solve fmt_g kb (S (S n)) [W; Fl] qv s = Ret s' ∧
        out s' = String.append (out s) "hello" ∧
        g_solution_count s' = g_solution_count s.
Proof.
  intros EW EH EF.
  assert (Hw : ∀ rest, solve fmt_g kb (S (S n)) (W :: rest) qv s
                       = solve fmt_g kb (S n) rest qv (printf "hello" s)).
  { intros r. cbn [solve].
    rewrite (builtin_call_write fmt_g _ W H s EW),
            (print_term_hello fmt_g n H s EH).
    reflexivity. }
  split; [apply Hw|]. split; [intros m goals s1 s'; apply solve_out|].
  exists (printf "hello" s). rewrite Hw. cbn [solve].
  rewrite (builtin_call_fail fmt_g n Fl (printf "hello" s)) by exact EF.
  repeat split.
Qed.

Lemma write_survives_backtracking_witness :
  solve fmt_none [] 2 [1%nat; 2%nat] [] write_fail_query.2
    = solve fmt_none [] 1 [2%nat] [] (printf "hello" write_fail_query.2) ∧
  (∀ m goals s1 s',
     solve fmt_none [] m goals [] s1 = Ret s' → out_grows s1 s') ∧
  ∃ s', solve fmt_none [] 2 [1%nat; 2%nat] [] write_fail_query.2 = Ret s' ∧
        out s' = String.append (out write_fail_query.2) "hello" ∧
        g_solution_count s' = g_solution_count write_fail_query.2.
Proof.
  apply (write_survives_backtracking fmt_none [] 0 1 0 2 [2%nat] []
           write_fail_query.2); reflexivity.
Defined.

(** The whole run of the query [write(hello), fail]: [hello], then the
    report that there is no solution. *)
Example write_fail_run :
  ∃ s', run fmt_none 2 [] [SFun "write" [SAtom "hello"]; SAtom "fail"] = Ret s' ∧
        out s' = String.append "hello" (String.append "false." LF) ∧
        g_solution_count s' = 0.
Proof. eexists. repeat split. Qed.

(** * Further properties of the engine *)

(** ** [deref] *)

(** X1: when [deref] returns, the node it returns is not a bound variable
    (it is an unbound variable, a number or a compound), and dereferencing
    that node again, with any fuel, gives the same node.  A chain of [c]
    bound variables is followed with any fuel from [c] on. *)
Theorem deref_reaches_unbound (n : nat) (h : list Term) (t t' : addr) :
  deref n h t = Ret t' →
  (∃ node, h !! t' = Some node ∧ unbound_node node) ∧
  (∀ m, deref m h t' = Ret t') ∧
  (∀ m, (n ≤ m)%nat → deref m h t = Ret t').
Proof.
  intros H. destruct (deref_Ret _ _ _ _ H) as (node & E & U).
  split; [eauto|]. split.
  - intros m. eapply deref_stop; eassumption.
  - intros m Hm. eapply deref_mono; eassumption.
Qed.

Lemma deref_reaches_unbound_witness :
  (∃ node, heap chain_state !! 2%nat = Some node ∧ unbound_node node) ∧
  (∀ m, deref m (heap chain_state) 2 = Ret 2%nat) ∧
  (∀ m, (2 ≤ m)%nat → deref m (heap chain_state) 0 = Ret 2%nat).
Proof.
  apply (deref_reaches_unbound 2 (heap chain_state) 0 2). reflexivity.
Defined.

(** ** What [unify] changes *)

Lemma unbind_spec v h h' :
  unbind v h = Ret h' →
  length h' = length h ∧
  (∃ id r nm an, h !! v = Some (Var id r nm an) ∧
                 h' !! v = Some (Var id None nm an)) ∧
  (∀ t, t ≠ v → h' !! t = h !! t).
Proof.
  unfold unbind. destruct (h !! v) as [[id r nm an| |]|] eqn:E; intros H;
    inv_ret.
  assert (v < length h)%nat by (eapply lookup_lt_Some; eassumption).
  split; [apply length_insert|]. split.
  - exists id, r, nm, an. split; [reflexivity|].
    apply list_lookup_insert_eq. assumption.
  - intros t Ht. apply list_lookup_insert_ne. auto.
Qed.

Lemma undo_spec l : ∀ h1 h,
  undo l h1 = Ret h →
  length h = length h1 ∧
  ∀ t, (t ∉ l → h !! t = h1 !! t) ∧
       (t ∈ l → ∃ id r nm an, h1 !! t = Some (Var id r nm an) ∧
                               h !! t = Some (Var id None nm an)).
Proof.
  induction l as [|v l IH]; intros h1 h H; simpl in H; inv_ret.
  - split; [reflexivity|]. intros t. split; [reflexivity|].
    intros Hin. inversion Hin.
  - apply unbind_spec in Hx as (Hlen & (id & r & nm & an & E1 & E2) & Hne).
    apply IH in H as (Hlen' & Hl). split; [congruence|]. intros t.
    destruct (Hl t) as [Hout Hin]. split.
    + intros Hnot. rewrite Hout by (intros ?; apply Hnot; by right).
      apply Hne. intros ->. apply Hnot. by left.
    + intros Ht. destruct (decide (t ∈ l)) as [Hi|Hi].
      * destruct (Hin Hi) as (id' & r' & nm' & an' & E1' & E2').
        destruct (decide (t = v)) as [->|Htv].
        -- rewrite E2 in E1'. injection E1' as <- <- <- <-. eauto 8.
        -- rewrite (Hne t Htv) in E1'. eauto 8.
      * assert (t = v) as -> by (inversion Ht; subst; tauto).
        rewrite Hout by assumption. eauto 8.
Qed.

(** X2: [unify] allocates nothing and changes nothing but binding slots of
    variables that were unbound: when it returns, with either answer, the
    heap has its old length, every node that is not among the entries it
    pushed on the trail is as it was, and every pushed entry is a variable
    that was unbound before the call and differs at most in its binding
    slot.  Numbers, compounds and bound variables are never written. *)
Theorem unify_binds_only_unbound (n : nat) (a b : addr) (s s1 : State)
    (ok : bool) :
  unify n a b s = Ret (ok, s1) →
  ∃ l, g_trail s1 = l ++ g_trail s ∧
       length (heap s1) = length (heap s) ∧
       (∀ t, t ∉ l → heap s1 !! t = heap s !! t) ∧
       (∀ t, t ∈ l → ∃ id r nm an,
                heap s !! t = Some (Var id None nm an) ∧
                heap s1 !! t = Some (Var id r nm an)) ∧
       (∀ t node, heap s !! t = Some node → is_unbound_var node = false →
                  heap s1 !! t = Some node).
Proof.
  intros H. apply unify_extends in H as (l & Ht & Hu & _).
  apply undo_spec in Hu as (Hlen & Hl). exists l.
  split; [exact Ht|]. split; [congruence|]. split; [|split].
  - intros t Hnot. symmetry. apply Hl, Hnot.
  - intros t Hin. destruct (proj2 (Hl t) Hin) as (id & r & nm & an & E1 & E2).
    eauto 8.
  - intros t node E Hnode. destruct (decide (t ∈ l)) as [Hin|Hnot].
    + destruct (proj2 (Hl t) Hin) as (id & r & nm & an & E1 & E2).
      rewrite E in E2. injection E2 as ->. discriminate.
    + rewrite <- E. symmetry. apply Hl, Hnot.
Qed.

Lemma unify_binds_only_unbound_witness :
  ∃ l, g_trail roundtrip_bound_state = l ++ g_trail roundtrip_state ∧
       length (heap roundtrip_bound_state) = length (heap roundtrip_state) ∧
       (∀ t, t ∉ l →
             heap roundtrip_bound_state !! t = heap roundtrip_state !! t) ∧
       (∀ t, t ∈ l → ∃ id r nm an,
                heap roundtrip_state !! t = Some (Var id None nm an) ∧
                heap roundtrip_bound_state !! t = Some (Var id r nm an)) ∧
       (∀ t node, heap roundtrip_state !! t = Some node →
                  is_unbound_var node = false →
                  heap roundtrip_bound_state !! t = Some node).
Proof.
  apply (unify_binds_only_unbound 2 2 5 roundtrip_state roundtrip_bound_state
           true).
  reflexivity.
Defined.

(** ** Backtracking restores the bindings *)

Lemma unbind_app v h h' new :
  unbind v h = Ret h' → unbind v (h ++ new) = Ret (h' ++ new).
Proof.
  unfold unbind. destruct (h !! v) as [[id r nm an| |]|] eqn:E; intros H;
    inv_ret.
  assert (v < length h)%nat by (eapply lookup_lt_Some; eassumption).
  rewrite lookup_app_l, E by assumption. rewrite insert_app_l by assumption.
  reflexivity.
Qed.

Lemma undo_app_heap l : ∀ h h' new,
  undo l h = Ret h' → undo l (h ++ new) = Ret (h' ++ new).
Proof.
  induction l as [|v l IH]; intros h h' new H; simpl in H |- *; inv_ret;
    [reflexivity|].
  rewrite (unbind_app _ _ _ new Hx). simpl. apply IH, H.
Qed.

Lemma evolves_refl s : evolves s s.
Proof.
  exists [], []. simpl. rewrite app_nil_r. repeat split. lia.
Qed.

Lemma evolves_trans s1 s2 s3 : evolves s1 s2 → evolves s2 s3 → evolves s1 s3.
Proof.
  intros (l1 & n1 & Ht1 & Hu1 & Hc1) (l2 & n2 & Ht2 & Hu2 & Hc2).
  exists (l2 ++ l1), (n1 ++ n2). split; [|split; [|lia]].
  - rewrite Ht2, Ht1. apply app_assoc.
  - rewrite undo_app, Hu2. simpl.
    rewrite (undo_app_heap _ _ _ n2 Hu1), app_assoc. reflexivity.
Qed.

Lemma restored_evolves s s' : restored s s' → evolves s s'.
Proof.
  intros (Ht & (new & Hh) & Hc). exists [], new. simpl.
  rewrite Ht, Hh. auto.
Qed.

Lemma restored_trans s1 s2 s3 :
  restored s1 s2 → restored s2 s3 → restored s1 s3.
Proof.
  intros (Ht1 & (n1 & Hh1) & Hc1) (Ht2 & (n2 & Hh2) & Hc2).
  split; [congruence|]. split; [|lia].
  exists (n1 ++ n2). rewrite Hh2, Hh1, app_assoc. reflexivity.
Qed.

Lemma extends_evolves s s' : extends s s' → evolves s s'.
Proof.
  intros (l & Ht & Hu & _ & Hc). exists l, []. rewrite app_nil_r.
  split; [exact Ht|]. split; [exact Hu|lia].
Qed.

Lemma only_allocates_restored s s' : only_allocates s s' → restored s s'.
Proof.
  intros ((new & Hh) & Ht & _ & Hc). split; [exact Ht|]. split; [eauto|lia].
Qed.

Lemma prints_only_restored s s' : prints_only s s' → restored s s'.
Proof.
  intros (Hh & Ht & Hc). split; [exact Ht|]. split; [|lia].
  exists []. rewrite app_nil_r. exact Hh.
Qed.

Lemma prints_only_refl s : prints_only s s.
Proof. repeat split. Qed.

Lemma prints_only_trans s1 s2 s3 :
  prints_only s1 s2 → prints_only s2 s3 → prints_only s1 s3.
Proof. intros (?&?&?) (?&?&?). repeat split; congruence. Qed.

Lemma prints_only_printf str s : prints_only s (printf str s).
Proof. repeat split. Qed.

(** Unwinding to the mark taken in [s] undoes everything since. *)
Lemma evolves_unwind s s3 s4 :
  evolves s s3 → trail_unwind (trail_mark s) s3 = Ret s4 → restored s s4.
Proof.
  intros (l & new & Ht & Hu & Hc). unfold trail_unwind, trail_mark.
  rewrite Ht, unwind_loop_app, Hu by lia. cbn [mbind Res_bind].
  rewrite unwind_loop_done by lia. cbn [mbind Res_bind]. intros [= <-].
  split; [reflexivity|]. split; [eauto|exact Hc].
Qed.

Lemma trail_unwind_count m s s' :
  trail_unwind m s = Ret s' → g_solution_count s' = g_solution_count s.
Proof. unfold trail_unwind. intros H. inv_ret. reflexivity. Qed.

Section Frames.

Variable fmt_g : float → string.
Variable g_kb : KB.

Lemma print_args_frame (pt : addr → State → Res State) :
  (∀ t s s', pt t s = Ret s' → prints_only s s') →
  ∀ l first s s', print_args pt first l s = Ret s' → prints_only s s'.
Proof.
  intros Hp l. induction l as [|t l IH]; intros first s s' H; simpl in H;
    inv_ret; [apply prints_only_refl|].
  apply Hp in Hx. apply IH in H.
  eapply prints_only_trans; [|exact H].
  eapply prints_only_trans; [|exact Hx].
  destruct first; [apply prints_only_refl|apply prints_only_printf].
Qed.

Lemma print_list_loop_frame (pt : addr → State → Res State) :
  (∀ t s s', pt t s = Ret s' → prints_only s s') →
  ∀ n first t s s', print_list_loop pt n first t s = Ret s' → prints_only s s'.
Proof.
  intros Hp n. induction n as [|n IH]; intros first t s s' H; simpl in H;
    [discriminate|].
  inv_ret. rename x into t'.
  assert (Hpre : prints_only s (if first then s else printf ", " s))
    by (destruct first; [apply prints_only_refl|apply prints_only_printf]).
  assert (Himp : pt t' (printf "| " (if first then s else printf ", " s))
                 = Ret s' → prints_only s s').
  { intros Hi. apply Hp in Hi.
    eapply prints_only_trans; [exact Hpre|].
    eapply prints_only_trans; [apply prints_only_printf|exact Hi]. }
  destruct (heap s !! t') as [[| |nm args]|]; inv_ret; auto.
  destruct (_ && _); inv_ret; [apply prints_only_refl|].
  destruct (_ && _); inv_ret; auto.
  apply Hp in Hx1. apply IH in H.
  eapply prints_only_trans; [exact Hpre|].
  eapply prints_only_trans; [exact Hx1|exact H].
Qed.

Lemma print_term_frame n t s s' :
  print_term fmt_g n t s = Ret s' → prints_only s s'.
Proof.
  revert t s s'. induction n as [|n IH]; intros t s s' H; simpl in H;
    [discriminate|].
  inv_ret. rename x into t'.
  destruct (heap s !! t') as [[| |nm args]|]; inv_ret;
    try apply prints_only_printf.
  destruct x.
  - unfold print_list in H. inv_ret.
    eapply print_list_loop_frame in Hx1; [|exact IH].
    eapply prints_only_trans; [apply prints_only_printf|].
    eapply prints_only_trans; [exact Hx1|apply prints_only_printf].
  - destruct (_ >? _); inv_ret; [|apply prints_only_printf].
    eapply print_args_frame in Hx1; [|exact IH].
    eapply prints_only_trans; [apply prints_only_printf|].
    eapply prints_only_trans; [apply prints_only_printf|].
    eapply prints_only_trans; [exact Hx1|apply prints_only_printf].
Qed.

Lemma print_bindings_frame n S :
  ∀ first s s', print_bindings fmt_g n first S s = Ret s' → prints_only s s'.
Proof.
  induction S as [|v S IH]; intros first s s' H; simpl in H; inv_ret;
    [apply prints_only_refl|].
  apply print_term_frame in Hx0. apply IH in H.
  eapply prints_only_trans; [|exact H].
  eapply prints_only_trans; [|exact Hx0].
  eapply prints_only_trans; [|apply prints_only_printf].
  destruct first; [apply prints_only_refl|apply prints_only_printf].
Qed.

Lemma print_solution_frame n S s s' :
  print_solution fmt_g n S s = Ret s' → prints_only s s'.
Proof.
  unfold print_solution. destruct S; intros H; inv_ret;
    [apply prints_only_printf|].
  apply print_bindings_frame in Hx.
  eapply prints_only_trans; [exact Hx|apply prints_only_printf].
Qed.

(** A built-in that answers 1 may leave bindings, recorded on the trail;
    one that answers anything else leaves the heap and the trail as they
    were. *)
Lemma builtin_call_effect n G s bi s' :
  builtin_call fmt_g n G s = Ret (bi, s') →
  (bi = 1 ∨ bi = 0 ∨ bi = -1) ∧
  (bi = 1 → extends s s' ∨ prints_only s s') ∧
  (bi ≠ 1 → prints_only s s').
Proof.
  unfold builtin_call. intros H. inv_ret.
  repeat match type of H with
         | (if ?c then _ else _) = _ => destruct c
         | _ => progress inv_ret
         end;
    repeat match goal with
    | Hu : unify _ _ _ _ = Ret _ |- _ =>
        pose proof (unify_unwind _ _ _ _ _ _ Hu); apply unify_extends in Hu
    | Hp : print_term _ _ _ _ = Ret _ |- _ => apply print_term_frame in Hp
    end;
    try match goal with
        | |- context [if ?b then _ else _] => destruct b
        end;
    (split; [first [by left | by (right; left) | by (right; right)]|]);
    (split; intros Hbi); try lia;
    auto using prints_only_refl, prints_only_printf;
    match goal with
    | Hw : trail_unwind ?m ?s1 = Ret ?s2, Hw' : trail_unwind ?m ?s1 = Ret ?s
      |- prints_only ?s ?s2 =>
        rewrite Hw in Hw'; injection Hw' as <-; apply prints_only_refl
    | Hw : trail_unwind ?m ?s1 = Ret ?s2, Hw' : trail_unwind ?m ?s1 = Ret ?s
      |- _ ∨ prints_only ?s ?s2 =>
        rewrite Hw in Hw'; injection Hw' as <-; right; apply prints_only_refl
    | _ => idtac
    end.
Qed.

Lemma try_clauses_restored (slv : list addr → State → Res State) n G rest :
  (∀ g s s', slv g s = Ret s' → evolves s s') →
  ∀ cls s s', try_clauses slv n G rest cls s = Ret s' → restored s s'.
Proof.
  intros Hs cls. induction cls as [|cl cls IH]; intros s s' H; simpl in H;
    inv_ret; [apply prints_only_restored, prints_only_refl|].
  destruct (heap s !! x) as [tG|]; [|discriminate].
  destruct (heap s !! head cl) as [tH|]; [|discriminate].
  destruct (functor_filter tG tH); [|eauto]. inv_ret.
  apply IH in H. eapply restored_trans; [|exact H].
  eapply evolves_unwind; [|eassumption].
  match goal with
  | Hc : copy_term _ _ _ _ = _ |- _ =>
      apply copy_term_allocates, only_allocates_restored, restored_evolves in Hc
  end.
  match goal with
  | Hu : unify _ _ _ _ = Ret _ |- _ =>
      apply unify_extends, extends_evolves in Hu
  end.
  eapply evolves_trans; [eassumption|]. eapply evolves_trans; [eassumption|].
  match goal with
  | Hb : (if ?ok then _ else _) = Ret _ |- _ => destruct ok; inv_ret
  end; [|apply evolves_refl].
  match goal with
  | Hc : copy_terms _ _ _ _ = _ |- _ =>
      apply (copy_terms_allocates _ (copy_term_allocates n)) in Hc as [Hc _];
      apply only_allocates_restored, restored_evolves in Hc
  end.
  match goal with Hv : slv _ _ = _ |- _ => apply Hs in Hv end.
  eapply evolves_trans; eassumption.
Qed.

Lemma count_solution_evolves s : evolves s (count_solution s).
Proof.
  exists [], []. simpl. rewrite app_nil_r. repeat split. lia.
Qed.

Lemma solve_evolves n goals qv s s' :
  solve fmt_g g_kb n goals qv s = Ret s' → evolves s s'.
Proof.
  revert goals s s'. induction n as [|n IH]; intros goals s s' H; simpl in H;
    [discriminate|].
  destruct goals as [|G rest].
  - apply print_solution_frame, prints_only_restored, restored_evolves in H.
    eapply evolves_trans; [apply count_solution_evolves|exact H].
  - inv_ret.
    match goal with
    | Hb : builtin_call _ _ _ _ = _ |- _ =>
        apply builtin_call_effect in Hb as (_ & Hb1 & Hb0)
    end.
    destruct (Z.eqb_spec z 1) as [->|Hne].
    + apply IH in H. eapply evolves_trans; [|exact H].
      destruct (Hb1 eq_refl) as [He|Hp];
        [apply extends_evolves, He
        |apply restored_evolves, prints_only_restored, Hp].
    + pose proof (Hb0 Hne) as Hp.
      apply prints_only_restored, restored_evolves in Hp.
      eapply evolves_trans; [exact Hp|].
      destruct (z =? 0); inv_ret; [apply evolves_refl|].
      apply restored_evolves. eapply try_clauses_restored; [|exact H].
      intros g s1 s1' Hg. eapply IH. exact Hg.
Qed.

End Frames.

(** X3: whatever [solve] does to the bindings can be undone from the mark
    taken before the call.  When [solve] returns, the trail is the old
    trail with entries pushed on top, solutions were only counted up, and
    unwinding to the old mark returns the old trail and the old heap
    followed by the nodes allocated meanwhile.  Numbers, compounds and
    bound variables that existed before the call are never written. *)
Theorem solve_can_be_undone (fmt_g : float → string) (kb : KB) (n : nat)
    (goals : list addr) (qv : VSet) (s s' : State) :
  solve fmt_g kb n goals qv s = Ret s' →
  ∃ l new,
    g_trail s' = l ++ g_trail s ∧
    g_solution_count s ≤ g_solution_count s' ∧
    trail_unwind (trail_mark s) s'
      = Ret (mkState (heap s ++ new) (g_trail s) (out s')
               (g_solution_count s')) ∧
    (∀ t node, heap s !! t = Some node → is_unbound_var node = false →
               heap s' !! t = Some node).
Proof.
  intros H. apply solve_evolves in H as (l & new & Ht & Hu & Hc).
  exists l, new. split; [exact Ht|]. split; [exact Hc|]. split.
  - unfold trail_unwind, trail_mark.
    rewrite Ht, unwind_loop_app, Hu by lia. cbn [mbind Res_bind].
    rewrite unwind_loop_done by lia. reflexivity.
  - intros t node E Hnode. apply undo_spec in Hu as (_ & Hl).
    assert (E' : (heap s ++ new) !! t = Some node)
      by (apply lookup_app_l_Some, E).
    destruct (decide (t ∈ l)) as [Hin|Hnot].
    + destruct (proj2 (Hl t) Hin) as (id & r & nm & an & E1 & E2).
      rewrite E' in E2. injection E2 as ->. discriminate.
    + rewrite <- E'. symmetry. apply Hl, Hnot.
Qed.

Lemma solve_can_be_undone_witness :
  ∃ s', solve fmt_none [] 4 bind_query.1 [0%nat] bind_query.2 = Ret s' ∧
        g_trail s' = [0%nat] ∧
        ∃ l new,
          g_trail s' = l ++ g_trail bind_query.2 ∧
          g_solution_count bind_query.2 ≤ g_solution_count s' ∧
          trail_unwind (trail_mark bind_query.2) s'
            = Ret (mkState (heap bind_query.2 ++ new) (g_trail bind_query.2)
                     (out s') (g_solution_count s')) ∧
          (∀ t node, heap bind_query.2 !! t = Some node →
                     is_unbound_var node = false →
                     heap s' !! t = Some node).
Proof.
  eexists. split; [vm_compute; reflexivity|]. split; [reflexivity|].
  apply (solve_can_be_undone fmt_none [] 4 bind_query.1 [0%nat] bind_query.2).
  vm_compute. reflexivity.
Defined.

(** X4: a goal that is no built-in leaves no binding behind.  When
    [solve] returns from a goal list whose first goal [builtin_call]
    answers -1 for, the trail is exactly the trail before the call and the
    heap is the heap before the call followed by the nodes allocated for
    the renamed clauses: every binding made while the clauses were tried,
    solutions or not, has been undone. *)
Theorem clause_goal_leaves_no_binding (fmt_g : float → string) (kb : KB)
    (n : nat) (G : addr) (rest : list addr) (qv : VSet) (s s1 s' : State) :
  builtin_call fmt_g n G s = Ret (-1, s1) →
  solve fmt_g kb (S n) (G :: rest) qv s = Ret s' →
  g_trail s' = g_trail s ∧
  (∃ new, heap s' = heap s ++ new) ∧
  (∀ t node, heap s !! t = Some node → heap s' !! t = Some node).
Proof.
  intros Hb H. cbn [solve] in H. rewrite Hb in H.
  cbn [mbind Res_bind Z.eqb] in H.
  apply builtin_call_effect in Hb as (_ & _ & Hp).
  destruct Hp as (Hh & Ht & Hc); [lia|].
  apply try_clauses_restored in H as (Ht' & (new & Hh') & _).
  - split; [congruence|]. split.
    + exists new. congruence.
    + intros t node E. rewrite Hh', Hh. apply lookup_app_l_Some, E.
  - intros g s2 s2' Hg. eapply solve_evolves. exact Hg.
Qed.

Lemma clause_goal_leaves_no_binding_witness :
  ∃ s', solve fmt_none family_kb 9 [21%nat] [19%nat] (ancestor_query "carol").2
          = Ret s' ∧
        g_solution_count s' = 2 ∧
        g_trail s' = g_trail (ancestor_query "carol").2 ∧
        (∃ new, heap s' = heap (ancestor_query "carol").2 ++ new) ∧
        (∀ t node, heap (ancestor_query "carol").2 !! t = Some node →
                   heap s' !! t = Some node).
Proof.
  eexists. split; [vm_compute; reflexivity|]. split; [reflexivity|].
  apply (clause_goal_leaves_no_binding fmt_none family_kb 8 21 [] [19%nat]
           (ancestor_query "carol").2 (ancestor_query "carol").2);
    vm_compute; reflexivity.
Defined.

(** ** Unwinding to a mark *)

Lemma unbind_keeps_vars v h h' t :
  unbind v h = Ret h' → is_var_at h t → is_var_at h' t.
Proof.
  intros H (id & r & nm & an & E).
  apply unbind_spec in H as (_ & (id' & r' & nm' & an' & E1 & E2) & Hne).
  destruct (decide (t = v)) as [->|Htv].
  - exists id', None, nm', an'. exact E2.
  - exists id, r, nm, an. rewrite Hne by assumption. exact E.
Qed.

Lemma undo_total l : ∀ h,
  Forall (is_var_at h) l → ∃ h', undo l h = Ret h'.
Proof.
  induction l as [|v l IH]; intros h Hall; simpl; [eauto|].
  inversion Hall as [|? ? (id & r & nm & an & E) Hall']; subst.
  unfold unbind at 1. rewrite E. cbn [mbind Res_bind]. apply IH.
  eapply Forall_impl; [exact Hall'|]. intros t Ht.
  eapply unbind_keeps_vars; [|exact Ht]. unfold unbind. rewrite E. reflexivity.
Qed.

Lemma unwind_loop_negative m tr : ∀ h r,
  m < 0 → unwind_loop m tr h ≠ Ret r.
Proof.
  induction tr as [|v tr IH]; intros h r Hm; cbn [unwind_loop];
    (destruct (Z.gtb_spec (Z.of_nat (length (v :: tr))) m) as [_|Hle] ||
     destruct (Z.gtb_spec (Z.of_nat (length (@nil nat))) m) as [_|Hle]);
    try (simpl in Hle; lia); try discriminate.
  destruct (unbind v h) as [h'| |]; simpl; try discriminate.
  apply IH, Hm.
Qed.

(** X5: on a trail whose entries are variable nodes, [trail_unwind] to a
    checkpoint [m] between 0 and the trail length returns; it leaves the
    [m] oldest entries on the trail, sets the binding slot of every popped
    variable to unbound and changes no other node, the output or the
    solution count.  With a negative checkpoint it never returns normally:
    the loop runs off the bottom of the trail. *)
Theorem trail_unwind_pops_to_mark (m : nat) (s : State) :
  Forall (is_var_at (heap s)) (g_trail s) →
  (m ≤ length (g_trail s))%nat →
  let popped := take (length (g_trail s) - m) (g_trail s) in
  (∃ s', trail_unwind (Z.of_nat m) s = Ret s' ∧
         g_trail s' = drop (length (g_trail s) - m) (g_trail s) ∧
         length (g_trail s') = m ∧
         out s' = out s ∧ g_solution_count s' = g_solution_count s ∧
         length (heap s') = length (heap s) ∧
         (∀ t, t ∈ popped → ∃ id r nm an,
                  heap s !! t = Some (Var id r nm an) ∧
                  heap s' !! t = Some (Var id None nm an)) ∧
         (∀ t, t ∉ popped → heap s' !! t = heap s !! t)) ∧
  (∀ z s', z < 0 → trail_unwind z s ≠ Ret s').
Proof.
  intros Hall Hm popped. split.
  - set (k := (length (g_trail s) - m)%nat) in *.
    assert (Hsplit : g_trail s = popped ++ drop k (g_trail s))
      by (symmetry; apply take_drop).
    assert (Hlen : length (drop k (g_trail s)) = m)
      by (rewrite length_drop; lia).
    destruct (undo_total popped (heap s)) as (h' & Hu).
    { subst popped. apply Forall_take, Hall. }
    exists (mkState h' (drop k (g_trail s)) (out s) (g_solution_count s)).
    split; [|split; [reflexivity|split; [exact Hlen|]]].
    + unfold trail_unwind. rewrite Hsplit at 1.
      rewrite unwind_loop_app, Hu by lia. cbn [mbind Res_bind].
      rewrite unwind_loop_done by lia. reflexivity.
    + apply undo_spec in Hu as (Hl & Hspec). simpl.
      split; [reflexivity|]. split; [reflexivity|]. split; [exact Hl|].
      split; intros t Ht; apply Hspec, Ht.
  - intros z s' Hz H. unfold trail_unwind in H. inv_ret.
    eapply unwind_loop_negative; eassumption.
Qed.

Lemma trail_unwind_pops_to_mark_witness :
  (∃ s', trail_unwind 1 two_binding_state = Ret s' ∧
         g_trail s' = [0%nat] ∧
         length (g_trail s') = 1%nat ∧
         out s' = out two_binding_state ∧
         g_solution_count s' = g_solution_count two_binding_state ∧
         length (heap s') = length (heap two_binding_state) ∧
         (∀ t, t ∈ [1%nat] → ∃ id r nm an,
                  heap two_binding_state !! t = Some (Var id r nm an) ∧
                  heap s' !! t = Some (Var id None nm an)) ∧
         (∀ t, t ∉ [1%nat] → heap s' !! t = heap two_binding_state !! t)) ∧
  (∀ z s', z < 0 → trail_unwind z two_binding_state ≠ Ret s').
Proof.
  apply (trail_unwind_pops_to_mark 1 two_binding_state).
  - repeat constructor; do 4 eexists; reflexivity.
  - simpl. lia.
Defined.

(** ** Renaming *)

Lemma vmap_find_snoc M o v x :
  vmap_find (M ++ [(o, v)]) x =
    match vmap_find M x with
    | Some w => Some w
    | None => if Nat.eqb o x then Some v else None
    end.
Proof.
  induction M as [|[f t] M IH]; simpl; [reflexivity|].
  destruct (Nat.eqb f x); [reflexivity|exact IH].
Qed.

(** X6: [map_get] is a lookup-or-insert.  After it has returned [v] for
    [orig], the map sends [orig] to [v]; asking again returns [v] and
    changes neither the map nor the heap; every variable the map already
    knew keeps its image and no other variable gets one.  When [orig] was
    not in the map, [v] is a node allocated by this call: an unbound
    variable carrying the name of [orig]. *)
Theorem map_get_round_trip (M M' : VMap) (orig v : addr) (s s' : State) :
  map_get M orig s = Ret (v, M', s') →
  vmap_find M' orig = Some v ∧
  map_get M' orig s' = Ret (v, M', s') ∧
  (∀ o, o ≠ orig → vmap_find M' o = vmap_find M o) ∧
  (∀ w, vmap_find M orig = Some w → v = w ∧ M' = M ∧ s' = s) ∧
  (vmap_find M orig = None →
   ∃ o, heap s !! orig = Some o ∧
        v = length (heap s) ∧ M' = M ++ [(orig, v)] ∧
        heap s' = heap s ++ [Var 0 None (Some (fresh_name o))
                               (starts_with_underscore (fresh_name o))]).
Proof.
  unfold map_get. destruct (vmap_find M orig) as [w|] eqn:E.
  - intros [= <- <- <-]. rewrite E.
    split; [reflexivity|]. split; [reflexivity|]. split; [reflexivity|].
    split; [|discriminate]. intros w' [= <-]. auto.
  - destruct (heap s !! orig) as [o|] eqn:Eo; [|discriminate].
    unfold mk_var, alloc. cbn [fst snd]. intros [= <- <- <-].
    assert (Hf : vmap_find (M ++ [(orig, length (heap s))]) orig
                 = Some (length (heap s)))
      by (rewrite vmap_find_snoc, E, Nat.eqb_refl; reflexivity).
    split; [exact Hf|]. split; [rewrite Hf; reflexivity|]. split; [|split].
    + intros o' Hne. rewrite vmap_find_snoc.
      destruct (vmap_find M o'); [reflexivity|].
      destruct (Nat.eqb_spec orig o'); [congruence|reflexivity].
    + discriminate.
    + intros _. exists o. repeat split.
Qed.

Lemma map_get_round_trip_witness :
  ∃ v M' s',
    map_get [] 9 (ancestor_query "carol").2 = Ret (v, M', s') ∧
    vmap_find M' 9 = Some v ∧
    map_get M' 9 s' = Ret (v, M', s').
Proof.
  do 3 eexists. split; [vm_compute; reflexivity|].
  match goal with
  | |- vmap_find ?M' _ = Some ?v ∧ map_get _ _ ?s' = _ =>
      destruct (map_get_round_trip [] M' 9 v (ancestor_query "carol").2 s'
                  ltac:(vm_compute; reflexivity)) as (H1 & H2 & _)
  end.
  split; assumption.
Defined.

Lemma renames_refl M s s' : renames M M s s'.
Proof. split; auto. Qed.

Lemma renames_trans M1 M2 M3 s1 s2 s3 :
  only_allocates s1 s2 → only_allocates s2 s3 →
  renames M1 M2 s1 s2 → renames M2 M3 s2 s3 → renames M1 M3 s1 s3.
Proof.
  intros (Hp1 & _) (Hp2 & _) (Hm1 & Hf1) (Hm2 & Hf2). split; [auto|].
  intros o w H3. destruct (Hf2 o w H3) as [H2|(H2 & Hw & Hu)].
  - destruct (Hf1 o w H2) as [H1|(H1 & Hw & nm & an & Hu)]; [auto|].
    right. split; [exact H1|]. split; [exact Hw|]. exists nm, an.
    eapply prefix_lookup_Some; eassumption.
  - right. split; [|split; [|exact Hu]].
    + destruct (vmap_find M1 o) as [w1|] eqn:E1; [|reflexivity].
      rewrite (Hm1 o w1 E1) in H2. discriminate.
    + apply prefix_length in Hp1. lia.
Qed.

Lemma map_get_renames M t s c M' s' :
  map_get M t s = Ret (c, M', s') → renames M M' s s'.
Proof.
  intros H. apply map_get_round_trip in H as (Hf & _ & Hne & Hsome & Hnone).
  destruct (vmap_find M t) as [w|] eqn:E.
  - destruct (Hsome w eq_refl) as (_ & -> & ->). apply renames_refl.
  - destruct (Hnone eq_refl) as (o & Eo & -> & -> & Hh). split.
    + intros o' w' H'. destruct (decide (o' = t)) as [->|Hd]; [congruence|].
      rewrite Hne by assumption. exact H'.
    + intros o' w' H'. destruct (decide (o' = t)) as [->|Hd].
      * right. split; [exact E|]. rewrite Hf in H'. injection H' as <-.
        split; [lia|]. rewrite Hh. do 2 eexists.
        apply list_lookup_middle. reflexivity.
      * left. rewrite <- Hne by assumption. exact H'.
Qed.

Lemma copy_terms_renames
    (cp : addr → VMap → State → Res (addr * VMap * State)) :
  (∀ t M s c M' s', cp t M s = Ret (c, M', s') →
                    only_allocates s s' ∧ renames M M' s s') →
  ∀ l M s cs M' s',
    copy_terms cp l M s = Ret (cs, M', s') → renames M M' s s'.
Proof.
  intros Hcp l. induction l as [|t l IH]; intros M s cs M' s' H; simpl in H;
    inv_ret; [apply renames_refl|].
  pose proof (copy_terms_allocates cp (λ t M s c M' s' H, proj1 (Hcp _ _ _ _ _ _ H))
                _ _ _ _ _ _ Hx0) as [Ha2 _].
  apply IH in Hx0. apply Hcp in Hx as [Ha1 Hr1].
  eapply renames_trans; eassumption.
Qed.

Lemma copy_term_renames n t M s c M' s' :
  copy_term n t M s = Ret (c, M', s') → renames M M' s s'.
Proof.
  revert t M s c M' s'. induction n as [|n IH]; intros t M s c M' s' H;
    cbn [copy_term] in H; [discriminate|].
  destruct (heap s !! t) as [[| |nm args]|]; inv_ret;
    unfold mk_num, mk_struct in *.
  - eapply map_get_renames; eassumption.
  - apply renames_refl.
  - match goal with H : alloc _ _ = _ |- _ => apply alloc_spec in H as [H _] end.
    pose proof (copy_terms_allocates _ (copy_term_allocates n)
                  _ _ _ _ _ _ Hx) as [Ha _].
    apply copy_terms_renames in Hx.
    + eapply renames_trans; [exact Ha|eassumption|exact Hx|apply renames_refl].
    + intros ? ? ? ? ? ? H0. split;
        [eapply copy_term_allocates|eapply IH]; exact H0.
Qed.

Lemma alloc_addr t s a s' : alloc t s = (a, s') → a = length (heap s).
Proof. unfold alloc. intros [= <- _]. reflexivity. Qed.

Lemma is_copy_mono d M M' h h' b b' e e' t c :
  (∀ o w, vmap_find M o = Some w → vmap_find M' o = Some w) →
  h `prefix_of` h' → (b' ≤ b)%nat → (e ≤ e')%nat →
  is_copy d M h b e t c → is_copy d M' h' b' e' t c.
Proof.
  intros HM Hp Hb He. revert t c.
  induction d as [|d IH]; intros t c; cbn [is_copy]; [tauto|].
  destruct (h !! t) as [node|] eqn:E; [|tauto].
  rewrite (prefix_lookup_Some _ _ _ _ E Hp).
  destruct node as [| |nm args].
  - apply HM.
  - intros (Hc & Ec). split; [lia|]. eapply prefix_lookup_Some; eassumption.
  - intros (Hc & cs & Ec & Hcs). split; [lia|]. exists cs.
    split; [eapply prefix_lookup_Some; eassumption|].
    eapply Forall2_impl; [exact Hcs|]. intros x y. apply IH.
Qed.

Lemma copy_terms_is_copy d
    (cp : addr → VMap → State → Res (addr * VMap * State)) :
  (∀ t M s c M' s', cp t M s = Ret (c, M', s') →
     only_allocates s s' ∧ renames M M' s s' ∧
     is_copy d M' (heap s') (length (heap s)) (length (heap s')) t c) →
  ∀ l M s cs M' s',
    copy_terms cp l M s = Ret (cs, M', s') →
    Forall2 (is_copy d M' (heap s') (length (heap s)) (length (heap s')))
      l cs.
Proof.
  intros Hcp l. induction l as [|t l IH]; intros M s cs M' s' H; simpl in H;
    inv_ret; [constructor|].
  pose proof (copy_terms_allocates cp
                (λ t M s c M' s' H, proj1 (Hcp _ _ _ _ _ _ H))
                _ _ _ _ _ _ Hx0) as [(Hp2 & _) _].
  pose proof (copy_terms_renames cp
                (λ t M s c M' s' H,
                   conj (proj1 (Hcp _ _ _ _ _ _ H))
                        (proj1 (proj2 (Hcp _ _ _ _ _ _ H))))
                _ _ _ _ _ _ Hx0) as (HM2 & _).
  apply IH in Hx0. apply Hcp in Hx as ((Hp1 & _) & _ & Hc).
  pose proof (prefix_length _ _ Hp1). pose proof (prefix_length _ _ Hp2).
  constructor.
  - eapply is_copy_mono; [exact HM2|exact Hp2| | |exact Hc]; lia.
  - eapply Forall2_impl; [exact Hx0|]. intros x y.
    apply is_copy_mono; auto; lia.
Qed.

Lemma copy_term_is_copy n t M s c M' s' :
  copy_term n t M s = Ret (c, M', s') →
  is_copy n M' (heap s') (length (heap s)) (length (heap s')) t c.
Proof.
  revert t M s c M' s'. induction n as [|n IH]; intros t M s c M' s' H;
    [discriminate|].
  pose proof (copy_term_allocates _ _ _ _ _ _ _ H) as (Hp & _).
  cbn [copy_term] in H. cbn [is_copy].
  destruct (heap s !! t) as [node|] eqn:E; [|discriminate].
  rewrite (prefix_lookup_Some _ _ _ _ E Hp).
  destruct node as [| |nm args]; inv_ret; unfold mk_num, mk_struct in *.
  - eapply map_get_round_trip; eassumption.
  - match goal with
    | H : alloc _ _ = _ |- _ =>
        pose proof (alloc_addr _ _ _ _ H) as ->;
        apply alloc_spec in H as [_ H];
        pose proof (lookup_lt_Some _ _ _ H)
    end.
    split; [lia|assumption].
  - pose proof (copy_terms_allocates _ (copy_term_allocates n)
                  _ _ _ _ _ _ Hx) as [(Hp1 & _) _].
    apply (copy_terms_is_copy n) in Hx;
      [|intros ? ? ? ? ? ? H0; split; [eapply copy_term_allocates; exact H0|];
        split; [eapply copy_term_renames; exact H0|eapply IH; exact H0]].
    match goal with
    | H : alloc _ _ = _ |- _ =>
        pose proof (alloc_addr _ _ _ _ H) as ->;
        apply alloc_spec in H as [(Hp2 & _) H];
        pose proof (lookup_lt_Some _ _ _ H)
    end.
    pose proof (prefix_length _ _ Hp1). pose proof (prefix_length _ _ Hp2).
    split; [lia|]. eexists. split; [eassumption|].
    eapply Forall2_impl; [exact Hx|]. intros x y.
    apply is_copy_mono; auto; lia.
Qed.

(** The nodes of a copy made with a map whose images are unbound variables
    of the range are all nodes of the range. *)
Lemma is_copy_inside d M h b e t c :
  (∀ o w, vmap_find M o = Some w →
          (b ≤ w < e)%nat ∧ ∃ nm an, h !! w = Some (Var 0 None nm an)) →
  is_copy d M h b e t c →
  ∀ u, inside h c u → (b ≤ u < e)%nat.
Proof.
  intros HM. revert t c. induction d as [|d IH]; intros t c; cbn [is_copy];
    [tauto|].
  destruct (h !! t) as [[| |nm args]|]; [| | |tauto].
  - intros Hf u Hin. destruct (HM _ _ Hf) as (Hc & nm & an & Ec).
    inversion Hin; subst; [exact Hc|congruence..].
  - intros (Hc & Ec) u Hin. inversion Hin; subst; [exact Hc|congruence..].
  - intros (Hc & cs & Ec & Hcs) u Hin.
    inversion Hin as [|? ? ? ? ? ? E|? ? ? a ? E Ha Hin']; subst;
      [exact Hc|congruence|].
    rewrite Ec in E. injection E as <- <-.
    apply list_elem_of_lookup in Ha as (i & Ei).
    destruct (Forall2_lookup_r _ _ _ _ _ Hcs Ei) as (x & _ & Hx).
    eapply IH; eassumption.
Qed.



Lemma renames_images_fresh M s s' s'' :
  renames [] M s s' → heap s' `prefix_of` heap s'' →
  ∀ o w, vmap_find M o = Some w →
         (length (heap s) ≤ w < length (heap s'))%nat ∧
         ∃ nm an, heap s'' !! w = Some (Var 0 None nm an).
Proof.
  intros (_ & Hf) Hp o w E.
  destruct (Hf _ _ E) as [?|(_ & Hw & nm & an & Hu)]; [discriminate|].
  split; [apply lookup_lt_Some in Hu; lia|]. exists nm, an.
  eapply prefix_lookup_Some; eassumption.
Qed.

(** X8: two renamings of one term with two fresh maps share no node.
    Every node inside the first copy was allocated by the first call and
    every node inside the second copy by the second call, so the two copies
    have no node in common, variables included, and none in common with
    the original; binding a variable of the first copy changes no node of
    the second.  The same holds of the images in the two maps. *)
Theorem renamings_are_independent (n m : nat) (t c1 c2 : addr)
    (M1 M2 : VMap) (s s1 s2 : State) :
  copy_term n t [] s = Ret (c1, M1, s1) →
  copy_term m t [] s1 = Ret (c2, M2, s2) →
  (∀ u, inside (heap s2) c1 u →
        (length (heap s) ≤ u < length (heap s1))%nat) ∧
  (∀ u, inside (heap s2) c2 u →
        (length (heap s1) ≤ u < length (heap s2))%nat) ∧
  (∀ u1 u2, inside (heap s2) c1 u1 → inside (heap s2) c2 u2 → u1 ≠ u2) ∧
  (∀ w b u, inside (heap s2) c1 w → inside (heap s2) c2 u →
            heap (bind_var w b s2) !! u = heap s2 !! u) ∧
  (∀ o1 w1 o2 w2,
     vmap_find M1 o1 = Some w1 → vmap_find M2 o2 = Some w2 →
     w1 ≠ w2 ∧ (length (heap s) ≤ w1)%nat ∧ (length (heap s) ≤ w2)%nat ∧
     ∀ b, ∃ nm an, heap (bind_var w1 b s2) !! w2 = Some (Var 0 None nm an)).
Proof.
  intros H1 H2.
  pose proof (copy_term_allocates _ _ _ _ _ _ _ H1) as (Hp1 & _).
  pose proof (copy_term_allocates _ _ _ _ _ _ _ H2) as (Hp2 & _).
  pose proof (copy_term_renames _ _ _ _ _ _ _ H1) as Hr1.
  pose proof (copy_term_renames _ _ _ _ _ _ _ H2) as Hr2.
  pose proof (prefix_length _ _ Hp1) as Hl1.
  pose proof (prefix_length _ _ Hp2) as Hl2.
  assert (Hin1 : ∀ u, inside (heap s2) c1 u →
                      (length (heap s) ≤ u < length (heap s1))%nat).
  { eapply is_copy_inside;
      [exact (renames_images_fresh _ _ _ _ Hr1 Hp2)|].
    eapply is_copy_mono;
      [| | | |exact (copy_term_is_copy _ _ _ _ _ _ _ H1)]; auto. }
  assert (Hin2 : ∀ u, inside (heap s2) c2 u →
                      (length (heap s1) ≤ u < length (heap s2))%nat).
  { eapply is_copy_inside;
      [exact (renames_images_fresh _ _ _ _ Hr2 (reflexivity _))|].
    exact (copy_term_is_copy _ _ _ _ _ _ _ H2). }
  assert (Hbind : ∀ w b u, w ≠ u →
            heap (bind_var w b s2) !! u = heap s2 !! u).
  { intros w b u Hne. unfold bind_var.
    destruct (heap s2 !! w) as [[]|]; simpl; try reflexivity.
    apply list_lookup_insert_ne. exact Hne. }
  split; [exact Hin1|]. split; [exact Hin2|].
  split; [intros u1 u2 I1 I2; apply Hin1 in I1; apply Hin2 in I2; lia|].
  split.
  - intros w b u I1 I2. apply Hbind. apply Hin1 in I1. apply Hin2 in I2. lia.
  - intros o1 w1 o2 w2 E1 E2.
    destruct (renames_images_fresh _ _ _ _ Hr1 Hp2 _ _ E1) as (Hw1 & _).
    destruct (renames_images_fresh _ _ _ _ Hr2 (reflexivity _) _ _ E2)
      as (Hw2 & nm2 & an2 & Hu2).
    assert (Hne : w1 ≠ w2) by lia.
    split; [exact Hne|]. split; [lia|]. split; [lia|].
    intros b. exists nm2, an2. rewrite Hbind by exact Hne. exact Hu2.
Qed.

Lemma renamings_are_independent_witness :
  ∃ c1 M1 s1 c2 M2 s2,
    copy_term 2 15 [] (ancestor_query "carol").2 = Ret (c1, M1, s1) ∧
    copy_term 2 15 [] s1 = Ret (c2, M2, s2) ∧
    heap s2 !! c1 = Some (Struc "ancestor" [22; 23]%nat) ∧
    heap s2 !! c2 = Some (Struc "ancestor" [25; 26]%nat) ∧
    (∀ u, inside (heap s2) c1 u → (22 ≤ u < 25)%nat) ∧
    (∀ u, inside (heap s2) c2 u → (25 ≤ u < 28)%nat) ∧
    (∀ u1 u2, inside (heap s2) c1 u1 → inside (heap s2) c2 u2 → u1 ≠ u2).
Proof.
  do 6 eexists. split; [vm_compute; reflexivity|].
  split; [vm_compute; reflexivity|].
  split; [reflexivity|]. split; [reflexivity|].
  match goal with
  | |- (∀ u, inside (heap ?s2) _ u → _) ∧ _ =>
      destruct (renamings_are_independent 2 2 15 24 27
                  [(13%nat, 22%nat); (14%nat, 23%nat)]
                  [(13%nat, 25%nat); (14%nat, 26%nat)]
                  (ancestor_query "carol").2
                  (set_heap (heap (ancestor_query "carol").2
                             ++ [Var 0 None (Some "X"%string) false;
                                 Var 0 None (Some "Y"%string) false;
                                 Struc "ancestor" [22%nat; 23%nat]])
                     (ancestor_query "carol").2)
                  s2 ltac:(vm_compute; reflexivity)
                  ltac:(vm_compute; reflexivity))
        as (H1 & H2 & H3 & _)
  end.
  split; [exact H1|]. split; [exact H2|exact H3].
Defined.

(** ** The variables of a query *)

Lemma deref_det n m h t a b :
  deref n h t = Ret a → deref m h t = Ret b → a = b.
Proof.
  intros Ha Hb.
  apply (deref_mono n (Nat.max n m)) in Ha; [|lia].
  apply (deref_mono m (Nat.max n m)) in Hb; [|lia]. congruence.
Qed.








(** ** Printing *)

(** X10: printing never binds.  When [print_term] returns, the heap, the
    trail and the solution count are what they were; only the output has
    changed, and it has only grown. *)
Theorem print_term_only_prints (fmt_g : float → string) (n : nat) (t : addr)
    (s s' : State) :
  print_term fmt_g n t s = Ret s' →
  heap s' = heap s ∧ g_trail s' = g_trail s ∧
  g_solution_count s' = g_solution_count s ∧
  ∃ o, out s' = String.append (out s) o.
Proof.
  intros H. pose proof (print_term_out _ _ _ _ _ H) as Ho.
  apply print_term_frame in H as (Hh & Ht & Hc). auto.
Qed.

Lemma print_term_only_prints_witness :
  ∃ s', print_term fmt_none 3 4 vars_query.2 = Ret s' ∧
        out s' = "p(X, _G, f(Y, X))"%string ∧
        heap s' = heap vars_query.2 ∧ g_trail s' = g_trail vars_query.2.
Proof.
  eexists. split; [vm_compute; reflexivity|]. split; [reflexivity|].
  match goal with
  | |- heap ?s' = _ ∧ _ =>
      destruct (print_term_only_prints fmt_none 3 4 vars_query.2 s'
                  ltac:(vm_compute; reflexivity)) as (Hh & Ht & _)
  end.
  split; assumption.
Defined.

(** ** Built-ins and unknown predicates *)

Lemma builtin_call_no_builtin fmt_g n G s s' :
  builtin_call fmt_g n G s = Ret (-1, s') → s' = s.
Proof.
  unfold builtin_call. intros H. inv_ret.
  repeat match type of H with
         | (if ?c then _ else _) = _ => destruct c
         | _ => progress inv_ret
         end; try reflexivity; try discriminate.
  all: try match goal with
           | H : (if ?b then _ else _) = -1 |- _ => destruct b; discriminate
           end.
Qed.

(** X11: [builtin_call] answers 1, 0 or -1.  With -1 (no built-in) the
    state is untouched; with 0 (failure) the heap and the trail are as
    they were, so a failed [=] leaves no binding; with 1 (success) any
    binding made is on the trail, and unwinding to the mark taken before
    the call gives back the heap and the trail of before. *)
Theorem builtin_call_keeps_trail_consistent (fmt_g : float → string)
    (n : nat) (G : addr) (s s' : State) (bi : Z) :
  builtin_call fmt_g n G s = Ret (bi, s') →
  (bi = 1 ∨ bi = 0 ∨ bi = -1) ∧
  (bi = -1 → s' = s) ∧
  (bi = 0 → heap s' = heap s ∧ g_trail s' = g_trail s) ∧
  (bi = 1 → ∃ s'', trail_unwind (trail_mark s) s' = Ret s'' ∧
                    heap s'' = heap s ∧ g_trail s'' = g_trail s).
Proof.
  intros H. pose proof (builtin_call_effect _ _ _ _ _ _ H) as (Hr & H1 & H0).
  split; [exact Hr|]. split; [|split].
  - intros ->. eapply builtin_call_no_builtin; exact H.
  - intros ->. destruct H0 as (Hh & Ht & _); [lia|]. auto.
  - intros ->. destruct (H1 eq_refl) as [He|(Hh & Ht & Hc)].
    + exists s. split; [apply extends_unwind, He|auto].
    + exists s'. split; [|auto]. unfold trail_unwind, trail_mark.
      rewrite unwind_loop_done by (rewrite Ht; lia).
      destruct s'; reflexivity.
Qed.

Lemma builtin_call_keeps_trail_consistent_witness :
  ∃ s', builtin_call fmt_none 2 2 bind_query.2 = Ret (1, s') ∧
        g_trail s' = [0%nat] ∧
        ∃ s'', trail_unwind (trail_mark bind_query.2) s' = Ret s'' ∧
               heap s'' = heap bind_query.2 ∧ g_trail s'' = g_trail bind_query.2.
Proof.
  eexists. split; [vm_compute; reflexivity|]. split; [reflexivity|].
  match goal with
  | |- ∃ s'', trail_unwind _ ?s' = _ ∧ _ =>
      destruct (builtin_call_keeps_trail_consistent fmt_none 2 2 bind_query.2
                  s' 1 ltac:(vm_compute; reflexivity)) as (_ & _ & _ & H1)
  end.
  apply H1. reflexivity.
Defined.

Lemma builtin_call_not_in_table fmt_g n G G' nm args s :
  deref n (heap s) G = Ret G' →
  heap s !! G' = Some (Struc nm args) →
  in_builtin_table nm (arity args) = false →
  builtin_call fmt_g n G s = Ret (-1, s).
Proof.
  intros Hd E Ht. unfold builtin_call. rewrite Hd. cbn [mbind Res_bind].
  rewrite !(is_atom_struc _ _ _ _ _ _ _ E). unfold in_builtin_table in Ht.
  repeat (apply orb_false_elim in Ht as [Ht ?]).
  repeat match goal with H : _ && _ = false |- _ => rewrite H; clear H end.
  reflexivity.
Qed.

(** X12: calling a predicate nobody defined is a silent failure.  For a
    goal whose dereferenced form is a compound that is no built-in, when
    no clause head in the knowledge base is a compound of that name and
    arity (an empty knowledge base, for one), [solve] returns at once with
    the state untouched: no solution, no output, no message. *)
Theorem undefined_predicate_fails (fmt_g : float → string) (kb : KB)
    (n : nat) (G G' : addr) (nm : string) (args rest : list addr)
    (qv : VSet) (s : State) :
  deref n (heap s) G = Ret G' →
  heap s !! G' = Some (Struc nm args) →
  in_builtin_table nm (arity args) = false →
  Forall (λ cl, ∃ tH, heap s !! head cl = Some tH ∧
                      ∀ args', tH = Struc nm args' →
                               arity args' ≠ arity args) kb →
  solve fmt_g kb (S n) (G :: rest) qv s = Ret s.
Proof.
  intros Hd E Ht Hkb. cbn [solve].
  rewrite (builtin_call_not_in_table fmt_g n G G' nm args s Hd E Ht).
  cbn [mbind Res_bind Z.eqb].
  eapply try_clauses_all_skipped; [exact Hd|exact E|].
  eapply Forall_impl; [exact Hkb|]. intros cl (tH & EH & Hne).
  exists tH. split; [exact EH|].
  destruct (functor_filter (Struc nm args) tH) eqn:Hf; [|reflexivity].
  apply functor_filter_struc in Hf as (args' & -> & Ha).
  exfalso. eapply Hne; eauto.
Qed.

Lemma undefined_predicate_fails_witness :
  solve fmt_none family_kb 1 [21%nat] [19%nat] undefined_query.2
    = Ret undefined_query.2.
Proof.
  apply (undefined_predicate_fails fmt_none family_kb 0 21 21 "grandparent"
           [19; 20]%nat [] [19%nat] undefined_query.2);
    [vm_compute; reflexivity..|].
  assert (Hkb : family_kb = [mkClause 2 []; mkClause 5 []; mkClause 8 [];
                             mkClause 11 [12%nat];
                             mkClause 15 [17%nat; 18%nat]])
    by (vm_compute; reflexivity).
  rewrite Hkb.
  repeat constructor;
    (eexists; split; [vm_compute; reflexivity|]);
    intros args' [= ? ?]; discriminate.
Defined.

(** ** Chains of bound variables stay finite *)

Lemma bind_var_deref s a b id nm an tb :
  heap s !! a = Some (Var id None nm an) →
  heap s !! b = Some tb → unbound_node tb → a ≠ b →
  ∀ d t t', deref d (heap s) t = Ret t' →
            deref (S d) (heap (bind_var a b s)) t
              = Ret (if Nat.eqb t' a then b else t').
Proof.
  intros Ea Eb Ub Hne.
  assert (La : (a < length (heap s))%nat) by (eapply lookup_lt_Some; eauto).
  assert (Hh : heap (bind_var a b s) = <[a := Var id (Some b) nm an]> (heap s))
    by (unfold bind_var; rewrite Ea; reflexivity).
  rewrite Hh. set (h' := <[a := Var id (Some b) nm an]> (heap s)).
  assert (Ea' : h' !! a = Some (Var id (Some b) nm an))
    by (apply list_lookup_insert_eq; exact La).
  assert (Eb' : h' !! b = Some tb)
    by (unfold h'; rewrite list_lookup_insert_ne by exact Hne; exact Eb).
  assert (Hat_a : ∀ d t', deref d (heap s) a = Ret t' →
            deref (S d) h' a = Ret (if Nat.eqb t' a then b else t')).
  { intros d t' H. rewrite (deref_stop _ _ _ _ Ea I) in H. injection H as <-.
    rewrite Nat.eqb_refl, (deref_bound _ _ _ _ _ _ _ Ea').
    apply (deref_stop _ _ _ _ Eb' Ub). }
  assert (Hstop : ∀ d t node, t ≠ a → heap s !! t = Some node →
            unbound_node node →
            deref d h' t = Ret (if Nat.eqb t a then b else t)).
  { intros d t node Hta E U. destruct (Nat.eqb_spec t a); [congruence|].
    eapply deref_stop; [|exact U].
    unfold h'. rewrite list_lookup_insert_ne by auto. exact E. }
  induction d as [|d IH]; intros t t' H;
    (destruct (decide (t = a)) as [->|Hta]; [apply Hat_a, H|]).
  - simpl in H.
    destruct (heap s !! t) as [[? [r|] ? ?| |]|] eqn:Et; inv_ret;
      eapply Hstop; eauto; exact I.
  - simpl in H.
    destruct (heap s !! t) as [[? [r|] ? ?| |]|] eqn:Et; inv_ret;
      try (eapply Hstop; eauto; exact I).
    rewrite (deref_bound (S d) h' t id0 r name anonymous).
    + apply IH, H.
    + unfold h'. rewrite list_lookup_insert_ne by auto. exact Et.
Qed.

Lemma bind_var_chains s a b id nm an tb :
  heap s !! a = Some (Var id None nm an) →
  heap s !! b = Some tb → unbound_node tb → a ≠ b →
  chains_end (heap s) → chains_end (heap (trail_push a (bind_var a b s))).
Proof.
  intros Ea Eb Ub Hne Hc t node E. simpl in E.
  assert (Hlen : length (heap (bind_var a b s)) = length (heap s))
    by (unfold bind_var; rewrite Ea; apply length_insert).
  apply lookup_lt_Some in E. rewrite Hlen in E.
  apply lookup_lt_is_Some in E as (node0 & E0).
  destruct (Hc t node0 E0) as (d & t' & Hd).
  eexists _, _. simpl. eapply bind_var_deref; eassumption.
Qed.

Lemma unify_args_chains (u : addr → addr → State → Res (bool * State)) :
  (∀ x y s ok s1, u x y s = Ret (ok, s1) → chains_end (heap s) →
                  chains_end (heap s1)) →
  ∀ l1 l2 s ok s1, unify_args u l1 l2 s = Ret (ok, s1) →
                   chains_end (heap s) → chains_end (heap s1).
Proof.
  intros Hu l1. induction l1 as [|x l1 IH]; intros [|y l2] s ok s1 H Hc;
    simpl in H; inv_ret; auto.
  destruct b; inv_ret; eauto.
Qed.

(** X13: [unify] has no occurs-check, yet it never ties variables into a
    cycle: it binds only a dereferenced unbound variable to a different
    dereferenced node.  If before the call every chain of variable
    bindings in the heap comes to an end, then so does every chain when
    [unify] returns, with either answer: [deref] still returns on every
    node. *)
Theorem unify_keeps_chains_finite (n : nat) (a b : addr) (s s1 : State)
    (ok : bool) :
  unify n a b s = Ret (ok, s1) →
  chains_end (heap s) → chains_end (heap s1).
Proof.
  revert a b s ok s1. induction n as [|n IH]; intros a b s ok s1 H Hc;
    [discriminate|].
  rewrite unify_S in H. inv_ret. rename x into a', x0 into b'.
  destruct (Nat.eqb_spec a' b') as [->|Hne]; inv_ret; [exact Hc|].
  apply deref_Ret in Hx as (ta & Ea & Ua).
  apply deref_Ret in Hx0 as (tb & Eb & Ub).
  rewrite Ea, Eb in H.
  destruct ta as [? [r|] ? ?| |]; [destruct Ua| | |].
  - inv_ret. eapply bind_var_chains; eauto.
  - destruct tb as [? [r|] ? ?| |]; [destruct Ub| | |]; inv_ret; auto.
    eapply bind_var_chains; eauto.
  - destruct tb as [? [r|] ? ?| |]; [destruct Ub| | |]; inv_ret; auto.
    + eapply bind_var_chains; eauto.
    + destruct (negb _); inv_ret; [exact Hc|].
      destruct (negb _); inv_ret; [exact Hc|].
      eapply unify_args_chains; [|eassumption|exact Hc].
      intros; eapply IH; eassumption.
Qed.

Lemma unify_keeps_chains_finite_witness :
  chains_end (heap occurs_state) ∧
  ∃ s1, unify 1 0 1 occurs_state = Ret (true, s1) ∧ chains_end (heap s1).
Proof.
  assert (Hc : chains_end (heap occurs_state)).
  { intros t node E. exists 0%nat, t.
    destruct t as [|[|[|t]]]; try reflexivity. discriminate E. }
  split; [exact Hc|]. eexists. split; [vm_compute; reflexivity|].
  match goal with
  | |- chains_end (heap ?s1) =>
      apply (unify_keeps_chains_finite 1 0 1 occurs_state s1 true);
        [vm_compute; reflexivity|exact Hc]
  end.
Defined.

(** ** Unifying with a ground term *)

Lemma keeps_refl h : keeps h h.
Proof. intros t node E _. exact E. Qed.

Lemma keeps_trans h1 h2 h3 : keeps h1 h2 → keeps h2 h3 → keeps h1 h3.
Proof. intros H12 H23 t node E U. eauto. Qed.

Lemma extends_keeps s s1 : extends s s1 → keeps (heap s) (heap s1).
Proof.
  intros (l & _ & Hu & _) t node E Hnode.
  apply undo_spec in Hu as (_ & Hl).
  destruct (decide (t ∈ l)) as [Hin|Hnot].
  - destruct (proj2 (Hl t) Hin) as (id & r & nm & an & E1 & E2).
    rewrite E in E2. injection E2 as ->. discriminate.
  - rewrite <- E. symmetry. apply Hl, Hnot.
Qed.

Lemma deref_keeps h h1 d : ∀ t t' node,
  keeps h h1 → deref d h t = Ret t' →
  h !! t' = Some node → is_unbound_var node = false →
  deref d h1 t = Ret t'.
Proof.
  induction d as [|d IH]; intros t t' node Hk H E U; simpl in H |- *;
    destruct (h !! t) as [[id [r|] nm an| |]|] eqn:Et; inv_ret;
    try (rewrite (Hk _ _ Et eq_refl); eauto; fail);
    try (rewrite Et in E; injection E as <-; discriminate).
Qed.

Lemma groundb_keeps h h1 d : ∀ t,
  keeps h h1 → groundb d h t = true → groundb d h1 t = true.
Proof.
  induction d as [|d IH]; intros t Hk; simpl; [discriminate|].
  destruct (h !! t) as [[id [r|] nm an| |]|] eqn:Et; try discriminate;
    rewrite (Hk _ _ Et eq_refl); auto.
  apply forallb_impl. intros x. apply IH, Hk.
Qed.

Lemma ground_deref d h t t' :
  groundb d h t = true → deref d h t = Ret t' →
  groundb d h t' = true ∧
  ((∃ x, h !! t' = Some (Num x)) ∨
   (∃ nm args d', h !! t' = Some (Struc nm args) ∧ d = S d' ∧
                  forallb (groundb d' h) args = true)).
Proof.
  intros G H. destruct (deref_ground _ _ _ G) as (t'' & Hd & Hg & Hk).
  assert (t'' = t') as -> by congruence. split; [exact Hg|].
  destruct Hk as [?|(nm & args & E)]; [auto|]. right.
  destruct d as [|d']; [discriminate|]. simpl in Hg. rewrite E in Hg.
  eauto 6.
Qed.

Lemma term_eqb_mono h d : ∀ d' a b,
  (d ≤ d')%nat → term_eqb d h a b = true → term_eqb d' h a b = true.
Proof.
  induction d as [|d IH]; intros d' a b Hd; simpl; [discriminate|].
  destruct d'; [lia|]. simpl.
  destruct (deref d h a) as [a'| |] eqn:Ea; try discriminate.
  destruct (deref d h b) as [b'| |] eqn:Eb; try discriminate.
  rewrite (deref_mono d d' h a ltac:(lia) _ Ea),
          (deref_mono d d' h b ltac:(lia) _ Eb).
  destruct (Nat.eqb a' b'); [reflexivity|]. simpl.
  destruct (h !! a') as [[]|], (h !! b') as [[]|]; auto.
  rewrite !andb_true_iff. intros [Hn Hf]. split; [exact Hn|].
  revert Hf. apply forallb_impl. intros [x y]. apply IH. lia.
Qed.

Lemma term_eqb_keeps h h1 d : ∀ a b,
  keeps h h1 → groundb d h b = true → term_eqb d h a b = true →
  term_eqb d h1 a b = true.
Proof.
  induction d as [|d IH]; intros a b Hk G H; [discriminate|].
  cbn [term_eqb] in H |- *.
  destruct (deref d h a) as [a'| |] eqn:Ea; try discriminate.
  destruct (deref d h b) as [b'| |] eqn:Eb; try discriminate.
  assert (Eb1 : deref (S d) h b = Ret b')
    by (eapply deref_mono; [|exact Eb]; lia).
  destruct (ground_deref _ _ _ _ G Eb1) as (_ & Kb).
  assert (Ub : ∃ nb, h !! b' = Some nb ∧ is_unbound_var nb = false)
    by (destruct Kb as [(x & E)|(nm & args & d' & E & _)]; eauto).
  destruct Ub as (nb & Enb & Unb).
  rewrite (deref_keeps _ _ _ _ _ _ Hk Eb Enb Unb).
  destruct (Nat.eqb_spec a' b') as [->|Hne].
  - rewrite (deref_keeps _ _ _ _ _ _ Hk Ea Enb Unb), Nat.eqb_refl.
    reflexivity.
  - simpl in H.
    destruct (h !! a') as [[| |n1 l1]|] eqn:Ena; try discriminate.
    + destruct nb as [| |]; try discriminate; rewrite Enb in H;
        try discriminate.
      rewrite (deref_keeps _ _ _ _ _ _ Hk Ea Ena eq_refl).
      rewrite (Hk _ _ Ena eq_refl), (Hk _ _ Enb eq_refl), H.
      apply orb_true_r.
    + rewrite Enb in H. destruct nb as [| |n2 l2]; try discriminate.
      rewrite (deref_keeps _ _ _ _ _ _ Hk Ea Ena eq_refl).
      rewrite (Hk _ _ Ena eq_refl), (Hk _ _ Enb eq_refl).
      destruct Kb as [(x & E)|(nm & args & d' & E & Hd & Hf)]; [congruence|].
      injection Hd as <-. rewrite Enb in E. injection E as <- <-.
      apply andb_true_iff in H as [Hn H]. rewrite Hn. simpl.
      apply orb_true_iff. right.
      clear -IH Hk Hf H. revert l1 H. induction l2 as [|y l2 IHl];
        intros [|x l1] H; simpl in *; try reflexivity.
      apply andb_true_iff in H as [Hxy H].
      apply andb_true_iff in Hf as [Gy Gl].
      rewrite (IH x y Hk Gy Hxy). simpl. apply IHl; assumption.
Qed.
Lemma unify_args_ground_eq (u : addr → addr → State → Res (bool * State))
    (D d' : nat) :
  (d' ≤ D)%nat →
  (∀ x y s s1, u x y s = Ret (true, s1) → groundb d' (heap s) y = true →
               term_eqb D (heap s1) x y = true) →
  (∀ x y s ok s1, u x y s = Ret (ok, s1) → extends s s1) →
  ∀ l1 l2 s s1,
    unify_args u l1 l2 s = Ret (true, s1) →
    forallb (groundb d' (heap s)) l2 = true →
    forallb (λ p, term_eqb D (heap s1) p.1 p.2) (combine l1 l2) = true.
Proof.
  intros HD Hu He l1. induction l1 as [|x l1 IH]; intros [|y l2] s s1 H G;
    simpl in H |- *; inv_ret; try reflexivity.
  destruct b; inv_ret; [|discriminate].
  apply andb_true_iff in G as [Gy Gl].
  pose proof (extends_keeps _ _ (He _ _ _ _ _ Hx)) as Hk1.
  pose proof (extends_keeps _ _
                (unify_args_extends u He _ _ _ _ _ H)) as Hk2.
  apply andb_true_iff. split.
  - apply (term_eqb_keeps (heap s0)); [exact Hk2| |eapply Hu; eassumption].
    apply (groundb_mono d' D); [exact HD|]. apply (groundb_keeps (heap s)); auto.
  - eapply IH; [exact H|]. revert Gl. apply forallb_impl. intros z.
    apply groundb_keeps, Hk1.
Qed.

Lemma groundb_pos d h t : groundb d h t = true → (1 ≤ d)%nat.
Proof. destruct d; [discriminate|lia]. Qed.

(** After a successful [unify] with a ground second term, the two terms
    are the same under the bindings. *)
Lemma unify_ground_eq n : ∀ d a b s s1,
  unify n a b s = Ret (true, s1) → groundb d (heap s) b = true →
  term_eqb (n + d) (heap s1) a b = true.
Proof.
  induction n as [|n IH]; intros d a b s s1 H G; [discriminate|].
  pose proof (groundb_pos _ _ _ G) as Hd.
  rewrite unify_S in H. inv_ret. rename x into a', x0 into b'.
  assert (Hb1 : deref d (heap s) b = Ret b').
  { destruct (deref_ground _ _ _ G) as (b'' & Hb'' & _).
    rewrite (deref_det _ _ _ _ _ _ Hx0 Hb''). exact Hb''. }
  destruct (ground_deref _ _ _ _ G Hb1) as (Gb' & Kb).
  replace (S n + d)%nat with (S (n + d)) by lia. cbn [term_eqb].
  destruct (Nat.eqb_spec a' b') as [->|Hne].
  - inv_ret.
    rewrite (deref_mono n (n + d) _ _ ltac:(lia) _ Hx),
            (deref_mono n (n + d) _ _ ltac:(lia) _ Hx0), Nat.eqb_refl.
    reflexivity.
  - destruct (deref_Ret _ _ _ _ Hx) as (ta & Ea & Ua).
    destruct (deref_Ret _ _ _ _ Hx0) as (tb & Eb & Ub).
    rewrite Ea, Eb in H.
    destruct ta as [ida [r|] nma ana| |n1 l1]; [destruct Ua| | |].
    + (* [a'] is an unbound variable: it is bound to [b'] *)
      inv_ret. simpl.
      pose proof (bind_var_deref s a' b' ida nma ana tb Ea Eb Ub Hne) as Hbd.
      rewrite (deref_mono (S n) (n + d) _ _ ltac:(lia) _ (Hbd _ _ _ Hx)),
              (deref_mono (S n) (n + d) _ _ ltac:(lia) _ (Hbd _ _ _ Hx0)).
      rewrite Nat.eqb_refl.
      destruct (Nat.eqb_spec b' a'); [congruence|].
      rewrite Nat.eqb_refl. reflexivity.
    + (* [a'] is a number *)
      destruct Kb as [(y & E)|(nm & args & d' & E & _)];
        rewrite E in Eb; injection Eb as <-; inv_ret; try discriminate.
      rewrite (deref_mono n (n + d) _ _ ltac:(lia) _ Hx),
              (deref_mono n (n + d) _ _ ltac:(lia) _ Hx0), Ea, E.
      apply orb_true_iff. right. assumption.
    + (* [a'] is a compound *)
      destruct Kb as [(y & E)|(nm & args & d' & E & -> & Gl)];
        rewrite E in Eb; injection Eb as <-; inv_ret; try discriminate.
      destruct (String.eqb n1 nm) eqn:Hnm; simpl in H; [|discriminate].
      destruct (Z.eqb_spec (arity l1) (arity args)) as [Har|];
        simpl in H; [|discriminate].
      pose proof (extends_keeps _ _
                    (unify_args_extends _ (unify_extends n) _ _ _ _ _ H))
        as Hk.
      rewrite (deref_keeps _ _ _ _ _ _ Hk
                 (deref_mono n (n + S d') _ _ ltac:(lia) _ Hx) Ea eq_refl),
              (deref_keeps _ _ _ _ _ _ Hk
                 (deref_mono n (n + S d') _ _ ltac:(lia) _ Hx0) E eq_refl).
      rewrite (Hk _ _ Ea eq_refl), (Hk _ _ E eq_refl), Hnm.
      apply orb_true_iff. right.
      unfold arity in Har. apply Nat2Z.inj in Har. rewrite Har, Nat.eqb_refl.
      simpl.
      apply (unify_args_ground_eq (unify n) (n + S d') d' ltac:(lia))
        with (s := s); [|apply unify_extends|exact H|exact Gl].
      intros x y s2 s3 Hu Gy.
      apply (term_eqb_mono _ (n + d')); [lia|]. eapply IH; eassumption.
Qed.

Lemma groundb_deref_back h k : ∀ m a a',
  deref k h a = Ret a' → groundb m h a' = true →
  groundb (k + m) h a = true.
Proof.
  induction k as [|k IH]; intros m a a' H G; simpl in H.
  - destruct (h !! a) as [[? [r|] ? ?| |]|]; inv_ret; exact G.
  - destruct (h !! a) as [[? [r|] ? ?| |]|] eqn:E; inv_ret;
      try (eapply groundb_mono; [|exact G]; lia).
    replace (S k + m)%nat with (S (k + m)) by lia. simpl. rewrite E.
    eapply IH; eassumption.
Qed.

Lemma term_eqb_ground h d : ∀ a b,
  term_eqb d h a b = true → groundb d h b = true →
  ∃ D, groundb D h a = true.
Proof.
  induction d as [|d IH]; intros a b H G; [discriminate|].
  cbn [term_eqb] in H.
  destruct (deref d h a) as [a'| |] eqn:Ea; try discriminate.
  destruct (deref d h b) as [b'| |] eqn:Eb; try discriminate.
  assert (Eb1 : deref (S d) h b = Ret b')
    by (eapply deref_mono; [|exact Eb]; lia).
  destruct (ground_deref _ _ _ _ G Eb1) as (Gb' & Kb).
  destruct (Nat.eqb_spec a' b') as [->|Hne].
  - eexists. eapply groundb_deref_back; eassumption.
  - simpl in H.
    destruct (h !! a') as [[| |n1 l1]|] eqn:Ena; try discriminate.
    + exists (d + 1)%nat. eapply groundb_deref_back; [exact Ea|].
      simpl. rewrite Ena. reflexivity.
    + destruct Kb as [(x & E)|(nm & args & d' & E & Hd & Gl)];
        rewrite E in H; [discriminate|]. injection Hd as <-.
      apply andb_true_iff in H as [Hnl H].
      apply andb_true_iff in Hnl as [_ Hlen]. apply Nat.eqb_eq in Hlen.
      assert (HD : ∃ D, forallb (groundb D h) l1 = true ∨
                        (length l1 ≠ length args)).
      { clear -IH H Gl.
        revert args H Gl. induction l1 as [|x l1 IHl]; intros [|y l2] H Gl;
          try (exists 0%nat; auto; fail).
        simpl in H, Gl.
        apply andb_true_iff in H as [Hxy H].
        apply andb_true_iff in Gl as [Gy Gl].
        destruct (IH _ _ Hxy Gy) as (D1 & H1).
        destruct (IHl _ H Gl) as (D2 & [H2|H2]).
        - exists (Nat.max D1 D2). left. simpl. apply andb_true_iff. split.
          + eapply groundb_mono; [|exact H1]. lia.
          + revert H2. apply forallb_impl. intros z.
            apply groundb_mono. lia.
        - exists 0%nat. right. simpl. congruence. }
      destruct HD as (D & [HD|HD]).
      * exists (d + S D)%nat. eapply groundb_deref_back; [exact Ea|].
        simpl. rewrite Ena. exact HD.
      * congruence.
Qed.

(** X14: unifying with a ground term is matching.  When the second term
    is fully ground and [unify] returns true, the two terms are the same
    term under the new bindings, the first term has become fully ground
    too, and the second is as ground as before. *)
Theorem unify_with_ground_term (n : nat) (a b : addr) (s s1 : State) :
  ground (heap s) b →
  unify n a b s = Ret (true, s1) →
  (∃ d, term_eqb d (heap s1) a b = true) ∧
  ground (heap s1) a ∧ ground (heap s1) b.
Proof.
  intros (d & G) H.
  pose proof (extends_keeps _ _ (unify_extends _ _ _ _ _ _ H)) as Hk.
  pose proof (unify_ground_eq _ _ _ _ _ _ H G) as He.
  assert (G1 : groundb (n + d) (heap s1) b = true).
  { apply (groundb_mono d); [lia|]. apply (groundb_keeps (heap s)); auto. }
  split; [eauto|]. split; [|exists (n + d)%nat; exact G1].
  eapply term_eqb_ground; eassumption.
Qed.

Lemma unify_with_ground_term_witness :
  ∃ s1, unify 2 21 5 match_query.2 = Ret (true, s1) ∧
        heap s1 !! 19%nat = Some (Var 0 (Some 3%nat) (Some "A"%string) false) ∧
        (∃ d, term_eqb d (heap s1) 21 5 = true) ∧
        ground (heap s1) 21 ∧ ground (heap s1) 5.
Proof.
  eexists. split; [vm_compute; reflexivity|]. split; [reflexivity|].
  match goal with
  | |- (∃ d, term_eqb d (heap ?s1) _ _ = _) ∧ _ =>
      apply (unify_with_ground_term 2 21 5 match_query.2 s1);
        [exists 2%nat; vm_compute; reflexivity|vm_compute; reflexivity]
  end.
Defined.

(** ** Variables of one clause share a node per name *)

Lemma ve_find_snoc E n v x :
  ve_find (E ++ [(n, v)]) x =
    match ve_find E x with
    | Some w => Some w
    | None => if String.eqb n x then Some v else None
    end.
Proof.
  induction E as [|[m w] E IH]; simpl; [reflexivity|].
  destruct (String.eqb m x); [reflexivity|exact IH].
Qed.

(** X15: within one clause or query [ve_get] gives one node per variable
    name.  After it has returned [v] for a name, the environment sends
    that name to [v], asking again returns [v] and allocates nothing, and
    no other name changes its node.  A name seen for the first time gets
    a node allocated by this call: an unbound variable of that name,
    flagged anonymous exactly when the name starts with an underscore. *)
Theorem ve_get_round_trip (E E' : VarEnv) (name : string) (v : addr)
    (s s' : State) :
  ve_get E name s = (v, E', s') →
  ve_find E' name = Some v ∧
  ve_get E' name s' = (v, E', s') ∧
  (∀ other, other ≠ name → ve_find E' other = ve_find E other) ∧
  (∀ w, ve_find E name = Some w → v = w ∧ E' = E ∧ s' = s) ∧
  (ve_find E name = None →
   v = length (heap s) ∧ E' = E ++ [(name, v)] ∧
   heap s' = heap s ++ [Var 0 None (Some name) (starts_with_underscore name)]).
Proof.
  unfold ve_get. destruct (ve_find E name) as [w|] eqn:Ef.
  - intros [= <- <- <-]. rewrite Ef.
    split; [reflexivity|]. split; [reflexivity|]. split; [reflexivity|].
    split; [|discriminate]. intros w' [= <-]. auto.
  - unfold mk_var, alloc. cbn [fst snd]. intros [= <- <- <-].
    assert (Hf : ve_find (E ++ [(name, length (heap s))]) name
                 = Some (length (heap s)))
      by (rewrite ve_find_snoc, Ef, String.eqb_refl; reflexivity).
    split; [exact Hf|]. split; [rewrite Hf; reflexivity|]. split; [|split].
    + intros other Hne. rewrite ve_find_snoc.
      destruct (ve_find E other); [reflexivity|].
      destruct (String.eqb_spec name other); [congruence|reflexivity].
    + discriminate.
    + intros _. repeat split.
Qed.

Lemma ve_get_round_trip_witness :
  ∃ v E' s',
    ve_get [] "_G" empty_state = (v, E', s') ∧
    ve_find E' "_G" = Some v ∧
    ve_get E' "_G" s' = (v, E', s') ∧
    heap s' = [Var 0 None (Some "_G"%string) true].
Proof.
  do 3 eexists. split; [vm_compute; reflexivity|].
  match goal with
  | |- ve_find ?E' _ = Some ?v ∧ ve_get _ _ ?s' = _ ∧ _ =>
      destruct (ve_get_round_trip [] E' "_G" v empty_state s'
                  ltac:(vm_compute; reflexivity)) as (H1 & H2 & _)
  end.
  split; [exact H1|]. split; [exact H2|reflexivity].
Defined.

(** ** How lists are printed *)

Lemma printf_printf a b s :
  printf b (printf a s) = printf (String.append a b) s.
Proof. unfold printf; simpl. rewrite append_assoc. reflexivity. Qed.

Lemma printf_empty s : printf EmptyString s = s.
Proof. unfold printf. rewrite append_nil_r. destruct s; reflexivity. Qed.

Section ListPrinting.

Variable fmt_g : float → string.
Variable h : list Term.

Lemma print_list_loop_cells t xs u strs (tl : bool → string) :
  list_cells h t xs u →
  Forall2 (shows fmt_g h) xs strs →
  (∃ N, ∀ fp fl first s, (N ≤ fp)%nat → (N ≤ fl)%nat → heap s = h →
        print_list_loop (print_term fmt_g fp) fl first u s
          = Ret (printf (tl first) s)) →
  ∃ N, ∀ fp fl first s, (N ≤ fp)%nat → (N ≤ fl)%nat → heap s = h →
       print_list_loop (print_term fmt_g fp) fl first t s
         = Ret (printf (list_text first strs tl) s).
Proof.
  intros Hc. revert strs. induction Hc as [t u d Hd Hu|t c d x y xs u Hd Ec Hc IH];
    intros strs Hs (Nt & Ht).
  - inversion Hs; subst. exists (S (Nat.max Nt d)).
    intros fp fl first s Hfp Hfl Hh.
    destruct fl as [|fl]; [lia|].
    specialize (Ht fp (S fl) first s ltac:(lia) ltac:(lia) Hh).
    cbn [print_list_loop] in Ht |- *.
    rewrite Hh in *.
    rewrite (deref_mono d fl h t ltac:(lia) _ Hd). cbn [mbind Res_bind].
    destruct (deref_Ret _ _ _ _ Hd) as (node & E & U).
    rewrite (deref_stop fl _ _ _ E U) in Ht. exact Ht.
  - inversion Hs as [|? str ? strs' Hx Hs']; subst.
    destruct (IH _ Hs' (ex_intro _ Nt Ht)) as (Nr & Hr).
    destruct Hx as (Nx & Hx).
    exists (S (Nat.max (Nat.max Nr Nx) d)).
    intros fp fl first s Hfp Hfl Hh.
    destruct fl as [|fl]; [lia|]. cbn [print_list_loop].
    set (s0 := if first then s else printf ", " s).
    assert (Hh0 : heap s0 = h) by (subst s0; destruct first; exact Hh).
    rewrite Hh. rewrite (deref_mono d fl h t ltac:(lia) _ Hd).
    cbn [mbind Res_bind]. rewrite Ec.
    replace ((arity [x; y] =? 0) && String.eqb "." "[]") with false
      by reflexivity.
    replace (String.eqb "." "." && (arity [x; y] =? 2)) with true
      by reflexivity.
    rewrite (arg_struc h c "." [x; y] 0 x Ec eq_refl). cbn [mbind Res_bind].
    rewrite (Hx fp s0 ltac:(lia) Hh0). cbn [mbind Res_bind].
    change (heap (printf str s0)) with (heap s0). rewrite Hh0.
    rewrite (arg_struc h c "." [x; y] 1 y Ec eq_refl). cbn [mbind Res_bind].
    rewrite (Hr fp fl false (printf str s0) ltac:(lia) ltac:(lia) Hh0).
    f_equal. rewrite printf_printf. subst s0. cbn [list_text].
    destruct first; [reflexivity|]. rewrite printf_printf. reflexivity.
Qed.

End ListPrinting.

Section ListPrintingEnds.

Variable fmt_g : float → string.
Variable h : list Term.

Lemma print_list_loop_proper_end u :
  h !! u = Some (Struc "[]" []) →
  ∃ N, ∀ fp fl first s, (N ≤ fp)%nat → (N ≤ fl)%nat → heap s = h →
       print_list_loop (print_term fmt_g fp) fl first u s
         = Ret (printf (proper_end first) s).
Proof.
  intros E. exists 1%nat. intros fp fl first s _ Hfl Hh.
  destruct fl as [|fl]; [lia|]. cbn [print_list_loop]. rewrite Hh.
  rewrite (deref_stop _ _ _ _ E I). cbn [mbind Res_bind]. rewrite E.
  unfold proper_end. rewrite printf_empty. reflexivity.
Qed.

Lemma print_list_loop_improper_end u ustr :
  (∀ x y, h !! u ≠ Some (Struc "." [x; y])) →
  h !! u ≠ Some (Struc "[]" []) →
  (∃ d t, deref d h t = Ret u) →
  shows fmt_g h u ustr →
  ∃ N, ∀ fp fl first s, (N ≤ fp)%nat → (N ≤ fl)%nat → heap s = h →
       print_list_loop (print_term fmt_g fp) fl first u s
         = Ret (printf (improper_end ustr first) s).
Proof.
  intros Hcons Hnil (d & t & Hd) (Nu & Hu).
  destruct (deref_Ret _ _ _ _ Hd) as (node & E & U).
  exists (S Nu). intros fp fl first s Hfp Hfl Hh.
  destruct fl as [|fl]; [lia|]. cbn [print_list_loop]. rewrite Hh.
  rewrite (deref_stop _ _ _ _ E U). cbn [mbind Res_bind]. rewrite E.
  set (s0 := if first then s else printf ", " s).
  assert (Hh0 : heap (printf "| " s0) = h)
    by (subst s0; destruct first; exact Hh).
  assert (Himp : print_term fmt_g fp u (printf "| " s0)
                 = Ret (printf (improper_end ustr first) s)).
  { rewrite (Hu fp _ ltac:(lia) Hh0). f_equal. rewrite printf_printf.
    subst s0. unfold improper_end.
    destruct first; [reflexivity|]. rewrite printf_printf. reflexivity. }
  destruct node as [| |nm args]; try exact Himp.
  destruct ((arity args =? 0) && String.eqb nm "[]") eqn:Hn.
  - exfalso. apply andb_true_iff in Hn as [Ha Hn].
    apply String.eqb_eq in Hn as ->. apply Z.eqb_eq in Ha.
    destruct args; [|unfold arity in Ha; simpl in Ha; lia]. exact (Hnil E).
  - destruct (String.eqb nm "." && (arity args =? 2)) eqn:Hc; [|exact Himp].
    exfalso. apply andb_true_iff in Hc as [Hc Ha].
    apply String.eqb_eq in Hc as ->. apply Z.eqb_eq in Ha.
    unfold arity in Ha.
    destruct args as [|x [|y [|z args]]]; simpl in Ha; try lia.
    exact (Hcons x y E).
Qed.

Lemma list_cells_deref t xs u d c :
  list_cells h t xs u → deref d h t = Ret c → list_cells h c xs u.
Proof.
  intros Hc Hd. inversion Hc as [? ? d' Hd' Hu|? c' d' x y xs' ? Hd' Ec Hr];
    subst.
  - rewrite (deref_det _ _ _ _ _ _ Hd Hd').
    eapply cells_end; [eapply deref_idem; exact Hd'|exact Hu].
  - rewrite (deref_det _ _ _ _ _ _ Hd Hd').
    eapply cells_cons; [eapply deref_idem; exact Hd'|exact Ec|exact Hr].
Qed.

(** [print_term] on a node that heads a list prints the bracket form. *)
Lemma print_term_brackets t xs u strs (tl : bool → string) :
  list_cells h t xs u →
  (xs ≠ [] ∨ h !! u = Some (Struc "[]" [])) →
  Forall2 (shows fmt_g h) xs strs →
  (∃ N, ∀ fp fl first s, (N ≤ fp)%nat → (N ≤ fl)%nat → heap s = h →
        print_list_loop (print_term fmt_g fp) fl first u s
          = Ret (printf (tl first) s)) →
  shows fmt_g h t
    (String.append "[" (String.append (list_text true strs tl) "]")).
Proof.
  intros Hc Hlist Hs Hend.
  assert (Hhead : ∃ d c nm args,
            deref d h t = Ret c ∧ h !! c = Some (Struc nm args) ∧
            ((arity args =? 0) && String.eqb nm "[]"
             || String.eqb nm "." && (arity args =? 2)) = true).
  { inversion Hc as [? ? d Hd Hu|? c d x y xs' ? Hd Ec Hr]; subst.
    - destruct Hlist as [?|E]; [congruence|]. exists d, u, "[]"%string, [].
      auto.
    - exists d, c, "."%string, [x; y]. auto. }
  destruct Hhead as (d & c & nm & args & Hd & Ec & Hll).
  pose proof (list_cells_deref _ _ _ _ _ Hc Hd) as Hc'.
  destruct (print_list_loop_cells fmt_g h c xs u strs tl Hc' Hs Hend)
    as (N & HN).
  exists (S (Nat.max N d)). intros n s Hn Hh.
  destruct n as [|n]; [lia|]. cbn [print_term]. rewrite Hh.
  rewrite (deref_mono d n h t ltac:(lia) _ Hd). cbn [mbind Res_bind].
  rewrite Ec. unfold is_list_like.
  rewrite (deref_stop _ _ _ _ Ec I). cbn [mbind Res_bind]. rewrite Ec, Hll.
  cbn [mbind Res_bind]. unfold print_list.
  rewrite (HN n n true (printf "[" s) ltac:(lia) ltac:(lia) Hh).
  cbn [mbind Res_bind]. rewrite !printf_printf. reflexivity.
Qed.

End ListPrintingEnds.

(** X16: how [print_term] writes a list.  A chain of list cells ending in
    the empty list is written as an opening bracket, the elements as
    [print_term] writes them, separated by a comma and a blank, and a
    closing bracket.  A chain with at least one element that ends in
    anything else is written the same way with the end after a comma, a
    blank, a bar and a blank: the partial list of [a] and the variable [T]
    comes out as [[a, | T]]. *)
Theorem print_term_writes_lists (fmt_g : float → string) (h : list Term)
    (t u : addr) (xs : list addr) (strs : list string) :
  list_cells h t xs u →
  Forall2 (shows fmt_g h) xs strs →
  (h !! u = Some (Struc "[]" []) →
   shows fmt_g h t
     (String.append "[" (String.append (list_text true strs proper_end) "]"))) ∧
  (∀ ustr, xs ≠ [] → h !! u ≠ Some (Struc "[]" []) → shows fmt_g h u ustr →
   shows fmt_g h t
     (String.append "["
        (String.append (list_text true strs (improper_end ustr)) "]"))).
Proof.
  intros Hc Hs. split.
  - intros E. eapply print_term_brackets; eauto.
    apply print_list_loop_proper_end, E.
  - intros ustr Hxs Hnil Hu. eapply print_term_brackets; eauto.
    apply print_list_loop_improper_end; auto.
    + clear -Hc. induction Hc; auto.
    + clear -Hc. induction Hc as [t u d Hd _|]; [eauto|assumption].
Qed.

Lemma shows_atom fmt_g h t nm :
  h !! t = Some (Struc nm []) → nm ≠ "[]"%string → shows fmt_g h t nm.
Proof.
  intros E Hnm. exists 2%nat. intros n s Hn Hh.
  destruct n as [|n]; [lia|]. cbn [print_term]. rewrite Hh.
  rewrite (deref_stop _ _ _ _ E I). cbn [mbind Res_bind]. rewrite E.
  unfold is_list_like. destruct n as [|n]; [lia|].
  rewrite (deref_stop _ _ _ _ E I). cbn [mbind Res_bind]. rewrite E.
  apply String.eqb_neq in Hnm. rewrite Hnm.
  replace (arity [] =? 2) with false by reflexivity.
  rewrite !andb_false_r. reflexivity.
Qed.

Lemma shows_unbound_var fmt_g h t id nm an :
  h !! t = Some (Var id None (Some nm) an) → shows fmt_g h t nm.
Proof.
  intros E. exists 1%nat. intros n s Hn Hh.
  destruct n as [|n]; [lia|]. cbn [print_term]. rewrite Hh.
  rewrite (deref_stop _ _ _ _ E I). cbn [mbind Res_bind]. rewrite E.
  reflexivity.
Qed.

Lemma print_term_writes_lists_witness :
  shows fmt_none (heap lists_state) 4%nat "[a, b]" ∧
  shows fmt_none (heap lists_state) 7%nat "[a, | T]".
Proof.
  assert (Ha : ∀ t, heap lists_state !! t = Some (Struc "a" []) →
               shows fmt_none (heap lists_state) t "a")
    by (intros t E; apply (shows_atom _ _ _ _ E); discriminate).
  assert (Hb : shows fmt_none (heap lists_state) 1%nat "b")
    by (apply shows_atom; [vm_compute; reflexivity|discriminate]).
  assert (HT : shows fmt_none (heap lists_state) 6%nat "T")
    by (eapply shows_unbound_var; vm_compute; reflexivity).
  split.
  - refine (proj1 (print_term_writes_lists fmt_none (heap lists_state)
                     4%nat 2%nat [0; 1]%nat ["a"; "b"]%string _ _) _).
    + eapply cells_cons with (d := 1%nat); [vm_compute; reflexivity..|].
      eapply cells_cons with (d := 1%nat); [vm_compute; reflexivity..|].
      eapply cells_end with (d := 1%nat); [vm_compute; reflexivity|].
      intros x y; vm_compute; discriminate.
    + repeat constructor; [apply Ha; vm_compute; reflexivity|exact Hb].
    + vm_compute; reflexivity.
  - refine (proj2 (print_term_writes_lists fmt_none (heap lists_state)
                     7%nat 6%nat [5]%nat ["a"]%string _ _) "T"%string _ _ HT).
    + eapply cells_cons with (d := 1%nat); [vm_compute; reflexivity..|].
      eapply cells_end with (d := 1%nat); [vm_compute; reflexivity|].
      intros x y; vm_compute; discriminate.
    + repeat constructor. apply Ha; vm_compute; reflexivity.
    + discriminate.
    + vm_compute; discriminate.
Defined.
